(** * libcanard: UAVCAN/CAN v1 transport core (canard.c)

    A shallow embedding of [src/libcanard/canard.c] and the properties of
    its transfer CRC, CAN-ID encoder, transmission queue and frame
    acceptance path.

    Conventions of the embedding:
    - unsigned C integers ([uint8_t], [uint16_t], [uint32_t], enums) are
      values of [N]; every narrowing cast of the source is written out
      ([u8], [u16], [u32]);
    - signed return codes ([int32_t], [int8_t]) are values of [Z];
    - [size_t] sizes and offsets are [nat] (they index buffers);
    - a C pointer to bytes is [option Buf] ([None] is [NULL]);
    - the intrusive singly linked lists of the source (TX queue,
      subscription lists) are Rocq lists in link order. *)

From Stdlib Require Import NArith ZArith Lia Bool.
From Stdlib Require Import Sorting.Sorted.
From stdpp Require Import base list sorting.

Local Open Scope N_scope.

(** ** Common constants *)

Definition TAIL_START_OF_TRANSFER : N := 128.
Definition TAIL_END_OF_TRANSFER : N := 64.
Definition TAIL_TOGGLE : N := 32.

Definition CAN_EXT_ID_MASK : N := N.shiftl 1 29 - 1.

Definition BITS_PER_BYTE : N := 8.
Definition BYTE_MAX : N := 0xFF.

Definition PADDING_BYTE : N := 0.

(** Narrowing casts of C. *)
Definition u8 (x : N) : N := x mod 2 ^ 8.
Definition u16 (x : N) : N := x mod 2 ^ 16.
Definition u32 (x : N) : N := x mod 2 ^ 32.

(** ** Transfer CRC *)

Definition CRC_INITIAL : N := 0xFFFF.
Definition CRC_SIZE_BYTES : nat := 2.

(** One pass of the body of the [for] loop of [crcAddByte]. *)
Definition crcAddByte_body (out : N) : N :=
  if negb (N.land out 0x8000 =? 0)
  then u16 (N.lxor (u16 (N.shiftl out 1)) 0x1021)
  else u16 (N.shiftl out 1).

(** The loop [for (uint8_t i = 0; i < BITS_PER_BYTE; i++)], counting the
    iterations that remain. *)
Fixpoint crcAddByte_for (remaining : nat) (out : N) : N :=
  match remaining with
  | O => out
  | S r => crcAddByte_for r (crcAddByte_body out)
  end.

Definition crcAddByte (crc byte : N) : N :=
  let out := u16 (N.lxor crc (u16 (N.shiftl (u16 byte) BITS_PER_BYTE))) in
  crcAddByte_for (N.to_nat BITS_PER_BYTE) out.

(** The loop of [crcAdd]: [size] iterations reading [*p] and advancing [p].
    [p] is the rest of the buffer; the source never reads past its end (it
    is the caller's obligation), the model stops there. *)
Fixpoint crcAdd_for (size : nat) (p : list N) (out : N) : N :=
  match size, p with
  | S n, b :: p' => crcAdd_for n p' (crcAddByte out b)
  | _, _ => out
  end.

Definition crcAdd (crc : N) (size : nat) (data : list N) : N :=
  crcAdd_for size data crc.

(** *** The CRC as the specification words it *)

(** "eight iterations each of which shifts left by one and XORs 0x1021 when
    the pre-shift most-significant bit is set, all arithmetic modulo 2^16". *)
Definition crc_shift_spec (c : N) : N :=
  let shifted := (2 * c) mod 65536 in
  if N.testbit c 15 then N.lxor shifted 0x1021 else shifted.

Definition crc_add_byte_spec (crc b : N) : N :=
  Nat.iter 8 crc_shift_spec ((N.lxor crc (b * 256)) mod 65536).

(** ** Declarations of canard.h *)

(** Modelled from the spec: the header [canard.h] with these constants is
    not among the sources.  Node-IDs have 7 bits (0..127) and the sentinel
    [UNSET] is 128; subject-IDs have 13 bits, service-IDs 9 bits,
    transfer-IDs 5 bits, priorities 3 bits; Classic CAN carries 8 bytes and
    CAN FD 64; there are three transfer kinds. *)
Definition CANARD_NODE_ID_MAX : N := 127.
Definition CANARD_NODE_ID_UNSET : N := 128.
Definition CANARD_SUBJECT_ID_MAX : N := 8191.
Definition CANARD_SERVICE_ID_MAX : N := 511.
Definition CANARD_PRIORITY_MAX : N := 7.
Definition CANARD_TRANSFER_ID_MAX : N := 31.
Definition CANARD_MTU_CAN_CLASSIC : nat := 8.
Definition CANARD_MTU_CAN_FD : nat := 64.
Definition CANARD_NUM_TRANSFER_KINDS : N := 3.

(** Modelled from the spec: the enumerators of [CanardTransferKind] are
    declared in [canard.h]; the kind is a three-valued tag that indexes the
    per-kind subscription array. *)
Definition CanardTransferKindMessage : N := 0.
Definition CanardTransferKindResponse : N := 1.
Definition CanardTransferKindRequest : N := 2.

(** Modelled from the spec: the two error kinds of [canard.h]; they are
    returned negated, their magnitudes are stable and distinct. *)
Definition CANARD_ERROR_INVALID_ARGUMENT : Z := 2.
Definition CANARD_ERROR_OUT_OF_MEMORY : Z := 3.

(** A readable region of the caller's memory: where it starts and the bytes
    found from there on.  A byte pointer of the API is [option Buf]. *)
Record Buf := { buf_base : nat; buf_bytes : list N }.

Definition bytes_of (p : option Buf) : list N :=
  match p with Some b => buf_bytes b | None => [] end.

(** [CanardTransfer]. *)
Record CanardTransfer := {
  tr_timestamp_usec : N;
  tr_priority : N;
  tr_transfer_kind : N;
  tr_port_id : N;
  tr_remote_node_id : N;
  tr_transfer_id : N;
  tr_payload_size : nat;
  tr_payload : option Buf
}.

(** [CanardFrame]. *)
Record CanardFrame := {
  fr_timestamp_usec : N;
  fr_extended_can_id : N;
  fr_payload_size : nat;
  fr_payload : option Buf
}.

(** ** The user-supplied allocator

    [memory_allocate] and [memory_free] are function pointers that the
    application installs in the instance.  The library only observes
    whether an allocation succeeds, so an allocator is modelled by the
    answers it is going to give ([answers], consumed one per call; an
    exhausted list refuses) together with the book-keeping needed to state
    leak freedom: the blocks that are [live] and the numbers of allocations
    granted, allocations refused and blocks freed.  Blocks are named by the
    number of the allocation that created them, so a block name is never
    reused and a smaller name means an earlier allocation.  A fresh block is
    not initialised: all its bytes hold [junk]. *)
Record Heap := {
  answers : list bool;
  next_block : nat;
  live : list nat;
  n_allocated : nat;
  n_refused : nat;
  n_freed : nat;
  junk : N
}.

Definition memory_allocate (h : Heap) (amount : nat) : option nat * Heap :=
  let refuse (rest : list bool) :=
    (None,
     {| answers := rest; next_block := next_block h; live := live h;
        n_allocated := n_allocated h; n_refused := S (n_refused h);
        n_freed := n_freed h; junk := junk h |}) in
  match answers h with
  | true :: rest =>
      (Some (next_block h),
       {| answers := rest; next_block := S (next_block h);
          live := next_block h :: live h;
          n_allocated := S (n_allocated h); n_refused := n_refused h;
          n_freed := n_freed h; junk := junk h |})
  | false :: rest => refuse rest
  | [] => refuse []
  end.

(** Freeing [NULL] does nothing, as with [free]. *)
Definition memory_free (h : Heap) (pointer : option nat) : Heap :=
  match pointer with
  | Some b =>
      {| answers := answers h; next_block := next_block h;
         live := filter (fun x => x ≠ b) (live h);
         n_allocated := n_allocated h; n_refused := n_refused h;
         n_freed := S (n_freed h); junk := junk h |}
  | None => h
  end.

(** ** Session specifier *)

Definition OFFSET_PRIORITY : N := 26.
Definition OFFSET_SUBJECT_ID : N := 8.
Definition OFFSET_SERVICE_ID : N := 14.
Definition OFFSET_DST_NODE_ID : N := 7.

Definition FLAG_SERVICE_NOT_MESSAGE : N := N.shiftl 1 25.
Definition FLAG_ANONYMOUS_MESSAGE : N := N.shiftl 1 24.
Definition FLAG_REQUEST_NOT_RESPONSE : N := N.shiftl 1 24.
Definition FLAG_RESERVED_23 : N := N.shiftl 1 23.
Definition FLAG_RESERVED_07 : N := N.shiftl 1 7.

Definition makeMessageSessionSpecifier (subject_id src_node_id : N) : N :=
  N.lor src_node_id (u32 (N.shiftl subject_id OFFSET_SUBJECT_ID)).

Definition makeServiceSessionSpecifier
    (service_id : N) (request_not_response : bool) (src_node_id dst_node_id : N) : N :=
  N.lor (N.lor (N.lor (N.lor src_node_id
                             (u32 (N.shiftl dst_node_id OFFSET_DST_NODE_ID)))
                      (u32 (N.shiftl service_id OFFSET_SERVICE_ID)))
               (if request_not_response then FLAG_REQUEST_NOT_RESPONSE else 0))
        FLAG_SERVICE_NOT_MESSAGE.

(** ** Transmission *)

(** [CanardInternalTxQueueItem].  [tqi_block] names the block the item lives
    in; the [next] pointer is the position in the list that holds it. *)
Record CanardInternalTxQueueItem := {
  tqi_block : nat;
  tqi_deadline_usec : N;
  tqi_payload_size : nat;
  tqi_id : N;
  tqi_payload : list N
}.

(** [CanardInternalRxSession]. *)
Record CanardInternalRxSession := {
  rxs_block : nat;
  rxs_transfer_timestamp_usec : N;
  rxs_payload_size : nat;
  rxs_payload : option nat;
  rxs_calculated_crc : N;
  rxs_toggle_and_transfer_id : N;
  rxs_iface_index : N
}.

(** [CanardRxSubscription]; [_next] is the position in the per-kind list. *)
Record CanardRxSubscription := {
  sub_port_id : N;
  sub_payload_size_bytes_max : nat;
  sub_transfer_id_timeout_usec : N;
  sub_sessions : list (option CanardInternalRxSession)
}.

(** [CanardInstance].  The two allocator pointers are the [Heap] that is
    threaded through the operations. *)
Record CanardInstance := {
  user_reference : option nat;
  mtu_bytes : nat;
  node_id : N;
  rx_subscriptions : list (list CanardRxSubscription);
  tx_queue : list CanardInternalTxQueueItem
}.

Definition set_tx_queue (ins : CanardInstance) (q : list CanardInternalTxQueueItem)
  : CanardInstance :=
  {| user_reference := user_reference ins; mtu_bytes := mtu_bytes ins;
     node_id := node_id ins; rx_subscriptions := rx_subscriptions ins;
     tx_queue := q |}.

Definition set_rx_subscriptions (ins : CanardInstance)
    (s : list (list CanardRxSubscription)) : CanardInstance :=
  {| user_reference := user_reference ins; mtu_bytes := mtu_bytes ins;
     node_id := node_id ins; rx_subscriptions := s;
     tx_queue := tx_queue ins |}.

Definition CanardCANDLCToLength : list nat :=
  [0; 1; 2; 3; 4; 5; 6; 7; 8; 12; 16; 20; 24; 32; 48; 64]%nat.

Definition CanardCANLengthToDLC : list nat :=
  [ 0;  1;  2;  3;  4;  5;  6;  7;  8;
    9;  9;  9;  9;
    10; 10; 10; 10;
    11; 11; 11; 11;
    12; 12; 12; 12;
    13; 13; 13; 13; 13; 13; 13; 13;
    14; 14; 14; 14; 14; 14; 14; 14; 14; 14; 14; 14; 14; 14; 14; 14;
    15; 15; 15; 15; 15; 15; 15; 15; 15; 15; 15; 15; 15; 15; 15; 15 ]%nat.

(** Reading a constant table; the indices of the source are always in
    range. *)
Definition table_at (t : list nat) (i : nat) : nat := nth i t 0%nat.

Definition getPresentationLayerMTU (ins : CanardInstance) : nat :=
  let max_index := (length CanardCANLengthToDLC - 1)%nat in
  let mtu :=
    if (mtu_bytes ins <? CANARD_MTU_CAN_CLASSIC)%nat then CANARD_MTU_CAN_CLASSIC
    else if (mtu_bytes ins <=? max_index)%nat
         then table_at CanardCANDLCToLength (table_at CanardCANLengthToDLC (mtu_bytes ins))
         else table_at CanardCANDLCToLength (table_at CanardCANLengthToDLC max_index) in
  (mtu - 1)%nat.

(** The cast [(int32_t)] of a [uint32_t] value. *)
Definition i32 (x : N) : Z :=
  if x <? 2 ^ 31 then Z.of_N x else (Z.of_N x - 2 ^ 32)%Z.

Definition makeCANID (tr : CanardTransfer) (local_node_id : N)
    (presentation_layer_mtu : nat) : Z :=
  let out : Z :=
    if (tr_transfer_kind tr =? CanardTransferKindMessage)
       && (CANARD_NODE_ID_UNSET =? tr_remote_node_id tr)
       && (tr_port_id tr <=? CANARD_SUBJECT_ID_MAX)
    then
      if local_node_id <=? CANARD_NODE_ID_MAX
      then i32 (makeMessageSessionSpecifier (tr_port_id tr) local_node_id)
      else if (tr_payload_size tr <=? presentation_layer_mtu)%nat
      then
        let c := u8 (N.land (crcAdd CRC_INITIAL (tr_payload_size tr)
                                    (bytes_of (tr_payload tr)))
                            CANARD_NODE_ID_MAX) in
        let spec := N.lor (makeMessageSessionSpecifier (tr_port_id tr) c)
                          FLAG_ANONYMOUS_MESSAGE in
        i32 spec
      else (- CANARD_ERROR_INVALID_ARGUMENT)%Z
    else if ((tr_transfer_kind tr =? CanardTransferKindRequest)
             || (tr_transfer_kind tr =? CanardTransferKindResponse))
            && (tr_remote_node_id tr <=? CANARD_NODE_ID_MAX)
            && (tr_port_id tr <=? CANARD_SERVICE_ID_MAX)
    then
      if local_node_id <=? CANARD_NODE_ID_MAX
      then i32 (makeServiceSessionSpecifier
                  (tr_port_id tr)
                  (tr_transfer_kind tr =? CanardTransferKindRequest)
                  local_node_id (tr_remote_node_id tr))
      else (- CANARD_ERROR_INVALID_ARGUMENT)%Z
    else (- CANARD_ERROR_INVALID_ARGUMENT)%Z in
  if (0 <=? out)%Z
  then
    let prio := u32 (tr_priority tr) in
    if prio <=? CANARD_PRIORITY_MAX
    then
      let id := N.lor (u32 (Z.to_N out)) (u32 (N.shiftl prio OFFSET_PRIORITY)) in
      i32 id
    else (- CANARD_ERROR_INVALID_ARGUMENT)%Z
  else out.

Definition makeTailByte (start_of_transfer end_of_transfer toggle : bool)
    (transfer_id : N) : N :=
  u8 (N.lor (N.lor (N.lor (if start_of_transfer then TAIL_START_OF_TRANSFER else 0)
                          (if end_of_transfer then TAIL_END_OF_TRANSFER else 0))
                   (if toggle then TAIL_TOGGLE else 0))
            (N.land transfer_id CANARD_TRANSFER_ID_MAX)).

Definition roundFramePayloadSizeUp (x : nat) : nat :=
  let y := table_at CanardCANLengthToDLC x in
  table_at CanardCANDLCToLength y.

(** [sizeof(CanardInternalTxQueueItem)] and [sizeof(CanardInternalRxSession)]
    depend on the platform; the source documents 32 bytes as their bound. *)
Definition sizeof_CanardInternalTxQueueItem : nat := 32.
Definition sizeof_CanardInternalRxSession : nat := 32.

Definition allocateTxQueueItem (h : Heap) (id : N) (deadline_usec : N)
    (payload_size : nat) : option CanardInternalTxQueueItem * Heap :=
  match memory_allocate h (sizeof_CanardInternalTxQueueItem + payload_size) with
  | (Some b, h') =>
      (Some {| tqi_block := b; tqi_deadline_usec := deadline_usec;
               tqi_payload_size := payload_size; tqi_id := id;
               tqi_payload := replicate payload_size (junk h) |}, h')
  | (None, h') => (None, h')
  end.

(** The [while] loop of [findTxQueueSupremum]: [out] is the position of the
    current item and [rest] the items linked after it. *)
Fixpoint findTxQueueSupremum_while (rest : list CanardInternalTxQueueItem)
    (can_id : N) (out : nat) : nat :=
  match rest with
  | nxt :: rest' =>
      if tqi_id nxt <=? can_id
      then findTxQueueSupremum_while rest' can_id (S out)
      else out
  | [] => out
  end.

(** The item returned by the source is given by its position in the queue;
    [None] is [NULL]. *)
Definition findTxQueueSupremum (ins : CanardInstance) (can_id : N) : option nat :=
  match tx_queue ins with
  | [] => None
  | first :: rest =>
      if can_id <? tqi_id first then None
      else Some (findTxQueueSupremum_while rest can_id 0%nat)
  end.

(** Linking the chain [items] behind the supremum [sup], or in front of the
    queue when there is none. *)
Definition link_after (sup : option nat) (items q : list CanardInternalTxQueueItem)
  : list CanardInternalTxQueueItem :=
  match sup with
  | Some i => take (S i) q ++ items ++ drop (S i) q
  | None => items ++ q
  end.

(** [memcpy(&dst[off], src, n)] and [memset(&dst[off], c, n)]. *)
Definition memcpy_at (dst : list N) (off : nat) (src : list N) (n : nat) : list N :=
  list_inserts off (take n src) dst.

Definition memset_at (dst : list N) (off : nat) (c : N) (n : nat) : list N :=
  list_inserts off (replicate n c) dst.

Definition set_tqi_payload (t : CanardInternalTxQueueItem) (p : list N)
  : CanardInternalTxQueueItem :=
  {| tqi_block := tqi_block t; tqi_deadline_usec := tqi_deadline_usec t;
     tqi_payload_size := tqi_payload_size t; tqi_id := tqi_id t;
     tqi_payload := p |}.

Definition pushSingleFrameTransfer (h : Heap) (ins : CanardInstance)
    (deadline_usec can_id transfer_id : N) (payload_size : nat)
    (payload : option Buf) : Z * Heap * CanardInstance :=
  let frame_payload_size := roundFramePayloadSizeUp (payload_size + 1) in
  let padding_size := (frame_payload_size - payload_size - 1)%nat in
  match allocateTxQueueItem h can_id deadline_usec frame_payload_size with
  | (Some tqi, h') =>
      let p0 := tqi_payload tqi in
      let p1 := if (0 <? payload_size)%nat
                then memcpy_at p0 0 (bytes_of payload) payload_size else p0 in
      let p2 := memset_at p1 payload_size PADDING_BYTE padding_size in
      let p3 := <[(frame_payload_size - 1)%nat := makeTailByte true true true transfer_id]> p2 in
      let tqi' := set_tqi_payload tqi p3 in
      let sup := findTxQueueSupremum ins can_id in
      (1%Z, h', set_tx_queue ins (link_after sup [tqi'] (tx_queue ins)))
  | (None, h') => ((- CANARD_ERROR_OUT_OF_MEMORY)%Z, h', ins)
  end.

(** The padding loop of the last frame:
    [while ((frame_offset + CRC_SIZE_BYTES) < frame_payload_size)].  Every
    pass advances [frame_offset], so [frame_payload_size] passes are
    enough. *)
Fixpoint padding_while (passes : nat) (pl : list N) (frame_offset : nat)
    (crc : N) (frame_payload_size : nat) : list N * nat * N :=
  match passes with
  | S k =>
      if (frame_offset + CRC_SIZE_BYTES <? frame_payload_size)%nat
      then padding_while k (<[frame_offset := PADDING_BYTE]> pl) (S frame_offset)
                         (crcAddByte crc PADDING_BYTE) frame_payload_size
      else (pl, frame_offset, crc)
  | O => (pl, frame_offset, crc)
  end.

(** One pass of the frame loop of [pushMultiFrameTransfer] after the queue
    item [tail] was allocated: copy, pad, CRC, tail byte.  Returns the filled
    item and the new [offset], [crc] and [payload_ptr]. *)
Definition pushMultiFrameTransfer_fill (tail : CanardInternalTxQueueItem)
    (frame_payload_size_with_tail offset : nat) (crc : N)
    (start_of_transfer toggle : bool) (payload_ptr : list N)
    (transfer_id : N) (payload_size : nat)
  : CanardInternalTxQueueItem * nat * N * list N :=
  let payload_size_with_crc := (payload_size + CRC_SIZE_BYTES)%nat in
  let frame_payload_size := (frame_payload_size_with_tail - 1)%nat in
  let frame_offset := 0%nat in
  let '(pl, frame_offset, offset, payload_ptr) :=
    if (offset <? payload_size)%nat
    then
      let move_size := (payload_size - offset)%nat in
      let move_size := if (frame_payload_size <? move_size)%nat
                       then frame_payload_size else move_size in
      (memcpy_at (tqi_payload tail) 0 payload_ptr move_size,
       (frame_offset + move_size)%nat, (offset + move_size)%nat,
       drop move_size payload_ptr)
    else (tqi_payload tail, frame_offset, offset, payload_ptr) in
  let '(pl, frame_offset, offset, crc) :=
    if (payload_size <=? offset)%nat
    then
      let '(pl, frame_offset, crc) :=
        padding_while frame_payload_size pl frame_offset crc frame_payload_size in
      let '(pl, frame_offset, offset) :=
        if (frame_offset <? frame_payload_size)%nat && (offset =? payload_size)%nat
        then (<[frame_offset := u8 (N.shiftr crc BITS_PER_BYTE)]> pl,
              S frame_offset, S offset)
        else (pl, frame_offset, offset) in
      let '(pl, frame_offset, offset) :=
        if (frame_offset <? frame_payload_size)%nat && (payload_size <? offset)%nat
        then (<[frame_offset := u8 (N.land crc BYTE_MAX)]> pl,
              S frame_offset, S offset)
        else (pl, frame_offset, offset) in
      (pl, frame_offset, offset, crc)
    else (pl, frame_offset, offset, crc) in
  let pl := <[frame_offset :=
                makeTailByte start_of_transfer
                             (payload_size_with_crc <=? offset)%nat
                             toggle transfer_id]> pl in
  (set_tqi_payload tail pl, offset, crc, payload_ptr).

(** The result of the frame loop: the frame count [out], the chain from
    [head] and whether [tail] is [NULL] at the exit. *)
Record FrameLoopExit := {
  fle_out : Z;
  fle_heap : Heap;
  fle_chain : list CanardInternalTxQueueItem;
  fle_tail_is_null : bool
}.

(** The loop [while (offset < payload_size_with_crc)].  [chain] is the list
    from [head] to [tail].  The loop is given a number of passes; [None]
    says they did not suffice. *)
Fixpoint pushMultiFrameTransfer_while (passes : nat) (h : Heap)
    (presentation_layer_mtu : nat) (deadline_usec can_id transfer_id : N)
    (payload_size : nat)
    (out : Z) (chain : list CanardInternalTxQueueItem) (tail_is_null : bool)
    (offset : nat) (crc : N) (start_of_transfer toggle : bool)
    (payload_ptr : list N) : option FrameLoopExit :=
  let payload_size_with_crc := (payload_size + CRC_SIZE_BYTES)%nat in
  if (offset <? payload_size_with_crc)%nat
  then
    match passes with
    | O => None
    | S k =>
        let out := (out + 1)%Z in
        let frame_payload_size_with_tail :=
          if (payload_size_with_crc - offset <? presentation_layer_mtu)%nat
          then roundFramePayloadSizeUp ((payload_size_with_crc - offset) + 1)
          else (presentation_layer_mtu + 1)%nat in
        match allocateTxQueueItem h can_id deadline_usec frame_payload_size_with_tail with
        | (None, h') =>
            Some {| fle_out := out; fle_heap := h'; fle_chain := chain;
                    fle_tail_is_null := true |}
        | (Some tqi, h') =>
            let '(tqi', offset', crc', payload_ptr') :=
              pushMultiFrameTransfer_fill tqi frame_payload_size_with_tail offset crc
                                          start_of_transfer toggle payload_ptr
                                          transfer_id payload_size in
            pushMultiFrameTransfer_while k h' presentation_layer_mtu deadline_usec
                                         can_id transfer_id payload_size
                                         out (chain ++ [tqi']) false
                                         offset' crc' false (negb toggle) payload_ptr'
        end
    end
  else Some {| fle_out := out; fle_heap := h; fle_chain := chain;
               fle_tail_is_null := tail_is_null |}.

(** The clean-up loop [while (head != NULL)] of the failure path. *)
Fixpoint free_chain (h : Heap) (head : list CanardInternalTxQueueItem) : Heap :=
  match head with
  | item :: next => free_chain (memory_free h (Some (tqi_block item))) next
  | [] => h
  end.

Definition pushMultiFrameTransfer (h : Heap) (ins : CanardInstance)
    (presentation_layer_mtu : nat) (deadline_usec can_id transfer_id : N)
    (payload_size : nat) (payload : option Buf)
  : option (Z * Heap * CanardInstance) :=
  let payload_size_with_crc := (payload_size + CRC_SIZE_BYTES)%nat in
  let crc := crcAdd CRC_INITIAL payload_size (bytes_of payload) in
  match pushMultiFrameTransfer_while payload_size_with_crc h presentation_layer_mtu
          deadline_usec can_id transfer_id payload_size
          0%Z [] true 0%nat crc true true (bytes_of payload) with
  | None => None
  | Some e =>
      if negb (fle_tail_is_null e)
      then
        let sup := findTxQueueSupremum ins can_id in
        Some (fle_out e, fle_heap e,
              set_tx_queue ins (link_after sup (fle_chain e) (tx_queue ins)))
      else
        Some ((- CANARD_ERROR_OUT_OF_MEMORY)%Z,
              free_chain (fle_heap e) (fle_chain e), ins)
  end.

(** ** Public API: transmission *)

Definition canardInit : CanardInstance :=
  {| user_reference := None; mtu_bytes := CANARD_MTU_CAN_FD;
     node_id := CANARD_NODE_ID_UNSET;
     rx_subscriptions := replicate (N.to_nat CANARD_NUM_TRANSFER_KINDS) [];
     tx_queue := [] |}.

(** [None] is returned only when the frame loop did not end within its
    passes; [canardTxPush_returns] shows that this never happens. *)
Definition canardTxPush (h : Heap) (ins : option CanardInstance)
    (transfer : option CanardTransfer)
  : option (Z * Heap * option CanardInstance) :=
  match ins, transfer with
  | Some i, Some t =>
      if bool_decide (is_Some (tr_payload t)) || (0 =? tr_payload_size t)%nat
      then
        let pl_mtu := getPresentationLayerMTU i in
        let maybe_can_id := makeCANID t (node_id i) pl_mtu in
        if (0 <=? maybe_can_id)%Z
        then
          if (tr_payload_size t <=? pl_mtu)%nat
          then
            let '(out, h', i') :=
              pushSingleFrameTransfer h i (tr_timestamp_usec t)
                                      (u32 (Z.to_N maybe_can_id))
                                      (tr_transfer_id t)
                                      (tr_payload_size t) (tr_payload t) in
            Some (out, h', Some i')
          else
            match pushMultiFrameTransfer h i pl_mtu (tr_timestamp_usec t)
                                         (u32 (Z.to_N maybe_can_id))
                                         (tr_transfer_id t)
                                         (tr_payload_size t) (tr_payload t) with
            | Some (out, h', i') => Some (out, h', Some i')
            | None => None
            end
        else Some (maybe_can_id, h, ins)
      else Some ((- CANARD_ERROR_INVALID_ARGUMENT)%Z, h, ins)
  | _, _ => Some ((- CANARD_ERROR_INVALID_ARGUMENT)%Z, h, ins)
  end.

(** [out_frame] is the frame structure of the caller, returned as the call
    leaves it.  The payload pointer it receives points into the queue item. *)
Definition canardTxPeek (ins : option CanardInstance) (out_frame : option CanardFrame)
  : Z * option CanardFrame :=
  match ins, out_frame with
  | Some i, Some f =>
      match tx_queue i with
      | tqi :: _ =>
          (1%Z, Some {| fr_timestamp_usec := tqi_deadline_usec tqi;
                        fr_extended_can_id := tqi_id tqi;
                        fr_payload_size := tqi_payload_size tqi;
                        fr_payload := Some {| buf_base := tqi_block tqi;
                                              buf_bytes := tqi_payload tqi |} |})
      | [] => (0%Z, out_frame)
      end
  | _, _ => ((- CANARD_ERROR_INVALID_ARGUMENT)%Z, out_frame)
  end.

Definition canardTxPop (h : Heap) (ins : option CanardInstance)
  : Heap * option CanardInstance :=
  match ins with
  | Some i =>
      match tx_queue i with
      | first :: next =>
          (memory_free h (Some (tqi_block first)), Some (set_tx_queue i next))
      | [] => (h, ins)
      end
  | None => (h, ins)
  end.

(** ** Reception *)

Definition SESSIONS_PER_SUBSCRIPTION : nat := N.to_nat (CANARD_NODE_ID_MAX + 1).

(** [FrameModel], the high-level transport frame model. *)
Record FrameModel := {
  fm_timestamp_usec : N;
  fm_priority : N;
  fm_transfer_kind : N;
  fm_port_id : N;
  fm_source_node_id : N;
  fm_destination_node_id : N;
  fm_transfer_id : N;
  fm_start_of_transfer : bool;
  fm_end_of_transfer : bool;
  fm_toggle : bool;
  fm_payload_size : nat;
  fm_payload : option Buf
}.

(** [FrameModel model = {0};] *)
Definition FrameModel_zero : FrameModel :=
  {| fm_timestamp_usec := 0; fm_priority := 0; fm_transfer_kind := 0;
     fm_port_id := 0; fm_source_node_id := 0; fm_destination_node_id := 0;
     fm_transfer_id := 0; fm_start_of_transfer := false;
     fm_end_of_transfer := false; fm_toggle := false;
     fm_payload_size := 0; fm_payload := None |}.

(** [tryParseFrame] returns the validity flag and [out_result] as the call
    leaves it ([out_result] is untouched for an empty frame). *)
Definition tryParseFrame (frame : CanardFrame) (out_result : FrameModel)
  : bool * FrameModel :=
  if (0 <? fr_payload_size frame)%nat
  then
    let can_id := fr_extended_can_id frame in
    let priority := N.land (N.shiftr can_id OFFSET_PRIORITY) CANARD_PRIORITY_MAX in
    let source_node_id := u8 (N.land can_id CANARD_NODE_ID_MAX) in
    let message := N.land can_id FLAG_SERVICE_NOT_MESSAGE =? 0 in
    let valid :=
      if message
      then (N.land can_id FLAG_RESERVED_23 =? 0) && (N.land can_id FLAG_RESERVED_07 =? 0)
      else (N.land can_id FLAG_RESERVED_23 =? 0) in
    let transfer_kind :=
      if message then CanardTransferKindMessage
      else if negb (N.land can_id FLAG_REQUEST_NOT_RESPONSE =? 0)
           then CanardTransferKindRequest else CanardTransferKindResponse in
    let port_id :=
      if message
      then u16 (N.land (N.shiftr can_id OFFSET_SUBJECT_ID) CANARD_SUBJECT_ID_MAX)
      else u16 (N.land (N.shiftr can_id OFFSET_SERVICE_ID) CANARD_SERVICE_ID_MAX) in
    let source_node_id :=
      if message && negb (N.land can_id FLAG_ANONYMOUS_MESSAGE =? 0)
      then CANARD_NODE_ID_UNSET else source_node_id in
    let destination_node_id :=
      if message then CANARD_NODE_ID_UNSET
      else u8 (N.land (N.shiftr can_id OFFSET_DST_NODE_ID) CANARD_NODE_ID_MAX) in
    let payload_size := (fr_payload_size frame - 1)%nat in
    let payload := fr_payload frame in
    let tail := nth payload_size (bytes_of payload) 0 in
    let transfer_id := N.land tail CANARD_TRANSFER_ID_MAX in
    let start_of_transfer := negb (N.land tail TAIL_START_OF_TRANSFER =? 0) in
    let end_of_transfer := negb (N.land tail TAIL_END_OF_TRANSFER =? 0) in
    let toggle := negb (N.land tail TAIL_TOGGLE =? 0) in
    let valid := valid && (if start_of_transfer then toggle else true) in
    let valid := valid && (if CANARD_NODE_ID_UNSET =? source_node_id
                           then start_of_transfer && end_of_transfer
                           else true) in
    (valid,
     {| fm_timestamp_usec := fr_timestamp_usec frame;
        fm_priority := priority;
        fm_transfer_kind := transfer_kind;
        fm_port_id := port_id;
        fm_source_node_id := source_node_id;
        fm_destination_node_id := destination_node_id;
        fm_transfer_id := transfer_id;
        fm_start_of_transfer := start_of_transfer;
        fm_end_of_transfer := end_of_transfer;
        fm_toggle := toggle;
        fm_payload_size := payload_size;
        fm_payload := payload |})
  else (false, out_result).

(** Every field of [out_transfer] is assigned, so the old value is not an
    argument. *)
Definition initRxTransferFromFrame (frame : FrameModel) : CanardTransfer :=
  {| tr_timestamp_usec := fm_timestamp_usec frame;
     tr_priority := fm_priority frame;
     tr_transfer_kind := fm_transfer_kind frame;
     tr_port_id := fm_port_id frame;
     tr_remote_node_id := fm_source_node_id frame;
     tr_transfer_id := fm_transfer_id frame;
     tr_payload_size := fm_payload_size frame;
     tr_payload := fm_payload frame |}.

(** [updateRxSession] as it is in the source: it reads nothing, writes
    nothing and returns 0.  The session and [out_transfer] come back as they
    went in. *)
Definition updateRxSession (ins : CanardInstance) (rxs : CanardInternalRxSession)
    (frame : FrameModel) (iface_index : N) (transfer_id_timeout_usec : N)
    (payload_size_bytes_max : nat) (out_transfer : CanardTransfer)
  : Z * CanardInternalRxSession * CanardTransfer :=
  let out := 0%Z in
  (out, rxs, out_transfer).

(** The subscription search of [acceptFrame] (the loop of
    [canardRxUnsubscribe] is the same); the result is the position of the
    subscription in the list of its kind. *)
Fixpoint acceptFrame_search (sub : list CanardRxSubscription) (port_id : N)
    (pos : nat) : option nat :=
  match sub with
  | s :: next =>
      if negb (sub_port_id s =? port_id)
      then acceptFrame_search next port_id (S pos)
      else Some pos
  | [] => None
  end.

Definition set_sub_sessions (s : CanardRxSubscription)
    (ss : list (option CanardInternalRxSession)) : CanardRxSubscription :=
  {| sub_port_id := sub_port_id s;
     sub_payload_size_bytes_max := sub_payload_size_bytes_max s;
     sub_transfer_id_timeout_usec := sub_transfer_id_timeout_usec s;
     sub_sessions := ss |}.

(** The subscriptions of kind [k]: [ins->_rx_subscriptions[k]]. *)
Definition subscriptions_of (ins : CanardInstance) (k : N) : list CanardRxSubscription :=
  default [] (rx_subscriptions ins !! N.to_nat k).

(** Storing back a subscription changed in place. *)
Definition store_subscription (ins : CanardInstance) (k : N) (pos : nat)
    (s : CanardRxSubscription) : CanardInstance :=
  set_rx_subscriptions ins
    (<[N.to_nat k := <[pos := s]> (subscriptions_of ins k)]> (rx_subscriptions ins)).

Definition acceptFrame (h : Heap) (ins : CanardInstance) (frame : FrameModel)
    (iface_index : N) (out_transfer : CanardTransfer)
  : Z * Heap * CanardInstance * CanardTransfer :=
  let subs := subscriptions_of ins (fm_transfer_kind frame) in
  match acceptFrame_search subs (fm_port_id frame) 0 with
  | Some pos =>
      match subs !! pos with
      | Some sub =>
          if fm_source_node_id frame <=? CANARD_NODE_ID_MAX
          then
            let src := N.to_nat (fm_source_node_id frame) in
            let slot := mjoin (sub_sessions sub !! src) in
            let '(out, h, sub) :=
              if bool_decide (slot = None) && fm_start_of_transfer frame
              then
                match memory_allocate h (sizeof_CanardInternalRxSession
                                         + sub_payload_size_bytes_max sub) with
                | (Some b, h') =>
                    let rxs :=
                      {| rxs_block := b;
                         rxs_transfer_timestamp_usec := fm_timestamp_usec frame;
                         rxs_payload_size := 0;
                         rxs_payload := None;
                         rxs_calculated_crc := CRC_INITIAL;
                         rxs_toggle_and_transfer_id := TAIL_TOGGLE;
                         rxs_iface_index := 0 |} in
                    (0%Z, h', set_sub_sessions sub (<[src := Some rxs]> (sub_sessions sub)))
                | (None, h') =>
                    ((- CANARD_ERROR_OUT_OF_MEMORY)%Z, h',
                     set_sub_sessions sub (<[src := None]> (sub_sessions sub)))
                end
              else (0%Z, h, sub) in
            match mjoin (sub_sessions sub !! src) with
            | Some rxs =>
                let '(out, rxs', out_transfer') :=
                  updateRxSession ins rxs frame iface_index
                                  (sub_transfer_id_timeout_usec sub)
                                  (sub_payload_size_bytes_max sub) out_transfer in
                let sub := set_sub_sessions sub (<[src := Some rxs']> (sub_sessions sub)) in
                (out, h, store_subscription ins (fm_transfer_kind frame) pos sub,
                 out_transfer')
            | None =>
                (out, h, store_subscription ins (fm_transfer_kind frame) pos sub,
                 out_transfer)
            end
          else
            (1%Z, h, ins, initRxTransferFromFrame frame)
      | None => (0%Z, h, ins, out_transfer)
      end
  | None => (0%Z, h, ins, out_transfer)
  end.

(** ** Public API: reception *)

Definition canardRxAccept (h : Heap) (ins : option CanardInstance)
    (frame : option CanardFrame) (iface_index : N)
    (out_transfer : option CanardTransfer)
  : Z * Heap * option CanardInstance * option CanardTransfer :=
  match ins, out_transfer, frame with
  | Some i, Some t, Some f =>
      if (fr_extended_can_id f <=? CAN_EXT_ID_MASK)
         && (bool_decide (is_Some (fr_payload f)) || (0 =? fr_payload_size f)%nat)
      then
        let '(valid, model) := tryParseFrame f FrameModel_zero in
        if valid
        then
          if (CANARD_NODE_ID_UNSET =? fm_destination_node_id model)
             || (node_id i =? fm_destination_node_id model)
          then
            let '(out, h', i', t') := acceptFrame h i model iface_index t in
            (out, h', Some i', Some t')
          else (0%Z, h, ins, out_transfer)
        else (0%Z, h, ins, out_transfer)
      else ((- CANARD_ERROR_INVALID_ARGUMENT)%Z, h, ins, out_transfer)
  | _, _, _ => ((- CANARD_ERROR_INVALID_ARGUMENT)%Z, h, ins, out_transfer)
  end.

(** The session clean-up loop of [canardRxUnsubscribe]: two calls of
    [memory_free] per slot. *)
Fixpoint canardRxUnsubscribe_for (h : Heap)
    (sessions : list (option CanardInternalRxSession)) : Heap :=
  match sessions with
  | s :: rest =>
      let h := memory_free h (s ≫= rxs_payload) in
      let h := memory_free h (rxs_block <$> s) in
      canardRxUnsubscribe_for h rest
  | [] => h
  end.

Definition canardRxUnsubscribe (h : Heap) (ins : option CanardInstance)
    (transfer_kind port_id : N) : Z * Heap * option CanardInstance :=
  match ins with
  | Some i =>
      if transfer_kind <? CANARD_NUM_TRANSFER_KINDS
      then
        let subs := subscriptions_of i transfer_kind in
        match acceptFrame_search subs port_id 0 with
        | Some pos =>
            let sessions := default [] (sub_sessions <$> subs !! pos) in
            (1%Z, canardRxUnsubscribe_for h sessions,
             Some (set_rx_subscriptions i
                     (<[N.to_nat transfer_kind := delete pos subs]> (rx_subscriptions i))))
        | None => (0%Z, h, ins)
        end
      else ((- CANARD_ERROR_INVALID_ARGUMENT)%Z, h, ins)
  | None => ((- CANARD_ERROR_INVALID_ARGUMENT)%Z, h, ins)
  end.

(** [out_subscription] is storage of the caller; all its fields are
    assigned, so only its presence is an argument. *)
Definition canardRxSubscribe (h : Heap) (ins : option CanardInstance)
    (transfer_kind port_id : N) (payload_size_bytes_max : nat)
    (transfer_id_timeout_usec : N) (out_subscription : bool)
  : Z * Heap * option CanardInstance :=
  match ins with
  | Some _ =>
      if out_subscription && (transfer_kind <? CANARD_NUM_TRANSFER_KINDS)
      then
        match canardRxUnsubscribe h ins transfer_kind port_id with
        | (out, h', Some i') =>
            if (0 <=? out)%Z
            then
              let s := {| sub_port_id := port_id;
                          sub_payload_size_bytes_max := payload_size_bytes_max;
                          sub_transfer_id_timeout_usec := transfer_id_timeout_usec;
                          sub_sessions := replicate SESSIONS_PER_SUBSCRIPTION None |} in
              ((if (0 <? out)%Z then 0 else 1)%Z, h',
               Some (set_rx_subscriptions i'
                       (<[N.to_nat transfer_kind := s :: subscriptions_of i' transfer_kind]>
                          (rx_subscriptions i'))))
            else (out, h', Some i')
        | (out, h', None) => (out, h', None)
        end
      else ((- CANARD_ERROR_INVALID_ARGUMENT)%Z, h, ins)
  | None => ((- CANARD_ERROR_INVALID_ARGUMENT)%Z, h, ins)
  end.

(** ** Vocabulary of the properties *)

(** The two CRC bytes as [pushMultiFrameTransfer] writes them: the most
    significant byte first. *)
Definition crc_be_bytes (crc : N) : list N :=
  [u8 (N.shiftr crc BITS_PER_BYTE); u8 (N.land crc BYTE_MAX)].

(** Folding the CRC over a sequence of fragments, one [crcAdd] call per
    fragment. *)
Definition crcAdd_fragments (crc : N) (fragments : list (list N)) : N :=
  fold_left (fun c f => crcAdd c (length f) f) fragments crc.

(** *** Reading a CAN frame, in the words of the wire format

    Bits 26..28 carry the priority, bit 25 tells services from messages,
    bit 24 is the anonymous flag of a message and the request flag of a
    service, bits 23 and 7 are reserved, bits 8..20 carry the subject-ID,
    bits 14..22 the service-ID, bits 7..13 the destination and bits 0..6 the
    source.  The tail byte is the last byte of the frame. *)
Definition id_priority (can_id : N) : N := (can_id / 2 ^ 26) mod 8.
Definition id_subject (can_id : N) : N := (can_id / 2 ^ 8) mod 8192.
Definition id_service (can_id : N) : N := (can_id / 2 ^ 14) mod 512.
Definition id_source (can_id : N) : N := can_id mod 128.

Definition id_is_anonymous (can_id : N) : bool :=
  negb (N.testbit can_id 25) && N.testbit can_id 24.

Definition id_kind (can_id : N) : N :=
  if N.testbit can_id 25
  then if N.testbit can_id 24 then CanardTransferKindRequest
       else CanardTransferKindResponse
  else CanardTransferKindMessage.

Definition id_port (can_id : N) : N :=
  if N.testbit can_id 25 then id_service can_id else id_subject can_id.

Definition id_destination (can_id : N) : N :=
  if N.testbit can_id 25 then (can_id / 2 ^ 7) mod 128 else CANARD_NODE_ID_UNSET.

Definition frame_tail (f : CanardFrame) : N :=
  nth (fr_payload_size f - 1) (bytes_of (fr_payload f)) 0.

Definition tail_start_of_transfer (tail : N) : bool := N.testbit tail 7.
Definition tail_end_of_transfer (tail : N) : bool := N.testbit tail 6.
Definition tail_toggle (tail : N) : bool := N.testbit tail 5.
Definition tail_transfer_id (tail : N) : N := tail mod 32.

(** A frame that is not a UAVCAN/CAN v1 frame: empty; reserved bit 23 set;
    reserved bit 7 set on a message; start-of-transfer with toggle 0; or an
    anonymous source on a frame that is not a whole transfer. *)
Definition unparseable (f : CanardFrame) : bool :=
  let can_id := fr_extended_can_id f in
  let tail := frame_tail f in
  (fr_payload_size f =? 0)%nat
  || N.testbit can_id 23
  || (negb (N.testbit can_id 25) && N.testbit can_id 7)
  || (tail_start_of_transfer tail && negb (tail_toggle tail))
  || (id_is_anonymous can_id
      && negb (tail_start_of_transfer tail && tail_end_of_transfer tail)).

(** The destination is neither UNSET nor the local node. *)
Definition misaddressed (i : CanardInstance) (f : CanardFrame) : bool :=
  let dst := id_destination (fr_extended_can_id f) in
  negb (dst =? CANARD_NODE_ID_UNSET) && negb (dst =? node_id i).

(** No subscription of the frame's kind has the frame's port-ID. *)
Definition unsubscribed (i : CanardInstance) (f : CanardFrame) : bool :=
  let can_id := fr_extended_can_id f in
  forallb (fun s => negb (sub_port_id s =? id_port can_id))
          (subscriptions_of i (id_kind can_id)).

(** The arguments that [canardRxAccept] takes as a frame to look at: a
    29-bit identifier and a payload pointer that is set unless the frame is
    empty. *)
Definition rx_arguments_valid (f : CanardFrame) : Prop :=
  fr_extended_can_id f <= CAN_EXT_ID_MASK /\
  (is_Some (fr_payload f) \/ fr_payload_size f = 0%nat).

(** What a frame says when read as a whole anonymous transfer. *)
Definition anonymous_transfer_of (f : CanardFrame) : CanardTransfer :=
  let can_id := fr_extended_can_id f in
  {| tr_timestamp_usec := fr_timestamp_usec f;
     tr_priority := id_priority can_id;
     tr_transfer_kind := CanardTransferKindMessage;
     tr_port_id := id_subject can_id;
     tr_remote_node_id := CANARD_NODE_ID_UNSET;
     tr_transfer_id := tail_transfer_id (frame_tail f);
     tr_payload_size := (fr_payload_size f - 1)%nat;
     tr_payload := fr_payload f |}.

(** *** A sender and a receiver for the single-frame message of the
    specification's first scenario *)

Definition heap_of (script : list bool) : Heap :=
  {| answers := script; next_block := 0; live := [];
     n_allocated := 0; n_refused := 0; n_freed := 0; junk := 0xAA |}.

Definition instance_of (mtu : nat) (node : N) : CanardInstance :=
  {| user_reference := None; mtu_bytes := mtu; node_id := node;
     rx_subscriptions := rx_subscriptions canardInit; tx_queue := [] |}.

Definition scenario1_transfer : CanardTransfer :=
  {| tr_timestamp_usec := 1000; tr_priority := 4;
     tr_transfer_kind := CanardTransferKindMessage; tr_port_id := 7168;
     tr_remote_node_id := CANARD_NODE_ID_UNSET; tr_transfer_id := 1;
     tr_payload_size := 3;
     tr_payload := Some {| buf_base := 4096; buf_bytes := [0x10; 0x20; 0x30] |} |}.

Definition scenario1_frame : CanardFrame :=
  {| fr_timestamp_usec := 1000; fr_extended_can_id := 0x101C002A;
     fr_payload_size := 4;
     fr_payload := Some {| buf_base := 0; buf_bytes := [0x10; 0x20; 0x30; 0xE1] |} |}.

Definition blank_transfer : CanardTransfer :=
  {| tr_timestamp_usec := 0; tr_priority := 0; tr_transfer_kind := 0;
     tr_port_id := 0; tr_remote_node_id := 0; tr_transfer_id := 0;
     tr_payload_size := 0; tr_payload := None |}.

Definition blank_frame : CanardFrame :=
  {| fr_timestamp_usec := 0; fr_extended_can_id := 0;
     fr_payload_size := 0; fr_payload := None |}.

(** A receiver with node-ID [node] subscribed to messages on [port]. *)
Definition subscriber (node port : N) (payload_size_bytes_max : nat)
  : CanardInstance :=
  default (instance_of 64 node)
    (canardRxSubscribe (heap_of []) (Some (instance_of 64 node))
                       CanardTransferKindMessage port payload_size_bytes_max
                       2000000 true).2.

(** *** Concrete inputs used to exercise the theorems *)

Definition sample_payload : list N := [16; 32; 48].

Definition sample_fragments : list (list N) :=
  let be := crc_be_bytes (crcAdd CRC_INITIAL (length sample_payload) sample_payload) in
  [[16]; [32; 48] ++ take 1 be; drop 1 be].

(** Start-of-transfer with the toggle bit clear: not a v1 frame. *)
Definition sample_bad_toggle_frame : CanardFrame :=
  {| fr_timestamp_usec := 7; fr_extended_can_id := 0x101C002A;
     fr_payload_size := 4;
     fr_payload := Some {| buf_base := 0; buf_bytes := [0x10; 0x20; 0x30; 0xC1] |} |}.

(** An anonymous message on subject 100 with seven body bytes. *)
Definition sample_anonymous_frame : CanardFrame :=
  {| fr_timestamp_usec := 7; fr_extended_can_id := 0x1100642A;
     fr_payload_size := 8;
     fr_payload := Some {| buf_base := 512;
                           buf_bytes := [1; 2; 3; 4; 5; 6; 7; 0xE0] |} |}.

Definition sample_item (block : nat) (can_id : N) : CanardInternalTxQueueItem :=
  {| tqi_block := block; tqi_deadline_usec := 1000; tqi_payload_size := 2;
     tqi_id := can_id; tqi_payload := [0x55; 0xE0] |}.

Definition sample_sender : CanardInstance :=
  set_tx_queue (instance_of 8 42) [sample_item 0 0x100; sample_item 1 0x200].

Definition sample_heap : Heap :=
  {| answers := [true]; next_block := 2; live := [1; 0]%nat;
     n_allocated := 2; n_refused := 0; n_freed := 0; junk := 0xAA |}.

(** What removing the head [first] of the queue of [i] leaves behind: the
    heap [h'] after one [memory_free] of the block of [first], and the
    instance [i'] with the rest of the queue. *)
Definition popped (h : Heap) (i : CanardInstance)
    (first : CanardInternalTxQueueItem) (rest : list CanardInternalTxQueueItem)
    (h' : Heap) (i' : CanardInstance) : Prop :=
  h' = memory_free h (Some (tqi_block first)) /\
  tx_queue i' = rest /\
  user_reference i' = user_reference i /\
  mtu_bytes i' = mtu_bytes i /\
  node_id i' = node_id i /\
  rx_subscriptions i' = rx_subscriptions i /\
  n_freed h' = S (n_freed h) /\
  n_allocated h' = n_allocated h /\
  answers h' = answers h /\
  (tqi_block first ∉ live h') /\
  (forall b, b <> tqi_block first -> (b ∈ live h' <-> b ∈ live h)).

(** *** Frames of the transmission queue *)

(** The bytes of a queued frame before its tail byte, and the tail byte. *)
Definition frame_body (it : CanardInternalTxQueueItem) : list N :=
  take (length (tqi_payload it) - 1) (tqi_payload it).

Definition frame_tail_byte (it : CanardInternalTxQueueItem) : N :=
  nth (length (tqi_payload it) - 1) (tqi_payload it) 0.

(** The CRC after [k] padding bytes were folded into it. *)
Definition crc_pad (k : nat) (crc : N) : N :=
  crcAdd crc k (replicate k PADDING_BYTE).

(** What one pass of the frame loop puts into a frame with room for [fps]
    bytes before the tail byte, when the pass starts at [offset] with CRC
    [crc] and the rest [ptr] of the payload: the body of the frame, the new
    offset and the new CRC.
    - a frame inside the payload takes [fps] payload bytes;
    - a frame that holds only the low CRC byte;
    - a frame that takes the last [m] payload bytes, and then nothing, the
      high CRC byte, or padding and both CRC bytes. *)
Definition fill_outcome (offset fps payload_size : nat) (crc : N) (ptr : list N)
  : list N * nat * N :=
  if (fps <? payload_size - offset)%nat
  then (take fps ptr, (offset + fps)%nat, crc)
  else if (offset =? S payload_size)%nat
  then ([u8 (N.land crc BYTE_MAX)], S (S payload_size), crc)
  else
    let m := (payload_size - offset)%nat in
    match (fps - m)%nat with
    | O => (take m ptr, payload_size, crc)
    | S O => (take m ptr ++ [u8 (N.shiftr crc BITS_PER_BYTE)], S payload_size, crc)
    | S (S k) =>
        let c := crc_pad k crc in
        (take m ptr ++ replicate k PADDING_BYTE ++ crc_be_bytes c,
         S (S payload_size), c)
    end.

(** The bytes that a chain of frames carries before the tail bytes. *)
Definition chain_stream (chain : list CanardInternalTxQueueItem) : list N :=
  concat (frame_body <$> chain).

(** Every frame of [chain] is a body followed by the tail byte that
    [makeTailByte] gives for its place: start-of-transfer on frame 0, the
    toggle set on the even frames, and end-of-transfer on the last frame
    when the chain is [final], and on no other. *)
Definition chain_tail_bytes (tid : N) (final : bool)
    (chain : list CanardInternalTxQueueItem) : Prop :=
  forall j it,
    chain !! j = Some it ->
    exists body,
      tqi_payload it
      = body ++ [makeTailByte (j =? 0)%nat
                              (final && (S j =? length chain)%nat)
                              (Nat.even j) tid] /\
      length (tqi_payload it) = tqi_payload_size it.

(** The same, read off the bits of the tail bytes: frame [j] of a transfer
    has toggle [1 XOR (j & 1)], start-of-transfer only on frame 0,
    end-of-transfer only on the last frame, and the transfer-ID modulo
    32. *)
Definition chain_tails (tid : N) (chain : list CanardInternalTxQueueItem) : Prop :=
  forall j it,
    chain !! j = Some it ->
    tqi_payload it = frame_body it ++ [frame_tail_byte it] /\
    length (tqi_payload it) = tqi_payload_size it /\
    N.b2n (tail_toggle (frame_tail_byte it)) = N.lxor 1 (N.land (N.of_nat j) 1) /\
    tail_start_of_transfer (frame_tail_byte it) = (j =? 0)%nat /\
    tail_end_of_transfer (frame_tail_byte it) = (S j =? length chain)%nat /\
    tail_transfer_id (frame_tail_byte it) = tid mod 32.

(** Where the frame loop of [pushMultiFrameTransfer] stands after it has
    emitted [chain] and reached [offset]: inside the payload, between the
    two CRC bytes, or done.  [bytes] is the buffer of the caller, whose
    first [ps] bytes are the payload, and [crc0] the CRC of the payload. *)
Definition stream_state (ps : nat) (bytes : list N) (crc0 : N)
    (chain : list CanardInternalTxQueueItem) (offset : nat) (crc : N)
    (payload_ptr : list N) : Prop :=
  ((offset <= ps)%nat /\ chain_stream chain = take offset bytes /\
   payload_ptr = drop offset bytes /\ crc = crc0) \/
  (offset = S ps /\
   chain_stream chain = take ps bytes ++ [u8 (N.shiftr crc0 BITS_PER_BYTE)] /\
   crc = crc0) \/
  (offset = S (S ps) /\
   exists k,
     chain_stream chain
     = take ps bytes ++ replicate k PADDING_BYTE ++ crc_be_bytes (crc_pad k crc0) /\
     (k = 0%nat \/
      exists it, last chain = Some it /\ (k + 2 <= length (frame_body it))%nat)).

(** The invariant of the frame loop. *)
Definition frame_loop_inv (ps : nat) (bytes : list N) (crc0 tid : N)
    (out : Z) (chain : list CanardInternalTxQueueItem) (tail_is_null : bool)
    (offset : nat) (crc : N) (start_of_transfer toggle : bool)
    (payload_ptr : list N) : Prop :=
  out = Z.of_nat (length chain) /\
  start_of_transfer = (length chain =? 0)%nat /\
  toggle = Nat.even (length chain) /\
  tail_is_null = (length chain =? 0)%nat /\
  chain_tail_bytes tid (ps + CRC_SIZE_BYTES <=? offset)%nat chain /\
  Forall (fun it => frame_body it <> []) chain /\
  stream_state ps bytes crc0 chain offset crc payload_ptr.

(** *** The allocator seen from the queue *)

(** The live blocks are older than the next block to be handed out. *)
Definition heap_wf (h : Heap) : Prop :=
  Forall (fun b => (b < next_block h)%nat) (live h).

(** Between [h] and [h'] exactly the blocks of the items [new] were
    allocated, in this order, and nothing was freed. *)
Definition allocated_chain (h h' : Heap)
    (new : list CanardInternalTxQueueItem) : Prop :=
  tqi_block <$> new = seq (next_block h) (length new) /\
  next_block h' = (next_block h + length new)%nat /\
  n_allocated h' = (n_allocated h + length new)%nat /\
  n_freed h' = n_freed h /\
  live h' = reverse (tqi_block <$> new) ++ live h /\
  junk h' = junk h.

(** *** What a push does to the queue and to the allocator *)

(** The payload pointer of [t] can be read for [tr_payload_size t] bytes. *)
Definition transfer_readable (t : CanardTransfer) : Prop :=
  (tr_payload_size t <= length (bytes_of (tr_payload t)))%nat.

(** The payload of [t]. *)
Definition transfer_payload (t : CanardTransfer) : list N :=
  take (tr_payload_size t) (bytes_of (tr_payload t)).

(** [q'] is [q] with [frames] put in as one block behind the items whose
    CAN-ID is at most [can_id], in front of an item with a greater one. *)
Definition spliced (can_id : N) (frames q q' : list CanardInternalTxQueueItem)
  : Prop :=
  exists before after,
    q = before ++ after /\
    q' = before ++ frames ++ after /\
    Forall (fun it => tqi_id it <= can_id) before /\
    match after with [] => True | x :: _ => can_id < tqi_id x end.

(** A push that an allocation refusal stopped: one refusal was counted,
    every block granted meanwhile was freed again, and the live blocks are
    the ones from before. *)
Definition push_refused (h h' : Heap) : Prop :=
  n_refused h' = S (n_refused h) /\
  (n_allocated h' - n_allocated h = n_freed h' - n_freed h)%nat /\
  (n_allocated h <= n_allocated h')%nat /\
  (n_freed h <= n_freed h')%nat /\
  (next_block h <= next_block h')%nat /\
  (heap_wf h -> live h' = live h).

(** A push that queued [frames] under [can_id]. *)
Definition push_enqueued (h : Heap) (i : CanardInstance) (can_id : N)
    (frames : list CanardInternalTxQueueItem) (h' : Heap) (i' : CanardInstance)
  : Prop :=
  frames <> [] /\
  i' = set_tx_queue i (tx_queue i') /\
  spliced can_id frames (tx_queue i) (tx_queue i') /\
  Forall (fun it => tqi_id it = can_id) frames /\
  allocated_chain h h' frames /\
  n_refused h' = n_refused h.

(** The frames of the transfer [t], sent with presentation-layer MTU [mtu]:
    the tail bytes are in order; a single-frame transfer is one frame with
    the payload and zero padding; a multi-frame transfer carries, before the
    tail bytes, the payload, then zero padding, then the CRC of payload and
    padding, high byte first; every frame carries something, and padding
    sits in the last frame together with the whole CRC. *)
Definition transfer_frames (t : CanardTransfer) (mtu : nat)
    (frames : list CanardInternalTxQueueItem) : Prop :=
  chain_tails (tr_transfer_id t) frames /\
  if (tr_payload_size t <=? mtu)%nat
  then exists it k,
         frames = [it] /\
         frame_body it = transfer_payload t ++ replicate k PADDING_BYTE
  else Forall (fun it => frame_body it <> []) frames /\
       exists k,
         let padded := transfer_payload t ++ replicate k PADDING_BYTE in
         chain_stream frames
         = padded ++ crc_be_bytes (crcAdd CRC_INITIAL (length padded) padded) /\
         (k = 0%nat \/
          exists it, last frames = Some it /\ (k + 2 <= length (frame_body it))%nat).

(** *** Arguments that [canardTxPush] rejects *)

Definition is_service_kind (kind : N) : Prop :=
  kind = CanardTransferKindRequest \/ kind = CanardTransferKindResponse.

(** The transfers that the specification lists as not sendable by a node
    with node-ID [local] and presentation-layer MTU [mtu]:
    - a message with a remote node-ID or with a subject-ID above 8191;
    - a service transfer whose remote node-ID is UNSET or otherwise above
      127, or whose service-ID is above 511;
    - an anonymous service transfer;
    - an anonymous transfer that does not fit one frame;
    - a priority above 7;
    - a transfer kind outside the enumeration. *)
Definition transfer_invalid (local : N) (mtu : nat) (t : CanardTransfer) : Prop :=
  (tr_transfer_kind t = CanardTransferKindMessage /\
   (tr_remote_node_id t <> CANARD_NODE_ID_UNSET \/
    CANARD_SUBJECT_ID_MAX < tr_port_id t)) \/
  (is_service_kind (tr_transfer_kind t) /\
   (tr_remote_node_id t = CANARD_NODE_ID_UNSET \/
    CANARD_NODE_ID_MAX < tr_remote_node_id t \/
    CANARD_SERVICE_ID_MAX < tr_port_id t)) \/
  (local = CANARD_NODE_ID_UNSET /\ is_service_kind (tr_transfer_kind t)) \/
  (local = CANARD_NODE_ID_UNSET /\ (mtu < tr_payload_size t)%nat) \/
  CANARD_PRIORITY_MAX < tr_priority t \/
  (tr_transfer_kind t <> CanardTransferKindMessage /\
   ~ is_service_kind (tr_transfer_kind t)).

(** The payload pointer is NULL although the payload is not empty. *)
Definition payload_missing (t : CanardTransfer) : Prop :=
  tr_payload t = None /\ tr_payload_size t <> 0%nat.

(** The arguments for which the specification announces INVALID_ARGUMENT:
    a NULL instance or transfer, a NULL payload that is not empty, or a
    transfer of [transfer_invalid]. *)
Definition push_arguments_invalid (ins : option CanardInstance)
    (transfer : option CanardTransfer) : Prop :=
  ins = None \/ transfer = None \/
  exists i t,
    ins = Some i /\ transfer = Some t /\
    (payload_missing t \/
     transfer_invalid (node_id i) (getPresentationLayerMTU i) t).

(** The transfers that [makeCANID] refuses.  The source never compares the
    local node-ID with [CANARD_NODE_ID_UNSET]: its test is
    [local_node_id <= CANARD_NODE_ID_MAX], so every local node-ID above 127
    makes the node anonymous, 255 being one of them.  The other cases are
    those of [transfer_invalid]. *)
Definition transfer_rejected (local : N) (mtu : nat) (t : CanardTransfer) : Prop :=
  (tr_transfer_kind t = CanardTransferKindMessage /\
   (tr_remote_node_id t <> CANARD_NODE_ID_UNSET \/
    CANARD_SUBJECT_ID_MAX < tr_port_id t)) \/
  (is_service_kind (tr_transfer_kind t) /\
   (tr_remote_node_id t = CANARD_NODE_ID_UNSET \/
    CANARD_NODE_ID_MAX < tr_remote_node_id t \/
    CANARD_SERVICE_ID_MAX < tr_port_id t)) \/
  (CANARD_NODE_ID_MAX < local /\ is_service_kind (tr_transfer_kind t)) \/
  (CANARD_NODE_ID_MAX < local /\ (mtu < tr_payload_size t)%nat) \/
  CANARD_PRIORITY_MAX < tr_priority t \/
  (tr_transfer_kind t <> CanardTransferKindMessage /\
   ~ is_service_kind (tr_transfer_kind t)).

(** The arguments to which [canardTxPush] answers INVALID_ARGUMENT: a NULL
    instance or transfer, a NULL payload that is not empty, or a transfer
    that [makeCANID] refuses. *)
Definition push_arguments_rejected (ins : option CanardInstance)
    (transfer : option CanardTransfer) : Prop :=
  ins = None \/ transfer = None \/
  exists i t,
    ins = Some i /\ transfer = Some t /\
    (payload_missing t \/
     transfer_rejected (node_id i) (getPresentationLayerMTU i) t).

(** A priority is a value of its 32-bit enumeration type. *)
Definition priority_representable (transfer : option CanardTransfer) : Prop :=
  forall t, transfer = Some t -> tr_priority t < 2 ^ 32.

(** The result of a push by an instance, for inputs on which the call
    returns (it always does, see [canardTxPush_outcomes]). *)
Definition pushed (h : Heap) (i : CanardInstance) (t : CanardTransfer)
  : Z * Heap * CanardInstance :=
  match canardTxPush h (Some i) (Some t) with
  | Some (r, h', Some i') => (r, h', i')
  | _ => (0%Z, h, i)
  end.

(** A service request of 100 bytes from node 1 to node 10 (priority 2,
    service 5, transfer-ID 3), as in the fourth scenario of the
    specification. *)
Definition scenario4_transfer : CanardTransfer :=
  {| tr_timestamp_usec := 1000; tr_priority := 2;
     tr_transfer_kind := CanardTransferKindRequest; tr_port_id := 5;
     tr_remote_node_id := 10; tr_transfer_id := 3;
     tr_payload_size := 100;
     tr_payload := Some {| buf_base := 4096; buf_bytes := replicate 100 0x5A |} |}.

(** A service request of 3 bytes to node 10 (priority 2, service 5), to be
    pushed by an instance whose node-ID was set to 200: a value of
    [CanardNodeID] that is neither a node-ID nor UNSET. *)
Definition short_request : CanardTransfer :=
  {| tr_timestamp_usec := 1000; tr_priority := 2;
     tr_transfer_kind := CanardTransferKindRequest; tr_port_id := 5;
     tr_remote_node_id := 10; tr_transfer_id := 3;
     tr_payload_size := 3;
     tr_payload := Some {| buf_base := 4096; buf_bytes := [0x10; 0x20; 0x30] |} |}.

(** A message of 13 bytes, three frames on Classic CAN. *)
Definition three_frame_transfer : CanardTransfer :=
  {| tr_timestamp_usec := 1000; tr_priority := 4;
     tr_transfer_kind := CanardTransferKindMessage; tr_port_id := 7168;
     tr_remote_node_id := CANARD_NODE_ID_UNSET; tr_transfer_id := 1;
     tr_payload_size := 13;
     tr_payload := Some {| buf_base := 4096;
                           buf_bytes := [1; 2; 3; 4; 5; 6; 7; 8; 9; 10; 11; 12; 13] |} |}.

(** An anonymous message of 64 bytes: it would need two frames. *)
Definition anonymous_two_frame_transfer : CanardTransfer :=
  {| tr_timestamp_usec := 1000; tr_priority := 0;
     tr_transfer_kind := CanardTransferKindMessage; tr_port_id := 100;
     tr_remote_node_id := CANARD_NODE_ID_UNSET; tr_transfer_id := 0;
     tr_payload_size := 64;
     tr_payload := Some {| buf_base := 4096; buf_bytes := replicate 64 0xAA |} |}.

(** *** The order of the transmission queue *)

(** [a] goes out before [b]: a smaller CAN-ID, or the same CAN-ID and an
    earlier allocation (block names grow with time, so this is the order of
    the pushes, and of the frames within one push). *)
Definition tx_before (a b : CanardInternalTxQueueItem) : Prop :=
  tqi_id a < tqi_id b \/
  (tqi_id a = tqi_id b /\ (tqi_block a < tqi_block b)%nat).

(** The queue is in order, and its blocks are older than the next block. *)
Definition tx_queue_ordered (h : Heap) (q : list CanardInternalTxQueueItem) : Prop :=
  StronglySorted tx_before q /\
  Forall (fun it => (tqi_block it < next_block h)%nat) q.

(** What the application may do to the transmission side of an instance:
    push a transfer, pop the head, or set the MTU and the node-ID (both are
    plain fields of the instance). *)
Inductive TxCall :=
| TxPush (t : CanardTransfer)
| TxPop
| TxConfigure (mtu : nat) (node : N).

Definition configure (i : CanardInstance) (mtu : nat) (node : N) : CanardInstance :=
  {| user_reference := user_reference i; mtu_bytes := mtu; node_id := node;
     rx_subscriptions := rx_subscriptions i; tx_queue := tx_queue i |}.

Fixpoint run_tx (calls : list TxCall) (h : Heap) (i : CanardInstance)
  : option (Heap * CanardInstance) :=
  match calls with
  | [] => Some (h, i)
  | TxPush t :: rest =>
      match canardTxPush h (Some i) (Some t) with
      | Some (_, h', Some i') => run_tx rest h' i'
      | _ => None
      end
  | TxPop :: rest =>
      match canardTxPop h (Some i) with
      | (h', Some i') => run_tx rest h' i'
      | _ => None
      end
  | TxConfigure mtu node :: rest => run_tx rest h (configure i mtu node)
  end.

(** The frame that [canardTxPeek] shows for a queue item. *)
Definition frame_of (it : CanardInternalTxQueueItem) : CanardFrame :=
  {| fr_timestamp_usec := tqi_deadline_usec it;
     fr_extended_can_id := tqi_id it;
     fr_payload_size := tqi_payload_size it;
     fr_payload := Some {| buf_base := tqi_block it; buf_bytes := tqi_payload it |} |}.

(** Peek and pop, [n] times: the frames in the order the bus driver gets
    them. *)
Fixpoint drain (n : nat) (h : Heap) (i : CanardInstance) : list CanardFrame :=
  match n with
  | O => []
  | S k =>
      match canardTxPeek (Some i) (Some blank_frame), canardTxPop h (Some i) with
      | (_, Some f), (h', Some i') => f :: drain k h' i'
      | _, _ => []
      end
  end.

(** The queue is sorted by CAN-ID, items with equal CAN-ID are in the order
    of their allocation, and draining it yields its items in queue order. *)
Definition sorted_fifo (h : Heap) (i : CanardInstance) : Prop :=
  let q := tx_queue i in
  StronglySorted (fun a b => tqi_id a <= tqi_id b) q /\
  (forall j k a b,
      (j < k)%nat -> q !! j = Some a -> q !! k = Some b ->
      tqi_id a = tqi_id b -> (tqi_block a < tqi_block b)%nat) /\
  drain (length q) h i = frame_of <$> q.

(** Three transfers pushed by node 1: a message of priority 4, a request of
    priority 2, the MTU changed, the same message again, and one pop. *)
Definition sample_calls : list TxCall :=
  [TxPush scenario1_transfer; TxPush scenario4_transfer;
   TxConfigure 8 1; TxPush scenario1_transfer; TxPop].

(** *** The number and the sizes of the frames of a transfer *)

(** A payload that fits the presentation-layer MTU [mtu] goes out as one
    frame.  A longer one is followed by its CRC and cut into pieces of
    [mtu] bytes, one frame per piece. *)
Definition frame_count (mtu payload_size : nat) : nat :=
  if (payload_size <=? mtu)%nat then 1%nat
  else ((payload_size + CRC_SIZE_BYTES + mtu - 1) / mtu)%nat.

(** The sizes of these frames, tail byte included: every frame but the last
    is full, and the last one is rounded up to a valid frame length. *)
Definition frame_sizes (mtu payload_size : nat) : list nat :=
  if (payload_size <=? mtu)%nat
  then [roundFramePayloadSizeUp (payload_size + 1)]
  else
    let n := frame_count mtu payload_size in
    let rest := (payload_size + CRC_SIZE_BYTES - mtu * (n - 1))%nat in
    replicate (n - 1) (mtu + 1)%nat ++ [roundFramePayloadSizeUp (rest + 1)].

(** A queued frame that a CAN FD controller can take: a 29-bit identifier
    and a payload of a valid frame length, with room for the tail byte, all
    of it inside the item. *)
Definition frame_sendable (it : CanardInternalTxQueueItem) : Prop :=
  tqi_id it <= CAN_EXT_ID_MASK /\
  (1 <= tqi_payload_size it <= 64)%nat /\
  roundFramePayloadSizeUp (tqi_payload_size it) = tqi_payload_size it /\
  length (tqi_payload it) = tqi_payload_size it.

(** The model that [canardRxAccept] makes of a frame. *)
Definition frame_model (f : CanardFrame) : FrameModel :=
  (tryParseFrame f FrameModel_zero).2.

(** The 13-byte message pushed by node 42 on Classic CAN: three frames. *)
Definition three_frame_push : Z * Heap * CanardInstance :=
  pushed (heap_of [true; true; true]) (instance_of 8 42) three_frame_transfer.

(** *** Subscriptions and sessions *)

(** The subscription that takes the frames of kind [kind] on port [port]:
    the one that the search of [acceptFrame] stops at. *)
Definition subscription_of (i : CanardInstance) (kind port : N)
  : option CanardRxSubscription :=
  acceptFrame_search (subscriptions_of i kind) port 0
    ≫= fun pos => subscriptions_of i kind !! pos.

(** The session that this subscription keeps for the source node [src];
    [None] is [NULL]. *)
Definition session_of (i : CanardInstance) (kind port src : N)
  : option CanardInternalRxSession :=
  subscription_of i kind port
    ≫= fun sub => mjoin (sub_sessions sub !! N.to_nat src).

(** The shape that the API keeps: one subscription list per transfer kind,
    at most one subscription per port in each, and one session slot per
    node-ID in every subscription. *)
Definition instance_wf (i : CanardInstance) : Prop :=
  length (rx_subscriptions i) = N.to_nat CANARD_NUM_TRANSFER_KINDS /\
  Forall (fun subs =>
            NoDup (sub_port_id <$> subs) /\
            Forall (fun s => length (sub_sessions s) = SESSIONS_PER_SUBSCRIPTION)
                   subs)
         (rx_subscriptions i).

(** *** The blocks that an instance holds *)

Definition session_blocks (s : option CanardInternalRxSession) : list nat :=
  match s with
  | Some rxs => rxs_block rxs :: option_list (rxs_payload rxs)
  | None => []
  end.

Definition subscription_blocks (s : CanardRxSubscription) : list nat :=
  concat (session_blocks <$> sub_sessions s).

Definition kind_blocks (subs : list CanardRxSubscription) : list nat :=
  concat (subscription_blocks <$> subs).

(** The blocks of the queued frames and of the sessions. *)
Definition owned_blocks (i : CanardInstance) : list nat :=
  (tqi_block <$> tx_queue i) ++ concat (kind_blocks <$> rx_subscriptions i).

(** Every live block of the allocator is held by the instance, once, and
    the allocations granted are the blocks freed and the live ones. *)
Definition memory_owned (h : Heap) (i : CanardInstance) : Prop :=
  heap_wf h /\ NoDup (live h) /\ live h ≡ₚ owned_blocks i /\
  n_allocated h = (n_freed h + length (live h))%nat.

(** What the application may call. *)
Inductive ApiCall :=
| ApiTxPush (t : CanardTransfer)
| ApiTxPop
| ApiRxAccept (f : CanardFrame) (iface_index : N)
| ApiRxSubscribe (kind port : N) (payload_size_bytes_max : nat)
                 (transfer_id_timeout_usec : N)
| ApiRxUnsubscribe (kind port : N)
| ApiConfigure (mtu : nat) (node : N).

Fixpoint run_api (calls : list ApiCall) (h : Heap) (i : CanardInstance)
  : option (Heap * CanardInstance) :=
  match calls with
  | [] => Some (h, i)
  | ApiTxPush t :: rest =>
      match canardTxPush h (Some i) (Some t) with
      | Some (_, h', Some i') => run_api rest h' i'
      | _ => None
      end
  | ApiTxPop :: rest =>
      match canardTxPop h (Some i) with
      | (h', Some i') => run_api rest h' i'
      | _ => None
      end
  | ApiRxAccept f iface_index :: rest =>
      match canardRxAccept h (Some i) (Some f) iface_index (Some blank_transfer) with
      | (_, h', Some i', _) => run_api rest h' i'
      | _ => None
      end
  | ApiRxSubscribe kind port payload_size_bytes_max transfer_id_timeout_usec :: rest =>
      match canardRxSubscribe h (Some i) kind port payload_size_bytes_max
                              transfer_id_timeout_usec true with
      | (_, h', Some i') => run_api rest h' i'
      | _ => None
      end
  | ApiRxUnsubscribe kind port :: rest =>
      match canardRxUnsubscribe h (Some i) kind port with
      | (_, h', Some i') => run_api rest h' i'
      | _ => None
      end
  | ApiConfigure mtu node :: rest => run_api rest h (configure i mtu node)
  end.

(** The instance [i'] has the transmission side and the configuration of
    [i]. *)
Definition same_tx_side (i i' : CanardInstance) : Prop :=
  tx_queue i' = tx_queue i /\ node_id i' = node_id i /\
  mtu_bytes i' = mtu_bytes i /\ user_reference i' = user_reference i.

(** What [canardRxUnsubscribe] of [port] leaves: without a subscription
    nothing changes; otherwise the sessions of the subscription are freed
    (their blocks leave the live blocks and each counts as freed).  In
    both cases the port has no subscription afterwards and every other
    subscription is as before. *)
Definition unsubscribed_from (h : Heap) (i : CanardInstance) (kind port : N)
    (r : Z) (h' : Heap) (i' : CanardInstance) : Prop :=
  match subscription_of i kind port with
  | None => r = 0%Z /\ h' = h /\ i' = i
  | Some sub =>
      r = 1%Z /\
      live h' = filter (fun b => b ∉ subscription_blocks sub) (live h) /\
      n_freed h' = (n_freed h + length (subscription_blocks sub))%nat /\
      n_allocated h' = n_allocated h
  end /\
  (forall k p,
     subscription_of i' k p
     = if decide (k = kind /\ p = port) then None else subscription_of i k p) /\
  instance_wf i' /\ same_tx_side i i'.

(** What [canardRxSubscribe] to [port] leaves: the answer tells whether a
    subscription was replaced, whose sessions are then freed as by
    [canardRxUnsubscribe]; the port has the new subscription with the given
    limits and no session, and every other subscription is as before. *)
Definition subscribed_to (h : Heap) (i : CanardInstance) (kind port : N)
    (payload_size_bytes_max : nat) (transfer_id_timeout_usec : N)
    (r : Z) (h' : Heap) (i' : CanardInstance) : Prop :=
  match subscription_of i kind port with
  | None => r = 1%Z /\ h' = h
  | Some sub =>
      r = 0%Z /\
      live h' = filter (fun b => b ∉ subscription_blocks sub) (live h) /\
      n_freed h' = (n_freed h + length (subscription_blocks sub))%nat /\
      n_allocated h' = n_allocated h
  end /\
  (forall k p,
     subscription_of i' k p
     = if decide (k = kind /\ p = port)
       then Some {| sub_port_id := port;
                    sub_payload_size_bytes_max := payload_size_bytes_max;
                    sub_transfer_id_timeout_usec := transfer_id_timeout_usec;
                    sub_sessions := replicate SESSIONS_PER_SUBSCRIPTION None |}
       else subscription_of i k p) /\
  (forall src, session_of i' kind port src = None) /\
  instance_wf i' /\ same_tx_side i i'.

(** The session that [acceptFrame] creates for the first frame of a
    transfer. *)
Definition fresh_session (block : nat) (timestamp_usec : N)
  : CanardInternalRxSession :=
  {| rxs_block := block;
     rxs_transfer_timestamp_usec := timestamp_usec;
     rxs_payload_size := 0;
     rxs_payload := None;
     rxs_calculated_crc := CRC_INITIAL;
     rxs_toggle_and_transfer_id := TAIL_TOGGLE;
     rxs_iface_index := 0 |}.

(** What the first frame of a transfer from the source [src] leaves when
    [src] has no session with the subscription [sub] of the port: the
    allocator is asked once; if it grants the block, the answer is 0 and
    [src] has a fresh session in the new block, every other session being
    as before; if it refuses, the answer is OUT_OF_MEMORY and the instance
    is as before.  The argument of [memory_allocate] is written as the
    source passes it, but the allocator of this development does not look
    at it: nothing is said here about the size that is requested. *)
Definition session_opened (h : Heap) (i : CanardInstance) (kind port src : N)
    (timestamp_usec : N) (sub : CanardRxSubscription)
    (r : Z) (h' : Heap) (i' : CanardInstance) : Prop :=
  match memory_allocate h (sizeof_CanardInternalRxSession
                           + sub_payload_size_bytes_max sub) with
  | (Some b, h1) =>
      r = 0%Z /\ h' = h1 /\
      forall k p s,
        session_of i' k p s
        = if decide (k = kind /\ p = port /\ s = src)
          then Some (fresh_session b timestamp_usec)
          else session_of i k p s
  | (None, h1) =>
      r = (- CANARD_ERROR_OUT_OF_MEMORY)%Z /\ h' = h1 /\ i' = i
  end /\
  instance_wf i' /\ same_tx_side i i'.

(** The subscription of [subscriber node port payload_size_bytes_max]. *)
Definition sample_subscription (port : N) (payload_size_bytes_max : nat)
  : CanardRxSubscription :=
  {| sub_port_id := port;
     sub_payload_size_bytes_max := payload_size_bytes_max;
     sub_transfer_id_timeout_usec := 2000000;
     sub_sessions := replicate SESSIONS_PER_SUBSCRIPTION None |}.

(** A frame from node 42 on subject 7168 from the middle of a transfer:
    neither start nor end, toggle clear. *)
Definition sample_middle_frame : CanardFrame :=
  {| fr_timestamp_usec := 1001; fr_extended_can_id := 0x101C002A;
     fr_payload_size := 4;
     fr_payload := Some {| buf_base := 0; buf_bytes := [0x10; 0x20; 0x30; 0x01] |} |}.

(** A receiver that subscribes, sends a message, takes a frame from node
    42, pops its own frame and unsubscribes. *)
Definition sample_api_calls : list ApiCall :=
  [ApiRxSubscribe CanardTransferKindMessage 7168 64 2000000;
   ApiTxPush scenario1_transfer;
   ApiRxAccept scenario1_frame 0;
   ApiTxPop;
   ApiRxUnsubscribe CanardTransferKindMessage 7168].

(** An anonymous message of nine bytes on subject 100, pushed by a node
    without node-ID on CAN FD: one frame of twelve bytes. *)
Definition sample_anonymous_transfer : CanardTransfer :=
  {| tr_timestamp_usec := 1000; tr_priority := 4;
     tr_transfer_kind := CanardTransferKindMessage; tr_port_id := 100;
     tr_remote_node_id := CANARD_NODE_ID_UNSET; tr_transfer_id := 5;
     tr_payload_size := 9;
     tr_payload := Some {| buf_base := 4096;
                           buf_bytes := [1; 2; 3; 4; 5; 6; 7; 8; 9] |} |}.


(** What one call of [canardRxAccept] may touch: never the transmission
    side, never the set of subscriptions or their limits, never a block
    that is live; it frees nothing, asks for at most one block, answers
    OUT_OF_MEMORY exactly when that request is refused, and writes the
    transfer of the caller only when it answers 1. *)
Definition accept_footprint (h : Heap) (i : CanardInstance) (t : CanardTransfer)
    (r : Z) (h' : Heap) (i' : CanardInstance) (t' : CanardTransfer) : Prop :=
  same_tx_side i i' /\
  instance_wf i' /\
  (forall k, sub_port_id <$> subscriptions_of i' k
             = sub_port_id <$> subscriptions_of i k) /\
  n_freed h' = n_freed h /\
  ((h' = h /\ (r = 1 \/ r = 0 \/ r = - CANARD_ERROR_INVALID_ARGUMENT)%Z) \/
   (r = 0%Z /\ live h' = next_block h :: live h /\
    n_allocated h' = S (n_allocated h) /\ n_refused h' = n_refused h) \/
   (r = (- CANARD_ERROR_OUT_OF_MEMORY)%Z /\ live h' = live h /\
    n_allocated h' = n_allocated h /\ n_refused h' = S (n_refused h))) /\
  (r <> 1%Z -> t' = t).
(** ** Properties of the CRC *)

Section CRC.

Lemma u16_bound x : u16 x < 65536.
Proof. unfold u16. apply N.mod_lt. discriminate. Qed.

Lemma u16_small x : x < 65536 -> u16 x = x.
Proof. intros. unfold u16. apply N.mod_small. assumption. Qed.

Lemma u16_idemp x : u16 (u16 x) = u16 x.
Proof. apply u16_small, u16_bound. Qed.

Lemma lxor_bound16 a b : a < 65536 -> b < 65536 -> N.lxor a b < 65536.
Proof.
  intros Ha Hb.
  destruct (N.eq_dec (N.lxor a b) 0) as [->|Hne]; [reflexivity|].
  apply (N.log2_lt_pow2 _ 16); [lia|].
  eapply N.le_lt_trans; [apply N.log2_lxor|].
  apply N.max_lub_lt.
  - destruct (N.eq_dec a 0) as [->|]; [reflexivity|]. apply N.log2_lt_pow2; lia.
  - destruct (N.eq_dec b 0) as [->|]; [reflexivity|]. apply N.log2_lt_pow2; lia.
Qed.

Lemma msb_test out : negb (N.land out 0x8000 =? 0) = N.testbit out 15.
Proof.
  change 0x8000 with (2 ^ 15).
  destruct (N.testbit out 15) eqn:Hb.
  - apply negb_true_iff, N.eqb_neq. intros H0.
    assert (N.testbit (N.land out (2 ^ 15)) 15 = true)
      by (rewrite N.land_spec, Hb, N.pow2_bits_true; reflexivity).
    rewrite H0 in H. discriminate.
  - apply negb_false_iff, N.eqb_eq. apply N.bits_inj. intros n.
    rewrite N.land_spec, N.bits_0.
    destruct (N.eq_dec n 15) as [->|Hn].
    + rewrite Hb. reflexivity.
    + rewrite N.pow2_bits_false by congruence. apply andb_false_r.
Qed.

Lemma crcAddByte_body_spec out : crcAddByte_body out = crc_shift_spec out.
Proof.
  unfold crcAddByte_body, crc_shift_spec. rewrite msb_test.
  rewrite N.shiftl_mul_pow2. change (2 ^ 1) with 2. rewrite (N.mul_comm out 2).
  fold (u16 (2 * out)).
  destruct (N.testbit out 15); [|reflexivity].
  apply u16_small, lxor_bound16; [apply u16_bound | reflexivity].
Qed.

Lemma crcAddByte_for_iter n out :
  crcAddByte_for n out = Nat.iter n crc_shift_spec out.
Proof.
  revert out. induction n as [|n IH]; intros out; [reflexivity|].
  cbn [crcAddByte_for]. rewrite IH, crcAddByte_body_spec.
  symmetry. apply Nat.iter_succ_r.
Qed.

Lemma crcAddByte_body_bound out : crcAddByte_body out < 65536.
Proof. unfold crcAddByte_body. destruct (negb _); apply u16_bound. Qed.

Lemma crcAddByte_for_bound n out :
  out < 65536 -> crcAddByte_for n out < 65536.
Proof.
  revert out. induction n as [|n IH]; intros out H; [exact H|].
  apply IH, crcAddByte_body_bound.
Qed.

Lemma crcAddByte_bound crc b : crcAddByte crc b < 65536.
Proof. apply crcAddByte_for_bound, u16_bound. Qed.

Lemma crcAdd_for_fold p : forall out,
  crcAdd_for (length p) p out = fold_left crcAddByte p out.
Proof. induction p as [|b p IH]; intros out; [reflexivity|]. apply IH. Qed.

Lemma crcAdd_bound crc n p : crc < 65536 -> crcAdd crc n p < 65536.
Proof.
  unfold crcAdd. revert p crc. induction n as [|n IH]; intros [|b p] crc H;
    cbn; auto. apply IH, crcAddByte_bound.
Qed.

Lemma crcAdd_app crc a b :
  crcAdd crc (length (a ++ b)) (a ++ b)
  = crcAdd (crcAdd crc (length a) a) (length b) b.
Proof.
  unfold crcAdd. rewrite !crcAdd_for_fold. apply fold_left_app.
Qed.

End CRC.

Section CRC_residue.

Lemma u16_testbit x n : N.testbit (u16 x) n = (n <? 16) && N.testbit x n.
Proof.
  unfold u16. destruct (N.ltb_spec n 16) as [Hlt|Hge].
  - rewrite N.mod_pow2_bits_low by assumption. reflexivity.
  - rewrite N.mod_pow2_bits_high by assumption. reflexivity.
Qed.

Lemma u16_lxor_shift crc b :
  u16 (N.lxor crc (u16 (N.shiftl (u16 b) BITS_PER_BYTE)))
  = (N.lxor crc (b * 256)) mod 65536.
Proof.
  change 65536 with (2 ^ 16). fold (u16 (N.lxor crc (b * 256))).
  change 256 with (2 ^ 8). rewrite <- N.shiftl_mul_pow2.
  apply N.bits_inj. intros n. unfold BITS_PER_BYTE.
  rewrite !u16_testbit, !N.lxor_spec, u16_testbit.
  destruct (N.ltb_spec n 16) as [Hlt|Hge]; [cbn [andb]|reflexivity].
  f_equal.
  destruct (N.ltb_spec n 8) as [Hl8|Hg8].
  - rewrite !N.shiftl_spec_low by assumption. reflexivity.
  - rewrite !N.shiftl_spec_high' by assumption. rewrite u16_testbit.
    replace (n - 8 <? 16) with true by (symmetry; apply N.ltb_lt; lia).
    reflexivity.
Qed.

Lemma crcAddByte_spec crc b : crcAddByte crc b = crc_add_byte_spec crc b.
Proof.
  unfold crcAddByte, crc_add_byte_spec.
  rewrite crcAddByte_for_iter, u16_lxor_shift. reflexivity.
Qed.

(** Below the top bit the CRC register only shifts. *)
Lemma crc_shift_spec_low x : x < 32768 -> crc_shift_spec x = 2 * x.
Proof.
  intros Hx. unfold crc_shift_spec.
  replace (N.testbit x 15) with false.
  - apply N.mod_small. lia.
  - symmetry. destruct (N.eq_dec x 0) as [->|Hne]; [reflexivity|].
    apply N.bits_above_log2. apply N.log2_lt_pow2; [lia|exact Hx].
Qed.

Lemma iter_shift_low k x :
  x * 2 ^ N.of_nat k < 65536 ->
  Nat.iter k crc_shift_spec x = x * 2 ^ N.of_nat k.
Proof.
  induction k as [|k IH]; intros Hx.
  - cbn. lia.
  - rewrite Nat2N.inj_succ, N.pow_succ_r' in *.
    rewrite Nat.iter_succ, IH by lia.
    rewrite crc_shift_spec_low; lia.
Qed.

Lemma lxor_high_byte c :
  c < 65536 -> N.lxor c (u8 (N.shiftr c 8) * 256) = c mod 256.
Proof.
  intros Hc. unfold u8.
  rewrite (N.mod_small (N.shiftr c 8)).
  2:{ rewrite N.shiftr_div_pow2. apply N.Div0.div_lt_upper_bound. exact Hc. }
  change 256 with (2 ^ 8). rewrite <- N.shiftl_mul_pow2.
  apply N.bits_inj. intros n. rewrite N.lxor_spec.
  destruct (N.ltb_spec n 8) as [Hl|Hg].
  - rewrite N.shiftl_spec_low, N.mod_pow2_bits_low by assumption.
    apply xorb_false_r.
  - rewrite N.shiftl_spec_high', N.shiftr_spec', N.mod_pow2_bits_high by assumption.
    replace (n - 8 + 8) with n by lia. apply xorb_nilpotent.
Qed.

(** Feeding a CRC its own two bytes, high byte first, clears it. *)
Lemma crcAddByte_own_bytes c :
  c < 65536 ->
  crcAddByte (crcAddByte c (u8 (N.shiftr c BITS_PER_BYTE))) (u8 (N.land c BYTE_MAX)) = 0.
Proof.
  intros Hc. unfold BITS_PER_BYTE, BYTE_MAX.
  assert (Hlo : u8 (N.land c 255) = c mod 256).
  { change 255 with (N.ones 8). rewrite N.land_ones. unfold u8.
    apply N.mod_small. apply N.mod_lt. discriminate. }
  assert (Hb : c mod 256 < 256) by (apply N.mod_lt; discriminate).
  rewrite Hlo, !crcAddByte_spec.
  assert (H1 : crc_add_byte_spec c (u8 (N.shiftr c 8)) = c mod 256 * 256).
  { unfold crc_add_byte_spec. rewrite lxor_high_byte by exact Hc.
    rewrite (N.mod_small (c mod 256)) by lia.
    rewrite iter_shift_low; change (2 ^ N.of_nat 8) with 256; lia. }
  rewrite H1. unfold crc_add_byte_spec. rewrite N.lxor_nilpotent.
  reflexivity.
Qed.

Lemma crcAdd_fragments_concat frags : forall crc,
  crcAdd_fragments crc frags = crcAdd crc (length (concat frags)) (concat frags).
Proof.
  unfold crcAdd_fragments.
  induction frags as [|f frags IH]; intros crc; [reflexivity|].
  cbn [fold_left concat]. rewrite IH, crcAdd_app. reflexivity.
Qed.

Lemma crcAdd_own_bytes crc p :
  crc < 65536 ->
  let c := crcAdd crc (length p) p in
  crcAdd crc (length (p ++ crc_be_bytes c)) (p ++ crc_be_bytes c) = 0.
Proof.
  intros Hcrc c. rewrite crcAdd_app. fold c.
  unfold crc_be_bytes, crcAdd. cbn [length crcAdd_for].
  apply crcAddByte_own_bytes. apply crcAdd_bound. exact Hcrc.
Qed.

End CRC_residue.

(** C6: [crcAddByte] is the CRC-CCITT step (XOR the byte into the high half,
    then eight times shift left and XOR 0x1021 when the bit shifted out was
    set, modulo 2^16); [crcAdd] is the left fold of [crcAddByte] over the
    bytes; the register starts at 0xFFFF and is used as it is, without
    reflection and without a final XOR, which the check value 0x29B1 of the
    ASCII digits 1 to 9 pins down. *)
Theorem crc_is_ccitt :
  (forall crc b, crcAddByte crc b = crc_add_byte_spec crc b) /\
  (forall crc bytes, crcAdd crc (length bytes) bytes = fold_left crcAddByte bytes crc) /\
  CRC_INITIAL = 0xFFFF /\
  crcAdd CRC_INITIAL 9 [49; 50; 51; 52; 53; 54; 55; 56; 57] = 0x29B1.
Proof.
  split; [exact crcAddByte_spec|].
  split; [intros crc bytes; apply crcAdd_for_fold|].
  split; [reflexivity|]. vm_compute. reflexivity.
Qed.

(** C7: a payload followed by the two bytes of its own CRC (computed from
    0xFFFF, high byte first) folds to zero, as one buffer and also as any
    sequence of fragments folded in order. *)
Theorem crc_residue_zero (p : list N) :
  let c := crcAdd CRC_INITIAL (length p) p in
  crcAdd CRC_INITIAL (length (p ++ crc_be_bytes c)) (p ++ crc_be_bytes c) = 0 /\
  (forall fragments,
      concat fragments = p ++ crc_be_bytes c ->
      crcAdd_fragments CRC_INITIAL fragments = 0).
Proof.
  intros c. assert (H0 := crcAdd_own_bytes CRC_INITIAL p eq_refl).
  split; [exact H0|].
  intros fragments Hf. rewrite crcAdd_fragments_concat, Hf. exact H0.
Qed.

Lemma crc_residue_zero_witness :
  concat sample_fragments
  = sample_payload
    ++ crc_be_bytes (crcAdd CRC_INITIAL (length sample_payload) sample_payload) /\
  crcAdd_fragments CRC_INITIAL sample_fragments = 0.
Proof.
  split; [reflexivity|].
  apply (proj2 (crc_residue_zero sample_payload)). reflexivity.
Defined.

(** ** Frame parsing *)

Section Parsing.

Lemma land_bit_test x k :
  (N.land x (N.shiftl 1 k) =? 0) = negb (N.testbit x k).
Proof.
  rewrite N.shiftl_1_l.
  destruct (N.testbit x k) eqn:Hb; cbn [negb].
  - apply N.eqb_neq. intros H0.
    assert (N.testbit (N.land x (2 ^ k)) k = true)
      by (rewrite N.land_spec, Hb, N.pow2_bits_true; reflexivity).
    rewrite H0, N.bits_0 in H. discriminate.
  - apply N.eqb_eq, N.bits_inj. intros n.
    rewrite N.land_spec, N.bits_0.
    destruct (N.eq_dec n k) as [->|Hn].
    + rewrite Hb. reflexivity.
    + rewrite N.pow2_bits_false by congruence. apply andb_false_r.
Qed.

Lemma land_field x k m :
  N.land (N.shiftr x k) (N.ones m) = (x / 2 ^ k) mod 2 ^ m.
Proof. rewrite N.land_ones, N.shiftr_div_pow2. reflexivity. Qed.

Lemma u8_small x : x < 256 -> u8 x = x.
Proof. intros. unfold u8. apply N.mod_small. assumption. Qed.

Lemma u32_small x : x < 4294967296 -> u32 x = x.
Proof. intros. unfold u32. apply N.mod_small. assumption. Qed.

Lemma priority_field x :
  N.land (N.shiftr x OFFSET_PRIORITY) CANARD_PRIORITY_MAX = id_priority x.
Proof. exact (land_field x 26 3). Qed.

Lemma subject_field x :
  u16 (N.land (N.shiftr x OFFSET_SUBJECT_ID) CANARD_SUBJECT_ID_MAX) = id_subject x.
Proof.
  rewrite (land_field x 8 13 : N.land (N.shiftr x OFFSET_SUBJECT_ID) CANARD_SUBJECT_ID_MAX = id_subject x).
  apply u16_small. unfold id_subject. pose proof (N.mod_lt (x / 2 ^ 8) 8192). lia.
Qed.

Lemma service_field x :
  u16 (N.land (N.shiftr x OFFSET_SERVICE_ID) CANARD_SERVICE_ID_MAX) = id_service x.
Proof.
  rewrite (land_field x 14 9 : N.land (N.shiftr x OFFSET_SERVICE_ID) CANARD_SERVICE_ID_MAX = id_service x).
  apply u16_small. unfold id_service. pose proof (N.mod_lt (x / 2 ^ 14) 512). lia.
Qed.

Lemma destination_field x :
  u8 (N.land (N.shiftr x OFFSET_DST_NODE_ID) CANARD_NODE_ID_MAX) = (x / 2 ^ 7) mod 128.
Proof.
  rewrite (land_field x 7 7 : N.land (N.shiftr x OFFSET_DST_NODE_ID) CANARD_NODE_ID_MAX = (x / 2 ^ 7) mod 128).
  apply u8_small. pose proof (N.mod_lt (x / 2 ^ 7) 128). lia.
Qed.

Lemma source_field x : u8 (N.land x CANARD_NODE_ID_MAX) = id_source x.
Proof.
  rewrite (N.land_ones x 7 : N.land x CANARD_NODE_ID_MAX = id_source x).
  apply u8_small. unfold id_source. pose proof (N.mod_lt x 128). lia.
Qed.

Lemma transfer_id_field t : N.land t CANARD_TRANSFER_ID_MAX = tail_transfer_id t.
Proof. exact (N.land_ones t 5). Qed.

Lemma id_source_not_unset x : (CANARD_NODE_ID_UNSET =? id_source x) = false.
Proof.
  apply N.eqb_neq. unfold CANARD_NODE_ID_UNSET, id_source.
  pose proof (N.mod_lt x 128). lia.
Qed.

(** [tryParseFrame] on a frame with a payload: the verdict is [unparseable]
    negated and the model holds the fields of the wire format. *)
Lemma tryParseFrame_fields f m :
  (0 < fr_payload_size f)%nat ->
  let can_id := fr_extended_can_id f in
  let tail := frame_tail f in
  tryParseFrame f m =
  (negb (unparseable f),
   {| fm_timestamp_usec := fr_timestamp_usec f;
      fm_priority := id_priority can_id;
      fm_transfer_kind := id_kind can_id;
      fm_port_id := id_port can_id;
      fm_source_node_id :=
        if id_is_anonymous can_id then CANARD_NODE_ID_UNSET else id_source can_id;
      fm_destination_node_id := id_destination can_id;
      fm_transfer_id := tail_transfer_id tail;
      fm_start_of_transfer := tail_start_of_transfer tail;
      fm_end_of_transfer := tail_end_of_transfer tail;
      fm_toggle := tail_toggle tail;
      fm_payload_size := (fr_payload_size f - 1)%nat;
      fm_payload := fr_payload f |}).
Proof.
  intros Hsz can_id tail.
  unfold tryParseFrame, unparseable.
  fold can_id. fold (frame_tail f). fold tail.
  destruct (Nat.ltb_spec 0 (fr_payload_size f)) as [_|]; [|lia].
  replace (fr_payload_size f =? 0)%nat with false
    by (symmetry; apply Nat.eqb_neq; lia).
  rewrite priority_field, subject_field, service_field, destination_field,
    source_field, transfer_id_field.
  unfold FLAG_SERVICE_NOT_MESSAGE, FLAG_RESERVED_23, FLAG_RESERVED_07,
    FLAG_ANONYMOUS_MESSAGE, FLAG_REQUEST_NOT_RESPONSE.
  rewrite !land_bit_test.
  rewrite (land_bit_test tail 7 : (N.land tail TAIL_START_OF_TRANSFER =? 0) = _).
  rewrite (land_bit_test tail 6 : (N.land tail TAIL_END_OF_TRANSFER =? 0) = _).
  rewrite (land_bit_test tail 5 : (N.land tail TAIL_TOGGLE =? 0) = _).
  rewrite !negb_involutive.
  unfold id_kind, id_port, id_destination, id_is_anonymous,
    tail_start_of_transfer, tail_end_of_transfer, tail_toggle.
  pose proof (id_source_not_unset can_id) as Hu.
  destruct (N.testbit can_id 25), (N.testbit can_id 24), (N.testbit can_id 23),
    (N.testbit can_id 7), (N.testbit tail 7), (N.testbit tail 6), (N.testbit tail 5);
    cbn [negb andb orb]; rewrite ?N.eqb_refl, ?Hu; reflexivity.
Qed.

End Parsing.

(** ** Frame acceptance *)

Section Acceptance.

Lemma acceptFrame_search_none subs port : forall pos,
  forallb (fun s => negb (sub_port_id s =? port)) subs = true ->
  acceptFrame_search subs port pos = None.
Proof.
  induction subs as [|s subs IH]; intros pos H; [reflexivity|].
  cbn in H. apply andb_true_iff in H as [Hs Hrest].
  cbn. rewrite Hs. apply IH, Hrest.
Qed.

Lemma acceptFrame_search_some subs port : forall pos,
  forallb (fun s => negb (sub_port_id s =? port)) subs = false ->
  exists k sub, acceptFrame_search subs port pos = Some (pos + k)%nat
                /\ subs !! k = Some sub /\ sub_port_id sub = port.
Proof.
  induction subs as [|s subs IH]; intros pos H; [discriminate|].
  cbn in H. cbn [acceptFrame_search].
  destruct (sub_port_id s =? port) eqn:Hs; cbn [negb] in *.
  - exists 0%nat, s. rewrite Nat.add_0_r. apply N.eqb_eq in Hs. auto.
  - destruct (IH (S pos) H) as (k & sub & Hk & Hl & Hp).
    exists (S k), sub. rewrite Hk. split; [f_equal; lia|auto].
Qed.

Lemma rx_arguments_accepted f :
  rx_arguments_valid f ->
  (fr_extended_can_id f <=? CAN_EXT_ID_MASK)
  && (bool_decide (is_Some (fr_payload f)) || (0 =? fr_payload_size f)%nat) = true.
Proof.
  intros [Hid Hp]. apply andb_true_iff. split; [apply N.leb_le, Hid|].
  apply orb_true_iff. destruct Hp as [Hp| ->]; [left|right; reflexivity].
  apply bool_decide_eq_true, Hp.
Qed.

(** A frame that names its source never completes a transfer: the session
    update of the source is a stub. *)
Lemma acceptFrame_with_source h i frame iface t :
  fm_source_node_id frame <= CANARD_NODE_ID_MAX ->
  let '(out, _, _, t') := acceptFrame h i frame iface t in
  (out <= 0)%Z /\ t' = t.
Proof.
  intros Hsrc. unfold acceptFrame.
  destruct (acceptFrame_search _ _ _) as [pos|]; [|split; [lia|reflexivity]].
  destruct (_ !! pos) as [sub|]; [|split; [lia|reflexivity]].
  apply N.leb_le in Hsrc. rewrite Hsrc.
  destruct (bool_decide _ && _).
  - destruct (memory_allocate _ _) as [[b|] h']; cbn.
    + destruct (mjoin _); cbn; split; (lia || reflexivity).
    + destruct (mjoin _); cbn; unfold CANARD_ERROR_OUT_OF_MEMORY;
        split; (lia || reflexivity).
  - destruct (mjoin _); cbn; split; (lia || reflexivity).
Qed.

End Acceptance.

(** C8: a frame with acceptable arguments that is unparseable, addressed to
    another node, or of a kind and port nobody subscribed to makes
    [canardRxAccept] return 0; the transfer of the caller, the instance and
    the allocator are left as they were. *)
Theorem canardRxAccept_ignores h i f iface t :
  rx_arguments_valid f ->
  unparseable f || misaddressed i f || unsubscribed i f = true ->
  canardRxAccept h (Some i) (Some f) iface (Some t) = (0%Z, h, Some i, Some t).
Proof.
  intros Hargs H. unfold canardRxAccept.
  rewrite (rx_arguments_accepted f Hargs).
  destruct (Nat.eq_dec (fr_payload_size f) 0%nat) as [Hz|Hnz].
  { unfold tryParseFrame. rewrite Hz. reflexivity. }
  rewrite tryParseFrame_fields by lia.
  destruct (unparseable f); [reflexivity|]. cbn [negb orb] in H.
  cbn [fm_destination_node_id].
  unfold misaddressed in H. rewrite (N.eqb_sym CANARD_NODE_ID_UNSET).
  rewrite (N.eqb_sym (node_id i)).
  destruct (id_destination _ =? CANARD_NODE_ID_UNSET) eqn:Hd1; cbn [negb andb orb] in *.
  - unfold acceptFrame. cbn [fm_transfer_kind fm_port_id].
    rewrite (acceptFrame_search_none _ _ 0%nat H). reflexivity.
  - destruct (id_destination _ =? node_id i) eqn:Hd2; cbn [negb andb orb] in *;
      [|reflexivity].
    unfold acceptFrame. cbn [fm_transfer_kind fm_port_id].
    rewrite (acceptFrame_search_none _ _ 0%nat H). reflexivity.
Qed.

Lemma canardRxAccept_ignores_witness :
  rx_arguments_valid sample_bad_toggle_frame /\
  canardRxAccept (heap_of [true]) (Some (instance_of 64 9))
                 (Some sample_bad_toggle_frame) 0 (Some blank_transfer)
  = (0%Z, heap_of [true], Some (instance_of 64 9), Some blank_transfer).
Proof.
  assert (Hv : rx_arguments_valid sample_bad_toggle_frame).
  { split; [vm_compute; discriminate | left; eexists; reflexivity]. }
  split; [exact Hv|].
  apply canardRxAccept_ignores; [exact Hv | reflexivity].
Defined.

(** C9: a parseable anonymous message frame on a subscribed subject is
    delivered by the very call that receives it: the result is 1, the
    transfer has the source UNSET and points at the payload of the frame
    itself, with the whole body as its length whatever the payload limit of
    the subscription; nothing is allocated and no subscription or session
    changes. *)
Theorem canardRxAccept_anonymous h i f iface t :
  rx_arguments_valid f ->
  unparseable f = false ->
  id_is_anonymous (fr_extended_can_id f) = true ->
  unsubscribed i f = false ->
  canardRxAccept h (Some i) (Some f) iface (Some t)
  = (1%Z, h, Some i, Some (anonymous_transfer_of f)).
Proof.
  intros Hargs Hparse Hanon Hsub. unfold canardRxAccept.
  rewrite (rx_arguments_accepted f Hargs).
  assert (Hsz : (0 < fr_payload_size f)%nat).
  { unfold unparseable in Hparse.
    destruct (Nat.eqb_spec (fr_payload_size f) 0%nat); [discriminate|lia]. }
  rewrite tryParseFrame_fields, Hparse, Hanon by exact Hsz. cbn [negb].
  cbn [fm_destination_node_id].
  unfold id_is_anonymous in Hanon. apply andb_true_iff in Hanon as [H25 H24].
  apply negb_true_iff in H25.
  unfold unsubscribed in Hsub.
  unfold id_destination, id_kind, id_port in *. rewrite H25 in *.
  rewrite N.eqb_refl. cbn [orb].
  unfold acceptFrame.
  cbn [fm_transfer_kind fm_port_id fm_source_node_id].
  destruct (acceptFrame_search_some _ _ 0%nat Hsub) as (k & sub & Hk & Hl & _).
  rewrite Hk, Nat.add_0_l, Hl.
  replace (CANARD_NODE_ID_UNSET <=? CANARD_NODE_ID_MAX) with false by reflexivity.
  unfold initRxTransferFromFrame, anonymous_transfer_of. reflexivity.
Qed.

Lemma canardRxAccept_anonymous_witness :
  rx_arguments_valid sample_anonymous_frame /\
  sub_payload_size_bytes_max <$> subscriptions_of (subscriber 9 100 2) 0 = [2%nat] /\
  canardRxAccept (heap_of []) (Some (subscriber 9 100 2))
                 (Some sample_anonymous_frame) 0 (Some blank_transfer)
  = (1%Z, heap_of [], Some (subscriber 9 100 2),
     Some {| tr_timestamp_usec := 7; tr_priority := 4;
             tr_transfer_kind := CanardTransferKindMessage; tr_port_id := 100;
             tr_remote_node_id := CANARD_NODE_ID_UNSET; tr_transfer_id := 0;
             tr_payload_size := 7;
             tr_payload := Some {| buf_base := 512;
                                   buf_bytes := [1; 2; 3; 4; 5; 6; 7; 0xE0] |} |}).
Proof.
  assert (Hv : rx_arguments_valid sample_anonymous_frame).
  { split; [vm_compute; discriminate | left; eexists; reflexivity]. }
  split; [exact Hv|]. split; [reflexivity|].
  exact (canardRxAccept_anonymous (heap_of []) (subscriber 9 100 2)
           sample_anonymous_frame 0 blank_transfer Hv eq_refl eq_refl eq_refl).
Defined.

(** C1, as the code has it: the frame that [canardTxPush] produces for the
    single-frame message of node 42 (priority 4, subject 7168, payload
    10 20 30 hex, transfer-ID 1) is the expected one, and a receiver
    subscribed to that subject answers 0 to it and leaves the transfer of
    the caller blank; it only allocates a session. *)
Theorem roundtrip_not_delivered :
  exists h' tx',
    canardTxPush (heap_of [true]) (Some (instance_of 8 42)) (Some scenario1_transfer)
      = Some (1%Z, h', tx') /\
    canardTxPeek tx' (Some blank_frame) = (1%Z, Some scenario1_frame) /\
    exists hr rx',
      canardRxAccept (heap_of [true]) (Some (subscriber 9 7168 64))
                     (Some scenario1_frame) 0
                     (Some blank_transfer)
      = (0%Z, hr, rx', Some blank_transfer) /\
      n_allocated hr = 1%nat.
Proof.
  eexists _, _. split; [vm_compute; reflexivity|].
  split; [vm_compute; reflexivity|].
  eexists _, _. split; [vm_compute; reflexivity|]. reflexivity.
Qed.

(** X1: Only an anonymous frame makes [canardRxAccept] return 1: for a frame
    that names its source the session update is a stub, so the result is
    0 or an error whatever the frame completes. *)
Theorem canardRxAccept_delivers_only_anonymous h ins frame iface out_transfer :
  (canardRxAccept h ins frame iface out_transfer).1.1.1 = 1%Z ->
  exists f, frame = Some f /\ id_is_anonymous (fr_extended_can_id f) = true.
Proof.
  unfold canardRxAccept.
  destruct ins as [i|]; [|discriminate].
  destruct out_transfer as [t|]; [|discriminate].
  destruct frame as [f|]; [|discriminate].
  destruct (_ && _); [|discriminate].
  intros Hone. exists f. split; [reflexivity|].
  destruct (Nat.eq_dec (fr_payload_size f) 0%nat) as [Hz|Hnz].
  { unfold tryParseFrame in Hone. rewrite Hz in Hone. discriminate. }
  rewrite tryParseFrame_fields in Hone by lia.
  destruct (negb (unparseable f)); [|discriminate].
  destruct (_ || _); [|discriminate].
  destruct (id_is_anonymous (fr_extended_can_id f)) eqn:Hanon; [reflexivity|].
  match type of Hone with
  | context [acceptFrame ?a ?b ?c ?d ?e] =>
      pose proof (acceptFrame_with_source a b c d e) as Hsrc;
      destruct (acceptFrame a b c d e) as [[[out h'] i'] t']
  end.
  cbn [fst] in Hone. cbn [fm_source_node_id] in Hsrc.
  destruct Hsrc as [Hle _]; [|lia].
  unfold id_source, CANARD_NODE_ID_MAX.
  pose proof (N.mod_lt (fr_extended_can_id f) 128 ltac:(discriminate)). lia.
Qed.

Lemma canardRxAccept_delivers_only_anonymous_witness :
  exists f,
    Some sample_anonymous_frame = Some f /\
    id_is_anonymous (fr_extended_can_id f) = true.
Proof.
  apply (canardRxAccept_delivers_only_anonymous
           (heap_of []) (Some (subscriber 9 100 2)) (Some sample_anonymous_frame)
           0 (Some blank_transfer)).
  reflexivity.
Defined.

(** ** Transmission queue: removal *)

Section Pop.

Lemma memory_free_live h b x :
  x ∈ live (memory_free h (Some b)) <-> x ∈ live h /\ x <> b.
Proof. cbn. rewrite list_elem_of_filter. tauto. Qed.

End Pop.

(** C10: [canardTxPop] on a NULL instance or an empty queue changes nothing;
    otherwise it hands the head item, and only it, to [memory_free], the
    queue becomes the items that followed the head, and the other fields of
    the instance stay as they were. *)
Theorem canardTxPop_effect h ins :
  ((ins = None \/ exists i, ins = Some i /\ tx_queue i = []) ->
   canardTxPop h ins = (h, ins)) /\
  (forall i first rest,
      ins = Some i -> tx_queue i = first :: rest ->
      exists h' i',
        canardTxPop h ins = (h', Some i') /\ popped h i first rest h' i').
Proof.
  split.
  - intros [->|(i & -> & Hq)]; [reflexivity|]. cbn. rewrite Hq. reflexivity.
  - intros i first rest -> Hq. cbn [canardTxPop]. rewrite Hq.
    eexists _, _. split; [reflexivity|].
    repeat split; try reflexivity.
    + intros Hin. apply memory_free_live in Hin. tauto.
    + intros Hin. apply memory_free_live in Hin. tauto.
    + intros Hin. apply memory_free_live. tauto.
Qed.

Lemma canardTxPop_effect_witness :
  exists h' i',
    canardTxPop sample_heap (Some sample_sender) = (h', Some i') /\
    popped sample_heap sample_sender (sample_item 0 0x100) [sample_item 1 0x200] h' i'.
Proof.
  exact (proj2 (canardTxPop_effect sample_heap (Some sample_sender))
           sample_sender (sample_item 0 0x100) [sample_item 1 0x200]
           eq_refl eq_refl).
Defined.

(** ** The DLC tables *)

Section Tables.

Lemma below_forallb (P : nat -> bool) n :
  forallb P (seq 0 n) = true -> forall x, (x < n)%nat -> P x = true.
Proof.
  intros H x Hx. rewrite forallb_forall in H. apply H. apply in_seq. lia.
Qed.

Lemma roundFramePayloadSizeUp_range x :
  (x <= 64)%nat ->
  (x <= roundFramePayloadSizeUp x <= 64)%nat.
Proof.
  intros Hx.
  assert (H := below_forallb
                 (fun x => (x <=? roundFramePayloadSizeUp x)%nat
                           && (roundFramePayloadSizeUp x <=? 64)%nat)
                 65 eq_refl x ltac:(lia)).
  cbv beta in H. apply andb_true_iff in H as [H1 H2].
  apply Nat.leb_le in H1, H2. lia.
Qed.

Lemma roundFramePayloadSizeUp_small x :
  (x <= 8)%nat -> roundFramePayloadSizeUp x = x.
Proof.
  intros Hx.
  assert (H := below_forallb (fun x => (roundFramePayloadSizeUp x =? x)%nat)
                 9 eq_refl x ltac:(lia)).
  apply Nat.eqb_eq in H. exact H.
Qed.

(** The presentation-layer MTU is a valid frame length less the tail
    byte. *)
Lemma getPresentationLayerMTU_range ins :
  (7 <= getPresentationLayerMTU ins <= 63)%nat /\
  roundFramePayloadSizeUp (getPresentationLayerMTU ins + 1) = (getPresentationLayerMTU ins + 1)%nat.
Proof.
  unfold getPresentationLayerMTU.
  destruct (Nat.ltb_spec (mtu_bytes ins) CANARD_MTU_CAN_CLASSIC) as [Hlt|Hge];
    [split; [cbn; lia|reflexivity]|].
  destruct (Nat.leb_spec (mtu_bytes ins) (length CanardCANLengthToDLC - 1)) as [Hle|Hgt];
    [|split; [cbn; lia|reflexivity]].
  change (length CanardCANLengthToDLC - 1)%nat with 64%nat in Hle.
  fold (roundFramePayloadSizeUp (mtu_bytes ins)).
  set (chk := fun b => (8 <=? b)%nat
     || ((7 <=? roundFramePayloadSizeUp b - 1)%nat
         && (roundFramePayloadSizeUp b - 1 <=? 63)%nat
         && (roundFramePayloadSizeUp (roundFramePayloadSizeUp b - 1 + 1)
             =? roundFramePayloadSizeUp b - 1 + 1)%nat)).
  unfold CANARD_MTU_CAN_CLASSIC in Hge.
  assert (H := below_forallb
     (fun b => (b <? 8)%nat
        || ((7 <=? roundFramePayloadSizeUp b - 1)%nat
            && (roundFramePayloadSizeUp b - 1 <=? 63)%nat
            && (roundFramePayloadSizeUp (roundFramePayloadSizeUp b - 1 + 1)
                =? roundFramePayloadSizeUp b - 1 + 1)%nat))
     65 eq_refl (mtu_bytes ins) ltac:(lia)).
  clear chk. cbv beta in H.
  destruct (Nat.ltb_spec (mtu_bytes ins) 8) as [|_]; [lia|]. cbn [orb] in H.
  apply andb_true_iff in H as [H H3]. apply andb_true_iff in H as [H1 H2].
  apply Nat.leb_le in H1, H2. apply Nat.eqb_eq in H3. split; [lia|exact H3].
Qed.

End Tables.

(** ** Writing into a fresh block *)

Section Writes.

Context (junk : N).

Lemma fill_copy (src : list N) n m :
  (n <= m)%nat -> (n <= length src)%nat ->
  memcpy_at (replicate m junk) 0 src n = take n src ++ replicate (m - n) junk.
Proof.
  intros Hnm Hsrc. unfold memcpy_at.
  replace m with (n + (m - n))%nat at 1 by lia.
  rewrite replicate_add. apply list_inserts_0_r.
  rewrite length_take, length_replicate. lia.
Qed.

Lemma fill_byte (w : list N) n r v :
  n = length w ->
  <[n := v]> (w ++ replicate (S r) junk) = (w ++ [v]) ++ replicate r junk.
Proof.
  intros ->. rewrite insert_app_r_alt by lia. rewrite Nat.sub_diag. cbn.
  rewrite <- app_assoc. reflexivity.
Qed.

Lemma fill_set (w : list N) off r c n :
  off = length w ->
  (n <= r)%nat ->
  memset_at (w ++ replicate r junk) off c n
  = (w ++ replicate n c) ++ replicate (r - n) junk.
Proof.
  intros -> Hn. unfold memset_at.
  replace (length w) with (length w + 0)%nat at 1 by lia.
  rewrite list_inserts_app_r.
  replace r with (n + (r - n))%nat at 1 by lia.
  rewrite replicate_add, list_inserts_0_r by (rewrite !length_replicate; reflexivity).
  rewrite app_assoc. reflexivity.
Qed.

Lemma padding_while_spec passes : forall (w : list N) r crc fps fo,
  fo = length w ->
  (fo + r = S fps)%nat ->
  (fps <= passes + fo)%nat ->
  let k := (fps - (fo + 2))%nat in
  padding_while passes (w ++ replicate r junk) fo crc fps
  = ((w ++ replicate k PADDING_BYTE) ++ replicate (r - k) junk,
     (fo + k)%nat, crc_pad k crc).
Proof.
  induction passes as [|p IH]; intros w r crc fps fo -> Hlen Hp k;
    cbn [padding_while].
  - replace k with 0%nat by lia. cbn. rewrite app_nil_r, Nat.sub_0_r, Nat.add_0_r.
    reflexivity.
  - unfold CRC_SIZE_BYTES.
    destruct (Nat.ltb_spec (length w + 2) fps) as [Hlt|Hge].
    + destruct r as [|r]; [lia|]. rewrite fill_byte by reflexivity.
      rewrite (IH (w ++ [PADDING_BYTE]) r _ fps (S (length w)))
        by (rewrite ?length_app; cbn; lia).
      replace k with (S (fps - (S (length w) + 2)))%nat by lia.
      cbn [replicate]. rewrite <- !app_assoc. cbn.
      f_equal. f_equal. lia.
    + replace k with 0%nat by lia. cbn. rewrite app_nil_r, Nat.sub_0_r, Nat.add_0_r.
      reflexivity.
Qed.

End Writes.

(** ** One pass of the frame loop *)

Section Fill.

Context (junk : N) (tqi : CanardInternalTxQueueItem) (fps ps : nat)
        (sot tog : bool) (tid : N).
Hypothesis Hfresh : tqi_payload tqi = replicate (S fps) junk.
Hypothesis Hfps : (1 <= fps)%nat.

Lemma fill_outcome_length offset crc ptr :
  (offset <= S ps)%nat ->
  (offset = S ps -> fps = 1%nat) ->
  (ps - offset <= length ptr)%nat ->
  length (fill_outcome offset fps ps crc ptr).1.1 = fps.
Proof.
  intros Ho H1 Hptr. unfold fill_outcome.
  destruct (Nat.ltb_spec fps (ps - offset)); [cbn; rewrite length_take; lia|].
  destruct (Nat.eqb_spec offset (S ps)) as [He|Hne]; [cbn; symmetry; auto|].
  destruct (fps - (ps - offset))%nat as [|[|k]] eqn:Hk; cbn;
    rewrite ?length_app, ?length_take, ?length_replicate; cbn; lia.
Qed.

Lemma pushMultiFrameTransfer_fill_spec offset crc ptr :
  (offset <= S ps)%nat ->
  (offset = S ps -> fps = 1%nat) ->
  (ps - offset <= length ptr)%nat ->
  pushMultiFrameTransfer_fill tqi (S fps) offset crc sot tog ptr tid ps
  = (set_tqi_payload tqi
       ((fill_outcome offset fps ps crc ptr).1.1
        ++ [makeTailByte sot
              (ps + CRC_SIZE_BYTES <=? (fill_outcome offset fps ps crc ptr).1.2)%nat
              tog tid]),
     (fill_outcome offset fps ps crc ptr).1.2,
     (fill_outcome offset fps ps crc ptr).2,
     drop ((fill_outcome offset fps ps crc ptr).1.2 `min` ps - offset) ptr).
Proof.
  intros Ho H1 Hptr.
  unfold pushMultiFrameTransfer_fill, fill_outcome.
  rewrite Hfresh. replace (S fps - 1)%nat with fps by lia.
  destruct (Nat.ltb_spec offset ps) as [Hlt|Hge].
  - destruct (Nat.ltb_spec fps (ps - offset)) as [Hin|Hend].
    + (* a frame inside the payload *)
      rewrite fill_copy by lia. cbn [Nat.add].
      destruct (Nat.leb_spec ps (offset + fps)) as [|_]; [lia|].
      replace (S fps - fps)%nat with 1%nat by lia.
      rewrite (fill_byte junk _ fps 0) by (rewrite length_take; lia).
      cbn [fst snd replicate]. rewrite app_nil_r.
      repeat f_equal. lia.
    + (* the frame that takes the end of the payload *)
      rewrite fill_copy by lia. cbn [Nat.add].
      replace (offset + (ps - offset))%nat with ps by lia.
      destruct (Nat.eqb_spec offset (S ps)) as [|_]; [lia|].
      rewrite Nat.leb_refl.
      set (m := (ps - offset)%nat) in *.
      assert (Hm : length (take m ptr) = m) by (rewrite length_take; lia).
      rewrite (padding_while_spec junk fps (take m ptr) (S fps - m) crc fps m)
        by lia.
      rewrite Nat.eqb_refl, andb_true_r.
      destruct (fps - m)%nat as [|[|k]] eqn:Hk.
      * replace (fps - (m + 2))%nat with 0%nat by lia.
        replace (S fps - m - 0)%nat with 1%nat by lia.
        rewrite Nat.add_0_r. cbn [replicate]. rewrite app_nil_r.
        destruct (Nat.ltb_spec m fps) as [|_]; [lia|]. cbv beta iota zeta.
        rewrite Nat.ltb_irrefl, andb_false_r. cbv beta iota zeta.
        rewrite (fill_byte junk _ m 0) by lia.
        cbn [fst snd replicate]. rewrite app_nil_r.
        repeat f_equal. lia.
      * replace (fps - (m + 2))%nat with 0%nat by lia.
        replace (S fps - m - 0)%nat with 2%nat by lia.
        rewrite Nat.add_0_r. cbn [replicate]. rewrite app_nil_r.
        destruct (Nat.ltb_spec m fps) as [_|]; [|lia]. cbv beta iota zeta.
        destruct (Nat.ltb_spec (S m) fps) as [|_]; [lia|]. cbv beta iota zeta.
        cbn [andb]. cbv beta iota zeta.
        rewrite (fill_byte junk _ m 1) by lia.
        rewrite (fill_byte junk _ (S m) 0) by (rewrite length_app; cbn; lia).
        cbn [fst snd replicate]. rewrite app_nil_r.
        repeat f_equal. lia.
      * replace (fps - (m + 2))%nat with k by lia.
        replace (S fps - m - k)%nat with 3%nat by lia.
        destruct (Nat.ltb_spec (m + k) fps) as [_|]; [|lia]. cbv beta iota zeta.
        destruct (Nat.ltb_spec (S (m + k)) fps) as [_|]; [|lia].
        destruct (Nat.ltb_spec ps (S ps)) as [_|]; [|lia]. cbn [andb].
        cbv beta iota zeta.
        rewrite (fill_byte junk _ (m + k) 2)
          by (rewrite length_app, length_replicate; lia).
        rewrite (fill_byte junk _ (S (m + k)) 1)
          by (rewrite !length_app, length_replicate; cbn; lia).
        rewrite (fill_byte junk _ (S (S (m + k))) 0)
          by (rewrite !length_app, length_replicate; cbn; lia).
        cbn [fst snd replicate]. rewrite app_nil_r.
        unfold crc_be_bytes. rewrite <- !app_assoc. cbn [app].
        repeat f_equal. lia.
  - destruct (Nat.leb_spec ps offset) as [_|]; [|lia].
    destruct (Nat.ltb_spec fps (ps - offset)) as [|_]; [lia|].
    change (replicate (S fps) junk) with ([] ++ replicate (S fps) junk).
    rewrite (padding_while_spec junk fps [] (S fps) crc fps 0) by (cbn; lia).
    cbn [app Nat.add]. cbv beta iota zeta.
    destruct (Nat.eqb_spec offset (S ps)) as [He|Hne].
    + (* only the low CRC byte is left *)
      rewrite (H1 He). subst offset. cbn [Nat.sub replicate app].
      destruct (Nat.eqb_spec (S ps) ps) as [|_]; [lia|].
      rewrite andb_false_r. cbv beta iota zeta.
      destruct (Nat.ltb_spec ps (S ps)) as [_|]; [|lia]. cbn [Nat.ltb Nat.leb andb].
      cbv beta iota zeta.
      rewrite (fill_byte junk [] 0 1) by reflexivity.
      rewrite (fill_byte junk _ 1 0) by reflexivity.
      cbn [fst snd replicate app]. unfold crc_pad, crcAdd. cbn [crcAdd_for].
      repeat f_equal. replace (S (S ps) `min` ps - S ps)%nat with 0%nat by lia.
      reflexivity.
    + assert (offset = ps) by lia. subst offset.
      rewrite Nat.sub_diag, Nat.sub_0_r, Nat.eqb_refl, andb_true_r.
      destruct fps as [|[|k]]; [lia| |].
      * cbn [Nat.sub replicate app Nat.ltb Nat.leb andb]. cbv beta iota zeta.
        unfold crc_pad, crcAdd. cbn [crcAdd_for fst snd take app].
        replace (S ps `min` ps - ps)%nat with 0%nat by lia. reflexivity.
      * replace (S (S k) - 2)%nat with k by lia.
        replace (S (S (S k)) - k)%nat with 3%nat by lia.
        destruct (Nat.ltb_spec k (S (S k))) as [_|]; [|lia]. cbv beta iota zeta.
        destruct (Nat.ltb_spec (S k) (S (S k))) as [_|]; [|lia].
        destruct (Nat.ltb_spec ps (S ps)) as [_|]; [|lia]. cbn [andb].
        cbv beta iota zeta.
        rewrite (fill_byte junk _ k 2) by (rewrite length_replicate; lia).
        rewrite (fill_byte junk _ (S k) 1)
          by (rewrite !length_app, length_replicate; cbn; lia).
        rewrite (fill_byte junk _ (S (S k)) 0)
          by (rewrite !length_app, length_replicate; cbn; lia).
        cbn [fst snd replicate take]. rewrite app_nil_r.
        unfold crc_be_bytes. rewrite <- !app_assoc. cbn [app].
        repeat f_equal. replace (S (S ps) `min` ps - ps)%nat with 0%nat by lia.
        reflexivity.
Qed.

End Fill.

(** ** Chains of frames *)

Section Chains.

Lemma frame_body_snoc it body t :
  tqi_payload it = body ++ [t] -> frame_body it = body.
Proof.
  intros H. unfold frame_body. rewrite H, length_app. cbn.
  replace (length body + 1 - 1)%nat with (length body) by lia.
  apply take_app_length.
Qed.

Lemma frame_tail_byte_snoc it body t :
  tqi_payload it = body ++ [t] -> frame_tail_byte it = t.
Proof.
  intros H. unfold frame_tail_byte. rewrite H, length_app. cbn.
  replace (length body + 1 - 1)%nat with (length body) by lia.
  rewrite app_nth2 by lia. rewrite Nat.sub_diag. reflexivity.
Qed.

Lemma chain_stream_snoc chain it :
  chain_stream (chain ++ [it]) = chain_stream chain ++ frame_body it.
Proof.
  unfold chain_stream. rewrite fmap_app, concat_app. cbn.
  rewrite app_nil_r. reflexivity.
Qed.

Lemma chain_tail_bytes_snoc tid final chain it body :
  chain_tail_bytes tid false chain ->
  tqi_payload it
  = body ++ [makeTailByte (length chain =? 0)%nat final (Nat.even (length chain)) tid] ->
  length (tqi_payload it) = tqi_payload_size it ->
  chain_tail_bytes tid final (chain ++ [it]).
Proof.
  intros Hc Hp Hl j x Hj.
  apply lookup_app_Some in Hj as [Hj|[Hge Hj]].
  - destruct (Hc j x Hj) as (b & Hpx & Hlx).
    exists b. split; [|exact Hlx].
    rewrite Hpx. cbn [andb]. apply lookup_lt_Some in Hj.
    rewrite length_app. cbn [length].
    destruct (Nat.eqb_spec (S j) (length chain + 1)) as [|_]; [lia|].
    rewrite andb_false_r. reflexivity.
  - apply list_lookup_singleton_Some in Hj as [Hj <-].
    assert (j = length chain) by lia. subst j.
    exists body. split; [|exact Hl].
    rewrite Hp, length_app. cbn [length].
    replace (S (length chain) =? length chain + 1)%nat with true
      by (symmetry; apply Nat.eqb_eq; lia).
    rewrite andb_true_r. reflexivity.
Qed.

End Chains.

(** ** The frame loop of pushMultiFrameTransfer: what it emits *)

(** The room for body bytes in the frame that starts at [offset]. *)
Lemma frame_size_with_tail mtu ps offset :
  (1 <= mtu <= 63)%nat ->
  (offset < ps + 2)%nat ->
  exists fps,
    (if (ps + CRC_SIZE_BYTES - offset <? mtu)%nat
     then roundFramePayloadSizeUp (ps + CRC_SIZE_BYTES - offset + 1)
     else (mtu + 1)%nat) = S fps /\
    (1 <= fps)%nat /\
    (offset = S ps -> fps = 1%nat) /\
    ((ps + 2 - offset < mtu)%nat -> (ps + 2 - offset <= fps)%nat) /\
    ((mtu <= ps + 2 - offset)%nat -> fps = mtu).
Proof.
  intros Hmtu Ho. unfold CRC_SIZE_BYTES.
  destruct (Nat.ltb_spec (ps + 2 - offset) mtu) as [Hlt|Hge].
  - pose proof (roundFramePayloadSizeUp_range (ps + 2 - offset + 1) ltac:(lia)) as Hr.
    exists (roundFramePayloadSizeUp (ps + 2 - offset + 1) - 1)%nat.
    split; [lia|]. split; [lia|]. split; [|split; [lia|lia]].
    intros ->. replace (ps + 2 - S ps + 1)%nat with 2%nat by lia. reflexivity.
  - exists mtu. split; [lia|]. split; [lia|]. split; [lia|]. split; [lia|auto].
Qed.

Section FrameLoop.

Context (mtu : nat) (deadline_usec can_id tid : N) (ps : nat) (bytes : list N).
Hypothesis Hmtu : (1 <= mtu <= 63)%nat.
Hypothesis Hbytes : (ps <= length bytes)%nat.

Let crc0 := crcAdd CRC_INITIAL ps bytes.

Lemma fill_outcome_step chain offset crc ptr fps it :
  stream_state ps bytes crc0 chain offset crc ptr ->
  (offset < ps + 2)%nat ->
  (1 <= fps)%nat ->
  (offset = S ps -> fps = 1%nat) ->
  frame_body it = (fill_outcome offset fps ps crc ptr).1.1 ->
  let o' := (fill_outcome offset fps ps crc ptr).1.2 in
  (offset < o' <= ps + 2)%nat /\
  stream_state ps bytes crc0 (chain ++ [it]) o'
               (fill_outcome offset fps ps crc ptr).2
               (drop (o' `min` ps - offset) ptr).
Proof.
  intros Hst Ho Hfps Hlow Hbody o'. subst o'. unfold stream_state.
  rewrite chain_stream_snoc, Hbody. unfold fill_outcome.
  destruct Hst as [(Hle & Hs & -> & ->)|[(-> & Hs & ->)|(-> & _)]]; [| |lia].
  - destruct (Nat.ltb_spec fps (ps - offset)) as [Hin|Hend]; cbn [fst snd].
    + split; [lia|]. left. split; [lia|].
      rewrite Hs, take_take_drop, drop_drop.
      replace ((offset + fps) `min` ps - offset)%nat with fps by lia. auto.
    + destruct (Nat.eqb_spec offset (S ps)) as [|_]; [lia|].
      assert (Hcut : take offset bytes ++ take (ps - offset) (drop offset bytes)
                     = take ps bytes).
      { rewrite take_take_drop. f_equal. lia. }
      destruct (fps - (ps - offset))%nat as [|[|k]] eqn:Hk; cbn [fst snd].
      * split; [lia|]. left. split; [lia|]. rewrite Hs, Hcut, drop_drop.
        replace (offset + (ps `min` ps - offset))%nat with ps by lia. auto.
      * split; [lia|]. right. left. split; [reflexivity|].
        rewrite Hs, app_assoc, Hcut. auto.
      * split; [lia|]. right. right. split; [reflexivity|]. exists k.
        rewrite Hs, app_assoc, Hcut. split; [reflexivity|].
        right. exists it. rewrite last_snoc, Hbody. split; [reflexivity|].
        unfold fill_outcome.
        destruct (Nat.ltb_spec fps (ps - offset)) as [|_]; [lia|].
        destruct (Nat.eqb_spec offset (S ps)) as [|_]; [lia|].
        rewrite Hk. cbn [fst snd].
        rewrite !length_app, length_replicate. cbn. lia.
  - destruct (Nat.ltb_spec fps (ps - S ps)) as [|_]; [lia|].
    rewrite Nat.eqb_refl. cbn [fst snd].
    split; [lia|]. right. right. split; [reflexivity|]. exists 0%nat.
    split; [|left; reflexivity].
    rewrite Hs, <- app_assoc. reflexivity.
Qed.

Lemma frame_loop_shape passes :
  forall h out chain tail_is_null offset crc sot tog ptr,
    frame_loop_inv ps bytes crc0 tid out chain tail_is_null offset crc sot tog ptr ->
    (ps + 2 - offset <= passes)%nat ->
    exists e,
      pushMultiFrameTransfer_while passes h mtu deadline_usec can_id tid ps
                                   out chain tail_is_null offset crc sot tog ptr
      = Some e /\
      (fle_tail_is_null e = false ->
       exists crc' sot' tog' ptr',
         frame_loop_inv ps bytes crc0 tid (fle_out e) (fle_chain e) false
                        (ps + 2) crc' sot' tog' ptr').
Proof.
  induction passes as [|passes IH];
    intros h out chain tail_is_null offset crc sot tog ptr Hinv Hpasses.
  - cbn [pushMultiFrameTransfer_while]. unfold CRC_SIZE_BYTES.
    destruct (Nat.ltb_spec offset (ps + 2)) as [|Hdone]; [lia|].
    eexists. split; [reflexivity|]. cbn [fle_tail_is_null fle_out fle_chain].
    intros ->. exists crc, sot, tog, ptr.
    assert (offset = ps + 2)%nat as ->.
    { destruct Hinv as (_ & _ & _ & _ & _ & _ & [H|[H|H]]); lia. }
    exact Hinv.
  - cbn [pushMultiFrameTransfer_while].
    destruct (Nat.ltb_spec offset (ps + CRC_SIZE_BYTES)) as [Hgo|Hdone].
    2:{ unfold CRC_SIZE_BYTES in Hdone.
        eexists. split; [reflexivity|]. cbn [fle_tail_is_null fle_out fle_chain].
        intros ->. exists crc, sot, tog, ptr.
        assert (offset = ps + 2)%nat as ->.
        { destruct Hinv as (_ & _ & _ & _ & _ & _ & [H|[H|H]]); lia. }
        exact Hinv. }
    unfold CRC_SIZE_BYTES in Hgo.
    destruct (frame_size_with_tail mtu ps offset Hmtu Hgo) as (fps & -> & Hfps & Hlow & Hlast & Hfull).
    unfold allocateTxQueueItem.
    destruct (memory_allocate h _) as [[b|] h'].
    2:{ eexists. split; [reflexivity|]. cbn. discriminate. }
    destruct Hinv as (Hout & Hsot & Htog & Hnull & Htails & Hbodies & Hstream).
    assert (Hoff : (offset <= S ps)%nat) by lia.
    assert (Hptr : (ps - offset <= length ptr)%nat).
    { destruct Hstream as [(_ & _ & -> & _)|[(-> & _)|(-> & _)]];
        rewrite ?length_drop; lia. }
    set (tqi := {| tqi_block := b; tqi_deadline_usec := deadline_usec;
                   tqi_payload_size := S fps; tqi_id := can_id;
                   tqi_payload := replicate (S fps) (junk h) |}).
    rewrite (pushMultiFrameTransfer_fill_spec (junk h) tqi fps ps sot tog tid
               eq_refl Hfps offset crc ptr Hoff Hlow Hptr).
    pose proof (fill_outcome_length fps ps Hfps offset crc ptr Hoff Hlow Hptr) as Hlen.
    set (body := (fill_outcome offset fps ps crc ptr).1.1) in *.
    set (o' := (fill_outcome offset fps ps crc ptr).1.2) in *.
    set (it := set_tqi_payload tqi _).
    assert (Hit : frame_body it = body) by (eapply frame_body_snoc; reflexivity).
    destruct (fill_outcome_step chain offset crc ptr fps it Hstream Hgo Hfps Hlow Hit)
      as (Hprog & Hstream').
    fold o' in Hprog, Hstream'.
    apply IH; [|lia].
    split; [rewrite length_app; cbn; lia|].
    split; [rewrite length_app; cbn; symmetry; apply Nat.eqb_neq; lia|].
    split; [rewrite length_app, Nat.add_1_r, Nat.even_succ, <- Nat.negb_even;
            congruence|].
    split; [rewrite length_app; cbn; symmetry; apply Nat.eqb_neq; lia|].
    split; [|split; [|exact Hstream']].
    + eapply chain_tail_bytes_snoc with (body := body).
      * replace (ps + CRC_SIZE_BYTES <=? offset)%nat with false in Htails;
          [exact Htails|].
        symmetry. apply Nat.leb_gt. unfold CRC_SIZE_BYTES. lia.
      * subst it. cbn [tqi_payload set_tqi_payload]. rewrite <- Hsot, <- Htog.
        reflexivity.
      * subst it. cbn. rewrite length_app, Hlen. cbn. lia.
    + apply Forall_app. split; [exact Hbodies|]. constructor; [|constructor].
      rewrite Hit. intros E. rewrite E in Hlen. cbn in Hlen. lia.
Qed.

End FrameLoop.

(** ** The frame loop: termination and the allocator *)

Section FrameLoopControl.

Lemma padding_while_offset passes : forall pl fo crc fps,
  (fo < fps)%nat -> ((padding_while passes pl fo crc fps).1.2 < fps)%nat.
Proof.
  induction passes as [|p IH]; intros pl fo crc fps Hfo; cbn [padding_while].
  - exact Hfo.
  - unfold CRC_SIZE_BYTES.
    destruct (Nat.ltb_spec (fo + 2) fps); [apply IH; lia|exact Hfo].
Qed.

(** The pass keeps the item it was given and only writes its payload. *)
Lemma pushMultiFrameTransfer_fill_item tqi fpswt offset crc sot tog ptr tid ps :
  exists pl,
    (pushMultiFrameTransfer_fill tqi fpswt offset crc sot tog ptr tid ps).1.1.1
    = set_tqi_payload tqi pl.
Proof.
  unfold pushMultiFrameTransfer_fill.
  repeat match goal with
         | |- context [padding_while ?a ?b ?c ?d ?e] =>
             destruct (padding_while a b c d e) as [[? ?] ?]
         | |- context [if ?b then _ else _] => destruct b
         end; cbn; eauto.
Qed.

(** Every pass moves [offset] forward. *)
Lemma pushMultiFrameTransfer_fill_progress tqi fps offset crc sot tog ptr tid ps :
  (1 <= fps)%nat -> (offset < ps + 2)%nat ->
  (offset <
   (pushMultiFrameTransfer_fill tqi (S fps) offset crc sot tog ptr tid ps).1.1.2)%nat.
Proof.
  intros Hfps Ho. unfold pushMultiFrameTransfer_fill.
  replace (S fps - 1)%nat with fps by lia.
  destruct (Nat.ltb_spec offset ps) as [Hlt|Hge].
  - set (move := if (fps <? ps - offset)%nat then fps else (ps - offset)%nat).
    assert (Hmove : (1 <= move)%nat)
      by (subst move; destruct (Nat.ltb_spec fps (ps - offset)); lia).
    destruct (Nat.leb_spec ps (offset + move)); [|cbn; lia].
    destruct (padding_while _ _ _ _ _) as [[pl fo] c].
    repeat match goal with
           | |- context [if ?b then _ else _] => destruct b
           end; cbn; lia.
  - destruct (Nat.leb_spec ps offset) as [_|]; [|lia].
    pose proof (padding_while_offset fps (tqi_payload tqi) 0 crc fps ltac:(lia)) as Hfo.
    destruct (padding_while _ _ _ _ _) as [[pl fo] c]. cbn [fst snd] in Hfo.
    destruct (Nat.ltb_spec fo fps) as [_|]; [|lia]. cbn [andb].
    destruct (Nat.eqb_spec offset ps) as [->|Hne].
    + repeat match goal with
             | |- context [if ?b then _ else _] => destruct b
             end; cbn; lia.
    + destruct (Nat.ltb_spec fo fps) as [_|]; [|lia].
      destruct (Nat.ltb_spec ps offset) as [_|]; [|lia]. cbn. lia.
Qed.

Context (mtu : nat) (deadline_usec can_id tid : N) (ps : nat).
Hypothesis Hmtu : (1 <= mtu <= 63)%nat.

(** The loop ends within [ps + 2 - offset] passes. *)
Lemma frame_loop_total passes :
  forall h out chain tail_is_null offset crc sot tog ptr,
    (ps + 2 - offset <= passes)%nat ->
    exists e,
      pushMultiFrameTransfer_while passes h mtu deadline_usec can_id tid ps
                                   out chain tail_is_null offset crc sot tog ptr
      = Some e.
Proof.
  induction passes as [|passes IH];
    intros h out chain tail_is_null offset crc sot tog ptr Hpasses;
    cbn [pushMultiFrameTransfer_while]; unfold CRC_SIZE_BYTES.
  - destruct (Nat.ltb_spec offset (ps + 2)); [lia|eauto].
  - destruct (Nat.ltb_spec offset (ps + 2)) as [Hgo|]; [|eauto].
    destruct (frame_size_with_tail mtu ps offset Hmtu Hgo)
      as (fps & Hsz & Hfps & _).
    unfold CRC_SIZE_BYTES in Hsz. rewrite Hsz.
    destruct (allocateTxQueueItem h can_id deadline_usec (S fps)) as [[tqi|] h'];
      [|eauto].
    pose proof (pushMultiFrameTransfer_fill_progress tqi fps offset crc sot tog
                  ptr tid ps Hfps Hgo) as Hprog.
    destruct (pushMultiFrameTransfer_fill _ _ _ _ _ _ _ _ _) as [[[it o'] c'] p'].
    cbn [fst snd] in Hprog. apply IH. lia.
Qed.

End FrameLoopControl.

Section FrameLoopHeap.

Lemma memory_allocate_granted h amount b h' :
  memory_allocate h amount = (Some b, h') ->
  b = next_block h /\ next_block h' = S (next_block h) /\
  live h' = b :: live h /\ n_allocated h' = S (n_allocated h) /\
  n_refused h' = n_refused h /\ n_freed h' = n_freed h /\ junk h' = junk h.
Proof.
  unfold memory_allocate. destruct (answers h) as [|[|] rest]; intros [= <- <-];
    cbn; auto 10.
Qed.

Lemma memory_allocate_refused h amount h' :
  memory_allocate h amount = (None, h') ->
  next_block h' = next_block h /\ live h' = live h /\
  n_allocated h' = n_allocated h /\ n_refused h' = S (n_refused h) /\
  n_freed h' = n_freed h /\ junk h' = junk h.
Proof.
  unfold memory_allocate. destruct (answers h) as [|[|] rest]; intros [= <-];
    cbn; auto 10.
Qed.

Lemma allocated_chain_nil h : allocated_chain h h [].
Proof. unfold allocated_chain. cbn. rewrite !Nat.add_0_r. auto 10. Qed.

Lemma allocated_chain_cons h h1 h2 it new :
  tqi_block it = next_block h ->
  next_block h1 = S (next_block h) ->
  live h1 = tqi_block it :: live h ->
  n_allocated h1 = S (n_allocated h) ->
  n_freed h1 = n_freed h -> junk h1 = junk h ->
  allocated_chain h1 h2 new ->
  allocated_chain h h2 (it :: new).
Proof.
  intros Hb Hn Hl Ha Hf Hj (Hbs & Hn2 & Ha2 & Hf2 & Hl2 & Hj2).
  unfold allocated_chain. cbn [fmap list_fmap length seq].
  rewrite Hb, Hbs, Hn, Hn2, Ha2, Hf2, Hl2, Hj2, Hl, Hb, Hn, Ha, Hf, Hj.
  rewrite reverse_cons, <- app_assoc. cbn.
  repeat split; try lia. rewrite Hbs, Hn. reflexivity.
Qed.

Context (mtu : nat) (deadline_usec can_id tid : N) (ps : nat).

(** The chain that leaves the loop is the chain that entered it followed by
    one item per allocation granted, each with the CAN-ID and deadline of
    the transfer; a refused allocation is what leaves [tail] NULL. *)
Lemma frame_loop_heap passes :
  forall h out chain tail_is_null offset crc sot tog ptr e,
    pushMultiFrameTransfer_while passes h mtu deadline_usec can_id tid ps
                                 out chain tail_is_null offset crc sot tog ptr
    = Some e ->
    (offset < ps + 2)%nat \/ tail_is_null = false ->
    exists new,
      fle_chain e = chain ++ new /\
      Forall (fun it => tqi_id it = can_id /\ tqi_deadline_usec it = deadline_usec) new /\
      allocated_chain h (fle_heap e) new /\
      n_refused (fle_heap e)
      = (n_refused h + if fle_tail_is_null e then 1 else 0)%nat /\
      fle_out e
      = (out + Z.of_nat (length new) + if fle_tail_is_null e then 1 else 0)%Z /\
      (fle_tail_is_null e = false -> tail_is_null = false \/ new <> []).
Proof.
  induction passes as [|passes IH];
    intros h out chain tail_is_null offset crc sot tog ptr e;
    cbn [pushMultiFrameTransfer_while]; unfold CRC_SIZE_BYTES.
  - destruct (Nat.ltb_spec offset (ps + 2)) as [|Hdone]; [discriminate|].
    intros [= <-] [ | -> ]; [lia|]. exists []. cbn.
    rewrite app_nil_r, Nat.add_0_r, !Z.add_0_r.
    auto 10 using allocated_chain_nil.
  - destruct (Nat.ltb_spec offset (ps + 2)) as [Hgo|Hdone].
    2:{ intros [= <-] [ | -> ]; [lia|]. exists []. cbn.
        rewrite app_nil_r, Nat.add_0_r, !Z.add_0_r.
        auto 10 using allocated_chain_nil. }
    unfold allocateTxQueueItem.
    destruct (memory_allocate h _) as [[b|] h'] eqn:Halloc.
    + set (tqi := {| tqi_block := b |}).
      destruct (pushMultiFrameTransfer_fill_item tqi
                  (if (ps + 2 - offset <? mtu)%nat
                   then roundFramePayloadSizeUp (ps + 2 - offset + 1)
                   else (mtu + 1)%nat)
                  offset crc sot tog ptr tid ps) as (pl & Hit).
      destruct (pushMultiFrameTransfer_fill _ _ _ _ _ _ _ _ _) as [[[it o'] c'] p'].
      cbn [fst snd] in Hit. subst it.
      intros Hrun _.
      destruct (IH _ _ _ _ _ _ _ _ _ _ Hrun (or_intror eq_refl))
        as (new & Hchain & Hids & Halloc' & Href & Hout & _).
      apply memory_allocate_granted in Halloc
        as (-> & Hn & Hl & Ha & Hr & Hf & Hj).
      exists (set_tqi_payload tqi pl :: new).
      split; [rewrite Hchain, <- app_assoc; reflexivity|].
      split; [constructor; [split; reflexivity|exact Hids]|].
      split; [eapply allocated_chain_cons; eauto|].
      split; [rewrite Href, Hr; reflexivity|].
      split; [rewrite Hout; cbn [length]; lia|].
      intros _. right. discriminate.
    + intros [= <-] _. exists []. cbn.
      apply memory_allocate_refused in Halloc as (Hn & Hl & Ha & Hr & Hf & Hj).
      rewrite app_nil_r. split; [reflexivity|]. split; [constructor|].
      split; [unfold allocated_chain; cbn; rewrite !Nat.add_0_r; auto 10|].
      split; [lia|]. split; [lia|discriminate].
Qed.

(** The clean-up loop frees every item of the chain once. *)
Lemma free_chain_counts chain : forall h,
  n_freed (free_chain h chain) = (n_freed h + length chain)%nat /\
  n_allocated (free_chain h chain) = n_allocated h /\
  n_refused (free_chain h chain) = n_refused h /\
  next_block (free_chain h chain) = next_block h /\
  answers (free_chain h chain) = answers h /\
  junk (free_chain h chain) = junk h.
Proof.
  induction chain as [|it chain IH]; intros h; cbn [free_chain length].
  - rewrite Nat.add_0_r. auto 10.
  - destruct (IH (memory_free h (Some (tqi_block it)))) as (-> & -> & -> & -> & -> & ->).
    cbn. repeat split. lia.
Qed.

Lemma filter_keep (P : nat -> Prop) `{!forall x, Decision (P x)} (l : list nat) :
  Forall P l -> filter P l = l.
Proof.
  induction 1 as [|x l Hx _ IH]; [reflexivity|].
  rewrite filter_cons_True by exact Hx. rewrite IH. reflexivity.
Qed.

Lemma free_chain_live chain : forall h b0 old,
  tqi_block <$> chain = seq b0 (length chain) ->
  Forall (fun b => (b < b0)%nat) old ->
  live h = reverse (tqi_block <$> chain) ++ old ->
  live (free_chain h chain) = old.
Proof.
  induction chain as [|it chain IH]; intros h b0 old Hblocks Hold Hlive;
    cbn [free_chain].
  - exact Hlive.
  - cbn [fmap list_fmap length seq] in *. injection Hblocks as Hb Hbs.
    apply (IH _ (S b0)).
    + exact Hbs.
    + eapply Forall_impl; [exact Hold|]. cbn. intros; lia.
    + cbn [memory_free live]. rewrite Hlive, reverse_cons, <- app_assoc.
      rewrite !filter_app.
      rewrite (filter_singleton_False _ _ []) by (intros H; apply H; reflexivity).
      rewrite !filter_keep; [reflexivity| |].
      * eapply Forall_impl; [exact Hold|]. cbn. intros; lia.
      * rewrite Hbs, Hb. apply Forall_forall. intros x Hx.
        apply elem_of_reverse, list_elem_of_In, in_seq in Hx. lia.
Qed.

End FrameLoopHeap.

(** ** The tail byte *)

Section TailByte.

Lemma flag_testbit (b : bool) k n :
  N.testbit (if b then 2 ^ k else 0) n = b && (k =? n).
Proof.
  destruct b; cbn [andb]; [apply N.pow2_bits_eqb|apply N.bits_0].
Qed.

Lemma makeTailByte_testbit s e t tid n :
  n < 8 ->
  N.testbit (makeTailByte s e t tid) n
  = (s && (7 =? n)) || (e && (6 =? n)) || (t && (5 =? n))
    || ((n <? 5) && N.testbit tid n).
Proof.
  intros Hn. unfold makeTailByte, u8.
  rewrite N.mod_pow2_bits_low by exact Hn.
  change TAIL_START_OF_TRANSFER with (2 ^ 7).
  change TAIL_END_OF_TRANSFER with (2 ^ 6).
  change TAIL_TOGGLE with (2 ^ 5).
  change CANARD_TRANSFER_ID_MAX with (N.ones 5).
  rewrite !N.lor_spec, !flag_testbit, N.land_ones.
  f_equal.
  destruct (N.ltb_spec n 5).
  - rewrite N.mod_pow2_bits_low by assumption. reflexivity.
  - rewrite N.mod_pow2_bits_high by assumption. reflexivity.
Qed.

Lemma makeTailByte_start s e t tid :
  tail_start_of_transfer (makeTailByte s e t tid) = s.
Proof.
  unfold tail_start_of_transfer. rewrite makeTailByte_testbit by reflexivity.
  cbn. rewrite !andb_false_r, !orb_false_r. apply andb_true_r.
Qed.

Lemma makeTailByte_end s e t tid :
  tail_end_of_transfer (makeTailByte s e t tid) = e.
Proof.
  unfold tail_end_of_transfer. rewrite makeTailByte_testbit by reflexivity.
  cbn. rewrite !andb_false_r, !orb_false_r. apply andb_true_r.
Qed.

Lemma makeTailByte_toggle s e t tid :
  tail_toggle (makeTailByte s e t tid) = t.
Proof.
  unfold tail_toggle. rewrite makeTailByte_testbit by reflexivity.
  cbn. rewrite !andb_false_r, !orb_false_r. apply andb_true_r.
Qed.

Lemma makeTailByte_transfer_id s e t tid :
  tail_transfer_id (makeTailByte s e t tid) = tid mod 32.
Proof.
  unfold tail_transfer_id. change 32 with (2 ^ 5).
  apply N.bits_inj. intros n.
  destruct (N.ltb_spec n 5) as [Hlt|Hge].
  - rewrite !N.mod_pow2_bits_low by assumption.
    rewrite makeTailByte_testbit by lia.
    replace (7 =? n) with false by (symmetry; apply N.eqb_neq; lia).
    replace (6 =? n) with false by (symmetry; apply N.eqb_neq; lia).
    replace (5 =? n) with false by (symmetry; apply N.eqb_neq; lia).
    replace (n <? 5) with true by (symmetry; apply N.ltb_lt; lia).
    rewrite !andb_false_r. reflexivity.
  - rewrite !N.mod_pow2_bits_high by assumption. reflexivity.
Qed.

Lemma N_odd_of_nat j : N.odd (N.of_nat j) = Nat.odd j.
Proof.
  induction j as [|j IH]; [reflexivity|].
  rewrite Nat2N.inj_succ, N.odd_succ, Nat.odd_succ.
  rewrite <- N.negb_odd, <- Nat.negb_odd, IH. reflexivity.
Qed.

(** The toggle of frame [j] is [1 XOR (j & 1)]. *)
Lemma toggle_of_index j :
  N.b2n (Nat.even j) = N.lxor 1 (N.land (N.of_nat j) 1).
Proof.
  change 1 with (N.ones 1) at 2. rewrite N.land_ones.
  change (2 ^ 1) with 2. rewrite <- N.bit0_mod, N.bit0_odd, N_odd_of_nat.
  rewrite <- Nat.negb_odd. destruct (Nat.odd j); reflexivity.
Qed.

(** From the tail bytes to their bits. *)
Lemma chain_tail_bytes_bits tid chain :
  chain_tail_bytes tid true chain -> chain_tails tid chain.
Proof.
  intros H j it Hj. destruct (H j it Hj) as (body & Hp & Hl).
  rewrite (frame_body_snoc it _ _ Hp), (frame_tail_byte_snoc it _ _ Hp).
  split; [exact Hp|]. split; [exact Hl|].
  rewrite makeTailByte_toggle, makeTailByte_start, makeTailByte_end,
    makeTailByte_transfer_id.
  rewrite toggle_of_index. auto.
Qed.

End TailByte.

(** ** Insertion into the queue *)

Section Insertion.

Lemma findTxQueueSupremum_while_spec rest can_id : forall out,
  exists n,
    findTxQueueSupremum_while rest can_id out = (out + n)%nat /\
    Forall (fun it => tqi_id it <= can_id) (take n rest) /\
    match drop n rest with [] => True | x :: _ => can_id < tqi_id x end.
Proof.
  induction rest as [|x rest IH]; intros out; cbn [findTxQueueSupremum_while].
  - exists 0%nat. cbn. split; [lia|]. split; [constructor|exact I].
  - destruct (N.leb_spec (tqi_id x) can_id) as [Hle|Hgt].
    + destruct (IH (S out)) as (n & Hn & Hall & Hnext).
      exists (S n). cbn. split; [lia|]. split; [constructor; assumption|exact Hnext].
    + exists 0%nat. cbn. split; [lia|]. split; [constructor|exact Hgt].
Qed.

Lemma link_after_spliced ins can_id frames :
  spliced can_id frames (tx_queue ins)
          (link_after (findTxQueueSupremum ins can_id) frames (tx_queue ins)).
Proof.
  unfold findTxQueueSupremum, spliced.
  destruct (tx_queue ins) as [|first rest].
  - exists [], []. cbn. rewrite app_nil_r. auto.
  - destruct (N.ltb_spec can_id (tqi_id first)) as [Hlt|Hge].
    + exists [], (first :: rest). cbn. auto.
    + destruct (findTxQueueSupremum_while_spec rest can_id 0)
        as (n & -> & Hall & Hnext).
      exists (first :: take n rest), (drop n rest). cbn.
      rewrite take_drop. split; [reflexivity|]. split; [reflexivity|].
      split; [constructor; assumption|exact Hnext].
Qed.

End Insertion.

(** ** The two ways to push *)

Section Push.

Lemma push_refused_at_once h amount h' :
  memory_allocate h amount = (None, h') -> push_refused h h'.
Proof.
  intros H. apply memory_allocate_refused in H as (Hn & Hl & Ha & Hr & Hf & Hj).
  unfold push_refused. rewrite Hr, Ha, Hf, Hn, Hl. split; [reflexivity|].
  repeat split; auto; lia.
Qed.

(** The frame of a single-frame transfer. *)
Lemma pushSingleFrameTransfer_cases h ins deadline_usec can_id tid ps payload :
  exists r h' i',
    pushSingleFrameTransfer h ins deadline_usec can_id tid ps payload = (r, h', i') /\
    ((r = (- CANARD_ERROR_OUT_OF_MEMORY)%Z /\ i' = ins /\ push_refused h h') \/
     (r = 1%Z /\
      exists it,
        push_enqueued h ins can_id [it] h' i' /\
        ((ps <= length (bytes_of payload))%nat -> (ps <= 63)%nat ->
         exists k,
           tqi_payload it
           = take ps (bytes_of payload) ++ replicate k PADDING_BYTE
             ++ [makeTailByte true true true tid] /\
           length (tqi_payload it) = tqi_payload_size it))).
Proof.
  unfold pushSingleFrameTransfer, allocateTxQueueItem.
  destruct (memory_allocate h _) as [[b|] h'] eqn:Halloc.
  2:{ eexists _, _, _. split; [reflexivity|]. left.
      eauto using push_refused_at_once. }
  eexists _, _, _. split; [reflexivity|]. right. split; [reflexivity|].
  eexists. split.
  - apply memory_allocate_granted in Halloc as (-> & Hn & Hl & Ha & Hr & Hf & Hj).
    split; [discriminate|]. split; [reflexivity|].
    split; [apply link_after_spliced|].
    split; [constructor; [reflexivity|constructor]|].
    split; [|exact Hr].
    unfold allocated_chain. cbn. rewrite Hn, Hl, Ha, Hf, Hj.
    repeat split; lia.
  - intros Hread Hps. cbn [tqi_payload set_tqi_payload tqi_payload_size].
    pose proof (roundFramePayloadSizeUp_range (ps + 1) ltac:(lia)) as Hr.
    set (fsz := roundFramePayloadSizeUp (ps + 1)) in *.
    exists (fsz - ps - 1)%nat.
    assert (Hcopy : (if (0 <? ps)%nat
                     then memcpy_at (replicate fsz (junk h)) 0 (bytes_of payload) ps
                     else replicate fsz (junk h))
                    = take ps (bytes_of payload) ++ replicate (fsz - ps) (junk h)).
    { destruct (Nat.ltb_spec 0 ps) as [Hpos|Hz]; [apply fill_copy; lia|].
      replace ps with 0%nat by lia. cbn. rewrite Nat.sub_0_r. reflexivity. }
    rewrite Hcopy.
    assert (Hw : length (take ps (bytes_of payload)) = ps)
      by (rewrite length_take; lia).
    rewrite (fill_set (junk h) _ ps (fsz - ps) PADDING_BYTE (fsz - ps - 1)) by lia.
    replace (fsz - ps - (fsz - ps - 1))%nat with 1%nat by lia.
    rewrite (fill_byte (junk h) _ (fsz - 1) 0)
      by (rewrite length_app, length_replicate; lia).
    cbn [replicate]. rewrite app_nil_r, <- app_assoc.
    split; [reflexivity|].
    rewrite !length_app, length_replicate, Hw. cbn [length].
    clearbody fsz. lia.
Qed.

End Push.

Section PushMulti.

Lemma crcAdd_take crc n p :
  crcAdd crc n p = crcAdd crc (length (take n p)) (take n p).
Proof.
  unfold crcAdd. revert p crc.
  induction n as [|n IH]; intros [|b p] crc; cbn; auto.
Qed.

Lemma crc_pad_padded ps bytes k :
  crc_pad k (crcAdd CRC_INITIAL ps bytes)
  = crcAdd CRC_INITIAL
           (length (take ps bytes ++ replicate k PADDING_BYTE))
           (take ps bytes ++ replicate k PADDING_BYTE).
Proof.
  rewrite crcAdd_app, <- crcAdd_take. unfold crc_pad.
  rewrite length_replicate. reflexivity.
Qed.

Lemma pushMultiFrameTransfer_cases h ins mtu deadline_usec can_id tid ps payload :
  (1 <= mtu <= 63)%nat ->
  exists r h' i',
    pushMultiFrameTransfer h ins mtu deadline_usec can_id tid ps payload
    = Some (r, h', i') /\
    ((r = (- CANARD_ERROR_OUT_OF_MEMORY)%Z /\ i' = ins /\ push_refused h h') \/
     (exists frames,
        r = Z.of_nat (length frames) /\
        push_enqueued h ins can_id frames h' i' /\
        ((ps <= length (bytes_of payload))%nat ->
         chain_tail_bytes tid true frames /\
         Forall (fun it => frame_body it <> []) frames /\
         exists k,
           let padded := take ps (bytes_of payload) ++ replicate k PADDING_BYTE in
           chain_stream frames
           = padded ++ crc_be_bytes (crcAdd CRC_INITIAL (length padded) padded) /\
           (k = 0%nat \/
            exists it, last frames = Some it /\
                       (k + 2 <= length (frame_body it))%nat)))).
Proof.
  intros Hmtu. unfold pushMultiFrameTransfer, CRC_SIZE_BYTES.
  set (crc0 := crcAdd CRC_INITIAL ps (bytes_of payload)).
  destruct (frame_loop_total mtu deadline_usec can_id tid ps Hmtu (ps + 2)
              h 0%Z [] true 0%nat crc0 true true (bytes_of payload) ltac:(lia))
    as (e & Hrun).
  rewrite Hrun.
  destruct (frame_loop_heap mtu deadline_usec can_id tid ps _ _ _ _ _ _ _ _ _ _ _
              Hrun ltac:(left; lia))
    as (new & Hchain & Hids & Halloc & Href & Hout & Hne).
  cbn [app] in Hchain.
  destruct (fle_tail_is_null e) eqn:Hnull; cbn [negb].
  - (* an allocation was refused *)
    eexists _, _, _. split; [reflexivity|]. left.
    split; [reflexivity|]. split; [reflexivity|].
    destruct Halloc as (Hblocks & Hn & Ha & Hf & Hl & Hj).
    destruct (free_chain_counts (fle_chain e) (fle_heap e))
      as (Hf' & Ha' & Hr' & Hn' & _ & _).
    unfold push_refused. rewrite Hf', Ha', Hr', Hn', Href, Ha, Hf, Hn, Hchain.
    split; [lia|]. split; [lia|]. split; [lia|]. split; [lia|]. split; [lia|].
    intros Hwf. apply (free_chain_live new (fle_heap e) (next_block h));
      [exact Hblocks|exact Hwf|exact Hl].
  - (* every frame was allocated *)
    eexists _, _, _. split; [reflexivity|]. right. exists new.
    rewrite Hchain in *.
    split; [rewrite Hout; lia|].
    split.
    { split; [destruct (Hne eq_refl) as [|]; [discriminate|assumption]|].
      split; [reflexivity|]. split; [apply link_after_spliced|].
      split; [eapply Forall_impl; [exact Hids|]; cbn; tauto|].
      split; [exact Halloc|]. rewrite Href. lia. }
    intros Hread.
    destruct (frame_loop_shape mtu deadline_usec can_id tid ps (bytes_of payload)
                Hmtu Hread (ps + 2) h 0%Z [] true 0%nat crc0 true true
                (bytes_of payload)) as (e' & Hrun' & Hpost).
    { unfold frame_loop_inv, chain_tail_bytes, stream_state. cbn.
      repeat split; auto.
      - intros j it Hj. discriminate.
      - left. repeat split; auto. lia. }
    { lia. }
    rewrite Hrun in Hrun'. injection Hrun' as <-.
    destruct (Hpost Hnull) as (crc' & sot' & tog' & ptr' & Hinv).
    rewrite Hchain in Hinv.
    destruct Hinv as (_ & _ & _ & _ & Htails & Hbodies & Hstream).
    replace (ps + CRC_SIZE_BYTES <=? ps + 2)%nat with true in Htails
      by (symmetry; apply Nat.leb_le; unfold CRC_SIZE_BYTES; lia).
    split; [exact Htails|]. split; [exact Hbodies|].
    destruct Hstream as [(Hle & _)|[(He & _)|(_ & k & Hs & Hk)]]; [lia|lia|].
    exists k. cbv zeta. rewrite <- crc_pad_padded, <- app_assoc.
    split; [exact Hs|exact Hk].
Qed.

End PushMulti.

(** ** The CAN-ID of a transfer *)

Section CanId.

Lemma lor_bound a b n : a < 2 ^ n -> b < 2 ^ n -> N.lor a b < 2 ^ n.
Proof.
  intros Ha Hb.
  assert (Hpos : 0 < 2 ^ n) by (apply N.neq_0_lt_0, N.pow_nonzero; discriminate).
  destruct (N.eq_dec (N.lor a b) 0) as [->|Hne]; [exact Hpos|].
  apply N.log2_lt_pow2; [lia|]. rewrite N.log2_lor.
  apply N.max_lub_lt.
  - destruct (N.eq_dec a 0) as [->|]; [|apply N.log2_lt_pow2; lia].
    destruct (N.eq_dec n 0) as [->|]; [|cbn; lia].
    destruct (N.eq_dec b 0) as [->|]; [contradiction Hne; reflexivity|cbn in Hb; lia].
  - destruct (N.eq_dec b 0) as [->|]; [|apply N.log2_lt_pow2; lia].
    destruct (N.eq_dec n 0) as [->|]; [|cbn; lia].
    destruct (N.eq_dec a 0) as [->|]; [contradiction Hne; reflexivity|cbn in Ha; lia].
Qed.

Lemma shifted_bound x k w n :
  x < 2 ^ w -> w + k <= n -> n <= 32 -> u32 (N.shiftl x k) < 2 ^ n.
Proof.
  intros Hx Hw Hn. rewrite N.shiftl_mul_pow2.
  assert (H1 : x * 2 ^ k < 2 ^ (w + k)).
  { rewrite N.pow_add_r. apply N.mul_lt_mono_pos_r; [|exact Hx].
    apply N.neq_0_lt_0, N.pow_nonzero. discriminate. }
  assert (H2 : 2 ^ (w + k) <= 2 ^ n) by (apply N.pow_le_mono_r; lia).
  assert (H3 : 2 ^ n <= 2 ^ 32) by (apply N.pow_le_mono_r; lia).
  rewrite u32_small by (change 4294967296 with (2 ^ 32); lia). lia.
Qed.

Lemma i32_small x : x < 2 ^ 31 -> i32 x = Z.of_N x.
Proof.
  intros Hx. unfold i32. destruct (N.ltb_spec x (2 ^ 31)); [reflexivity|lia].
Qed.

Lemma message_specifier_bound port src :
  port <= CANARD_SUBJECT_ID_MAX -> src <= CANARD_NODE_ID_MAX ->
  makeMessageSessionSpecifier port src < 2 ^ 21.
Proof.
  unfold CANARD_SUBJECT_ID_MAX, CANARD_NODE_ID_MAX. intros Hp Hs.
  unfold makeMessageSessionSpecifier. apply lor_bound; [lia|].
  apply (shifted_bound _ _ 13); [lia|reflexivity|discriminate].
Qed.

Lemma service_specifier_bound port rnr src dst :
  port <= CANARD_SERVICE_ID_MAX -> src <= CANARD_NODE_ID_MAX ->
  dst <= CANARD_NODE_ID_MAX ->
  makeServiceSessionSpecifier port rnr src dst < 2 ^ 26.
Proof.
  unfold CANARD_SERVICE_ID_MAX, CANARD_NODE_ID_MAX. intros Hp Hs Hd.
  unfold makeServiceSessionSpecifier.
  assert (H26 : 2 ^ 26 = 67108864) by reflexivity.
  repeat apply lor_bound.
  - lia.
  - apply (shifted_bound _ _ 7); [lia|discriminate|discriminate].
  - apply (shifted_bound _ _ 9); [lia|discriminate|discriminate].
  - destruct rnr; reflexivity.
  - reflexivity.
Qed.

(** The second half of [makeCANID]: the priority. *)
Lemma makeCANID_priority (spec prio : N) :
  spec < 2 ^ 26 -> prio < 2 ^ 32 ->
  let out := i32 spec in
  let r := if (0 <=? out)%Z
           then if u32 prio <=? CANARD_PRIORITY_MAX
                then i32 (N.lor (u32 (Z.to_N out))
                                (u32 (N.shiftl (u32 prio) OFFSET_PRIORITY)))
                else (- CANARD_ERROR_INVALID_ARGUMENT)%Z
           else out in
  (CANARD_PRIORITY_MAX < prio -> r = (- CANARD_ERROR_INVALID_ARGUMENT)%Z) /\
  (prio <= CANARD_PRIORITY_MAX -> (0 <= r < 2 ^ 29)%Z).
Proof.
  intros Hspec Hprio out r. subst out r.
  rewrite i32_small by lia.
  destruct (Z.leb_spec 0 (Z.of_N spec)) as [_|]; [|lia].
  rewrite (u32_small prio) by exact Hprio.
  unfold CANARD_PRIORITY_MAX.
  destruct (N.leb_spec prio 7) as [Hle|Hgt].
  - split; [intros Hp; lia|intros _].
    rewrite N2Z.id, (u32_small spec) by lia.
    assert (Hid : N.lor spec (u32 (N.shiftl prio OFFSET_PRIORITY)) < 2 ^ 29).
    { apply lor_bound; [lia|].
      apply (shifted_bound _ _ 3); [lia|discriminate|discriminate]. }
    rewrite i32_small by lia.
    change (2 ^ 29)%Z with (Z.of_N (2 ^ 29)). lia.
  - split; [reflexivity|intros Hp; lia].
Qed.

End CanId.

Section CanIdCases.

Ltac unfold_ids :=
  unfold transfer_rejected, is_service_kind,
    CanardTransferKindMessage, CanardTransferKindRequest,
    CanardTransferKindResponse, CANARD_NODE_ID_UNSET, CANARD_NODE_ID_MAX,
    CANARD_SUBJECT_ID_MAX, CANARD_SERVICE_ID_MAX, CANARD_PRIORITY_MAX in *.

(** [makeCANID] refuses exactly the transfers that cannot be sent, and
    otherwise gives a 29-bit identifier.  Nothing is asked of [local]: every
    value above [CANARD_NODE_ID_MAX] takes the anonymous branches. *)
Lemma makeCANID_cases t local mtu :
  tr_priority t < 2 ^ 32 ->
  (transfer_rejected local mtu t /\
   makeCANID t local mtu = (- CANARD_ERROR_INVALID_ARGUMENT)%Z) \/
  (~ transfer_rejected local mtu t /\ (0 <= makeCANID t local mtu < 2 ^ 29)%Z).
Proof.
  intros Hprio. unfold makeCANID.
  match goal with |- context [(0 <=? ?X)%Z] => set (out1 := X) end.
  (* the first half: the session specifier *)
  assert (Hstage :
    (out1 = (- CANARD_ERROR_INVALID_ARGUMENT)%Z /\
     ((tr_transfer_kind t = CanardTransferKindMessage /\
       (tr_remote_node_id t <> CANARD_NODE_ID_UNSET \/
        CANARD_SUBJECT_ID_MAX < tr_port_id t)) \/
      (is_service_kind (tr_transfer_kind t) /\
       (tr_remote_node_id t = CANARD_NODE_ID_UNSET \/
        CANARD_NODE_ID_MAX < tr_remote_node_id t \/
        CANARD_SERVICE_ID_MAX < tr_port_id t)) \/
      (CANARD_NODE_ID_MAX < local /\ is_service_kind (tr_transfer_kind t)) \/
      (CANARD_NODE_ID_MAX < local /\ (mtu < tr_payload_size t)%nat) \/
      (tr_transfer_kind t <> CanardTransferKindMessage /\
       ~ is_service_kind (tr_transfer_kind t)))) \/
    (exists spec, out1 = i32 spec /\ spec < 2 ^ 26 /\
       ~ ((tr_transfer_kind t = CanardTransferKindMessage /\
           (tr_remote_node_id t <> CANARD_NODE_ID_UNSET \/
            CANARD_SUBJECT_ID_MAX < tr_port_id t)) \/
          (is_service_kind (tr_transfer_kind t) /\
           (tr_remote_node_id t = CANARD_NODE_ID_UNSET \/
            CANARD_NODE_ID_MAX < tr_remote_node_id t \/
            CANARD_SERVICE_ID_MAX < tr_port_id t)) \/
          (CANARD_NODE_ID_MAX < local /\ is_service_kind (tr_transfer_kind t)) \/
          (CANARD_NODE_ID_MAX < local /\ (mtu < tr_payload_size t)%nat) \/
          (tr_transfer_kind t <> CanardTransferKindMessage /\
           ~ is_service_kind (tr_transfer_kind t))))).
  { subst out1.
    destruct (N.eqb_spec (tr_transfer_kind t) CanardTransferKindMessage) as [Hkm|Hkm];
    destruct (N.eqb_spec CANARD_NODE_ID_UNSET (tr_remote_node_id t)) as [Hru|Hru];
    destruct (N.leb_spec (tr_port_id t) CANARD_SUBJECT_ID_MAX) as [Hpm|Hpm];
    cbn [andb].
    1:{ (* a message *)
      destruct (N.leb_spec local CANARD_NODE_ID_MAX) as [Hll|Hll].
      - right. eexists. split; [reflexivity|].
        split; [eapply N.lt_trans; [apply message_specifier_bound; assumption|reflexivity]|].
        unfold_ids. lia.
      - destruct (Nat.leb_spec (tr_payload_size t) mtu) as [Hfit|Hfit].
        + right. eexists. split; [reflexivity|]. split.
          * apply lor_bound; [|reflexivity].
            eapply N.lt_trans; [apply message_specifier_bound|reflexivity];
              [assumption|].
            rewrite source_field. unfold id_source, CANARD_NODE_ID_MAX.
            pose proof (N.mod_lt (crcAdd CRC_INITIAL (tr_payload_size t)
                                         (bytes_of (tr_payload t))) 128
                                 ltac:(discriminate)). lia.
          * unfold_ids. lia.
        + left. split; [reflexivity|]. unfold_ids. lia. }
    all: destruct (N.eqb_spec (tr_transfer_kind t) CanardTransferKindRequest) as [Hkq|Hkq];
      destruct (N.eqb_spec (tr_transfer_kind t) CanardTransferKindResponse) as [Hkr|Hkr];
      destruct (N.leb_spec (tr_remote_node_id t) CANARD_NODE_ID_MAX) as [Hrl|Hrl];
      destruct (N.leb_spec (tr_port_id t) CANARD_SERVICE_ID_MAX) as [Hps|Hps];
      cbn [andb orb];
      try (left; split; [reflexivity|]; unfold_ids; lia).
    all: destruct (N.leb_spec local CANARD_NODE_ID_MAX) as [Hll|Hll];
      try (left; split; [reflexivity|]; unfold_ids; lia).
    all: right; eexists; split; [reflexivity|];
      split; [apply service_specifier_bound; assumption|unfold_ids; lia]. }
  unfold transfer_rejected.
  destruct Hstage as [(-> & Hinv)|(spec & -> & Hspec & Hok)].
  - left. split; [tauto|reflexivity].
  - destruct (makeCANID_priority spec (tr_priority t) Hspec Hprio) as (Hbad & Hgood).
    cbv zeta in Hbad, Hgood.
    destruct (N.lt_ge_cases CANARD_PRIORITY_MAX (tr_priority t)) as [Hp|Hp].
    + left. split; [tauto|]. exact (Hbad Hp).
    + right. split; [|exact (Hgood Hp)].
      intros H. apply Hok. unfold CANARD_PRIORITY_MAX in *.
      intuition lia.
Qed.

End CanIdCases.

Section CanIdRange.

(** Whatever the arguments, [makeCANID] gives INVALID_ARGUMENT or a 29-bit
    identifier. *)
Lemma makeCANID_range t local mtu :
  makeCANID t local mtu = (- CANARD_ERROR_INVALID_ARGUMENT)%Z \/
  (0 <= makeCANID t local mtu < 2 ^ 29)%Z.
Proof.
  unfold makeCANID.
  match goal with |- context [(0 <=? ?X)%Z] => set (out1 := X) end.
  assert (Hstage : out1 = (- CANARD_ERROR_INVALID_ARGUMENT)%Z \/
                   exists spec, out1 = i32 spec /\ spec < 2 ^ 26).
  { subst out1.
    destruct (_ && _ && (tr_port_id t <=? CANARD_SUBJECT_ID_MAX)) eqn:Hmsg.
    - apply andb_true_iff in Hmsg as [_ Hpm]. apply N.leb_le in Hpm.
      destruct (N.leb_spec local CANARD_NODE_ID_MAX) as [Hll|Hll].
      + right. eexists. split; [reflexivity|].
        eapply N.lt_trans; [apply message_specifier_bound; assumption|reflexivity].
      + destruct (tr_payload_size t <=? mtu)%nat; [right|left; reflexivity].
        eexists. split; [reflexivity|].
        apply lor_bound; [|reflexivity].
        eapply N.lt_trans; [apply message_specifier_bound|reflexivity];
          [assumption|].
        rewrite source_field. unfold id_source, CANARD_NODE_ID_MAX.
        pose proof (N.mod_lt (crcAdd CRC_INITIAL (tr_payload_size t)
                                     (bytes_of (tr_payload t))) 128
                             ltac:(discriminate)). lia.
    - destruct (_ && _ && (tr_port_id t <=? CANARD_SERVICE_ID_MAX)) eqn:Hsvc;
        [|left; reflexivity].
      apply andb_true_iff in Hsvc as [Hsvc Hps].
      apply andb_true_iff in Hsvc as [_ Hrl].
      apply N.leb_le in Hps, Hrl.
      destruct (N.leb_spec local CANARD_NODE_ID_MAX) as [Hll|Hll];
        [right|left; reflexivity].
      eexists. split; [reflexivity|].
      apply service_specifier_bound; assumption. }
  destruct Hstage as [->|(spec & -> & Hspec)]; [left; reflexivity|].
  pose proof (N.mod_lt (tr_priority t) (2 ^ 32) ltac:(discriminate)) as Hp.
  fold (u32 (tr_priority t)) in Hp.
  destruct (makeCANID_priority spec (u32 (tr_priority t)) Hspec Hp) as (Hbad & Hgood).
  cbv zeta in Hbad, Hgood.
  assert (Hidem : u32 (u32 (tr_priority t)) = u32 (tr_priority t))
    by (apply u32_small; exact Hp).
  rewrite !Hidem in Hbad, Hgood.
  destruct (N.lt_ge_cases CANARD_PRIORITY_MAX (u32 (tr_priority t))); auto.
Qed.

End CanIdRange.

(** ** canardTxPush, case by case *)

Section PushCases.

Lemma single_frame_transfer_frames t mtu it k :
  (tr_payload_size t <= mtu)%nat ->
  tqi_payload it
  = transfer_payload t ++ replicate k PADDING_BYTE
    ++ [makeTailByte true true true (tr_transfer_id t)] ->
  length (tqi_payload it) = tqi_payload_size it ->
  transfer_frames t mtu [it].
Proof.
  intros Hfit Hp Hl. rewrite app_assoc in Hp. split.
  - apply chain_tail_bytes_bits. intros j x Hj.
    apply list_lookup_singleton_Some in Hj as [-> <-].
    eexists. split; [exact Hp|exact Hl].
  - apply Nat.leb_le in Hfit. rewrite Hfit. exists it, k.
    split; [reflexivity|]. eapply frame_body_snoc, Hp.
Qed.

(** Every call with an instance and a transfer returns, and in one of three
    ways: the arguments are refused and nothing changes; an allocation is
    refused and only the allocator changes; or the frames of the transfer
    are queued. *)
Lemma canardTxPush_outcomes h i t :
  let mtu := getPresentationLayerMTU i in
  let maybe_can_id := makeCANID t (node_id i) mtu in
  exists r h' i',
    canardTxPush h (Some i) (Some t) = Some (r, h', Some i') /\
    ((h' = h /\ i' = i /\ r = (- CANARD_ERROR_INVALID_ARGUMENT)%Z /\
      (payload_missing t \/
       (~ payload_missing t /\
        maybe_can_id = (- CANARD_ERROR_INVALID_ARGUMENT)%Z))) \/
     (~ payload_missing t /\ (0 <= maybe_can_id < 2 ^ 29)%Z /\
      ((r = (- CANARD_ERROR_OUT_OF_MEMORY)%Z /\ i' = i /\ push_refused h h') \/
       (exists frames,
          r = Z.of_nat (length frames) /\
          push_enqueued h i (u32 (Z.to_N maybe_can_id)) frames h' i' /\
          (transfer_readable t -> transfer_frames t mtu frames))))).
Proof.
  intros mtu maybe_can_id. unfold canardTxPush. fold mtu. fold maybe_can_id.
  assert (Hcheck :
    (bool_decide (is_Some (tr_payload t)) || (0 =? tr_payload_size t)%nat = false
     /\ payload_missing t) \/
    (bool_decide (is_Some (tr_payload t)) || (0 =? tr_payload_size t)%nat = true
     /\ ~ payload_missing t)).
  { unfold payload_missing.
    destruct (tr_payload t) as [buf|]; [right|].
    - split; [reflexivity|]. intros [? _]. discriminate.
    - destruct (Nat.eqb_spec 0 (tr_payload_size t)) as [Hz|Hnz]; [right|left].
      + split; [apply orb_true_r|]. intros [_ ?]. congruence.
      + split; [reflexivity|]. split; [reflexivity|congruence]. }
  destruct Hcheck as [[-> Hmiss]|[-> Hmiss]].
  { eexists _, _, _. split; [reflexivity|]. left. auto. }
  destruct (makeCANID_range t (node_id i) mtu) as [Hid|Hid]; fold maybe_can_id in Hid.
  { rewrite Hid. eexists _, _, _. split; [reflexivity|]. left. auto 10. }
  destruct (Z.leb_spec 0 maybe_can_id) as [_|]; [|lia].
  destruct (getPresentationLayerMTU_range i) as (Hmtu & _). fold mtu in Hmtu.
  destruct (Nat.leb_spec (tr_payload_size t) mtu) as [Hfit|Hmulti].
  - (* a single frame *)
    destruct (pushSingleFrameTransfer_cases h i (tr_timestamp_usec t)
                (u32 (Z.to_N maybe_can_id)) (tr_transfer_id t)
                (tr_payload_size t) (tr_payload t))
      as (r & h' & i' & -> & [(-> & -> & Href)|(-> & it & Henq & Hcontent)]).
    + eexists _, _, _. split; [reflexivity|]. right. auto 10.
    + eexists _, _, _. split; [reflexivity|]. right.
      split; [exact Hmiss|]. split; [exact Hid|]. right. exists [it].
      split; [reflexivity|]. split; [exact Henq|].
      intros Hread. destruct (Hcontent Hread ltac:(lia)) as (k & Hp & Hl).
      eapply single_frame_transfer_frames; eauto.
  - (* several frames *)
    destruct (pushMultiFrameTransfer_cases h i mtu (tr_timestamp_usec t)
                (u32 (Z.to_N maybe_can_id)) (tr_transfer_id t)
                (tr_payload_size t) (tr_payload t) ltac:(lia))
      as (r & h' & i' & -> & [(-> & -> & Href)|(frames & -> & Henq & Hcontent)]).
    + eexists _, _, _. split; [reflexivity|]. right. auto 10.
    + eexists _, _, _. split; [reflexivity|]. right.
      split; [exact Hmiss|]. split; [exact Hid|]. right. exists frames.
      split; [reflexivity|]. split; [exact Henq|].
      intros Hread. destruct (Hcontent Hread) as (Htails & Hbodies & k & Hs & Hk).
      split; [apply chain_tail_bytes_bits, Htails|].
      replace (tr_payload_size t <=? mtu)%nat with false
        by (symmetry; apply Nat.leb_gt; lia).
      split; [exact Hbodies|]. exists k. split; [exact Hs|exact Hk].
Qed.

End PushCases.

(** ** The order of the queue *)

Section QueueOrder.

Lemma tx_before_le a b : tx_before a b -> tqi_id a <= tqi_id b.
Proof. intros [H|[H _]]; lia. Qed.

Lemma allocated_chain_sorted h h' can_id frames :
  allocated_chain h h' frames ->
  Forall (fun it => tqi_id it = can_id) frames ->
  StronglySorted tx_before frames /\
  Forall (fun it => (next_block h <= tqi_block it < next_block h')%nat) frames.
Proof.
  intros (Hblocks & Hn & _) Hids. rewrite Hn. clear Hn.
  revert h Hblocks. generalize (next_block h') as nb'. intros _.
  induction Hids as [|it frames Hid Hids IH]; intros h Hblocks.
  - split; constructor.
  - cbn [fmap list_fmap length seq] in Hblocks. injection Hblocks as Hb Hbs.
    set (h1 := {| answers := answers h; next_block := S (next_block h);
                  live := live h; n_allocated := n_allocated h;
                  n_refused := n_refused h; n_freed := n_freed h;
                  junk := junk h |}).
    destruct (IH h1 Hbs) as (Hsorted & Hrange). cbn [next_block h1] in Hrange.
    split.
    + constructor; [exact Hsorted|].
      rewrite Forall_forall in *. intros x Hx. right.
      specialize (Hrange x Hx). specialize (Hids x Hx). cbn in Hids.
      split; [congruence|lia].
    + constructor; [cbn [length]; lia|].
      eapply Forall_impl; [exact Hrange|]. cbn [length]. intros; lia.
Qed.

(** Queuing keeps the queue in order. *)
Lemma push_enqueued_ordered h i can_id frames h' i' :
  tx_queue_ordered h (tx_queue i) ->
  push_enqueued h i can_id frames h' i' ->
  tx_queue_ordered h' (tx_queue i').
Proof.
  intros (Hsorted & Hold)
         (_ & _ & (before & after & Hq & -> & Hbefore & Hafter) & Hids & Halloc & _).
  rewrite Hq in Hsorted, Hold.
  apply StronglySorted_app in Hsorted as (Hcross & Hsb & Hsa).
  apply Forall_app in Hold as (Hob & Hoa).
  destruct (allocated_chain_sorted h h' can_id frames Halloc Hids) as (Hsf & Hrange).
  assert (Hn : (next_block h <= next_block h')%nat)
    by (destruct Halloc as (_ & -> & _); lia).
  assert (Hgt : Forall (fun it => can_id < tqi_id it) after).
  { destruct after as [|x after]; [constructor|].
    apply StronglySorted_cons in Hsa as (Hx & _).
    constructor; [exact Hafter|].
    eapply Forall_impl; [exact Hx|]. cbn. intros y Hy.
    apply tx_before_le in Hy. lia. }
  rewrite Forall_forall in Hbefore, Hgt, Hids, Hrange, Hob, Hoa.
  split.
  - apply StronglySorted_app. split; [|split; [exact Hsb|]].
    + intros x y Hx Hy. apply elem_of_app in Hy as [Hy|Hy].
      * specialize (Hbefore x Hx). specialize (Hids y Hy). cbn in *.
        specialize (Hob x Hx). specialize (Hrange y Hy). cbn in *.
        unfold tx_before. destruct (N.eq_dec (tqi_id x) (tqi_id y)); [right|left]; lia.
      * apply Hcross; assumption.
    + apply StronglySorted_app. split; [|split; [exact Hsf|exact Hsa]].
      intros x y Hx Hy. left. specialize (Hids x Hx). specialize (Hgt y Hy).
      cbn in *. lia.
  - rewrite !Forall_app, !Forall_forall. repeat split; intros x Hx.
    + specialize (Hob x Hx). cbn in *. lia.
    + specialize (Hrange x Hx). cbn in *. lia.
    + specialize (Hoa x Hx). cbn in *. lia.
Qed.

Lemma tx_queue_ordered_mono h h' q :
  (next_block h <= next_block h')%nat ->
  tx_queue_ordered h q -> tx_queue_ordered h' q.
Proof.
  intros Hn (Hs & Hb). split; [exact Hs|].
  eapply Forall_impl; [exact Hb|]. cbn. intros; lia.
Qed.

(** Every sequence of calls runs to the end and keeps the queue in order. *)
Lemma run_tx_ordered calls : forall h i,
  tx_queue_ordered h (tx_queue i) ->
  exists h' i', run_tx calls h i = Some (h', i') /\
                tx_queue_ordered h' (tx_queue i').
Proof.
  induction calls as [|[t| |mtu node] calls IH]; intros h i Hord; cbn [run_tx].
  - eauto.
  - destruct (canardTxPush_outcomes h i t) as (r & h' & i' & -> & Hcase).
    apply IH.
    destruct Hcase as
        [(-> & -> & _)
        |(_ & _ & [(_ & -> & Href)|(frames & _ & Henq & _)])].
    + exact Hord.
    + destruct Href as (_ & _ & _ & _ & Hn & _).
      eapply tx_queue_ordered_mono; eauto.
    + eapply push_enqueued_ordered; eauto.
  - unfold canardTxPop. destruct (tx_queue i) as [|first rest] eqn:Hq.
    + apply IH. rewrite Hq. exact Hord.
    + apply IH. cbn. destruct Hord as (Hs & Hb).
      apply StronglySorted_cons in Hs as (_ & Hs).
      apply Forall_cons in Hb as (_ & Hb). split; assumption.
  - apply IH. exact Hord.
Qed.

(** Draining the queue shows its items in queue order. *)
Lemma drain_queue q : forall h i,
  tx_queue i = q -> drain (length q) h i = frame_of <$> q.
Proof.
  induction q as [|it q IH]; intros h i Hq; [reflexivity|].
  cbn [length drain canardTxPeek canardTxPop]. rewrite Hq.
  cbn [fmap list_fmap]. f_equal. apply IH. reflexivity.
Qed.

End QueueOrder.

(** ** Properties of canardTxPush *)

(** For a local node-ID that is a node-ID or UNSET, the transfers refused
    are those that the specification lists. *)
Lemma transfer_rejected_invalid local mtu t :
  local <= CANARD_NODE_ID_MAX \/ local = CANARD_NODE_ID_UNSET ->
  transfer_rejected local mtu t <-> transfer_invalid local mtu t.
Proof.
  unfold transfer_rejected, transfer_invalid, CANARD_NODE_ID_MAX,
    CANARD_NODE_ID_UNSET.
  intros [Hl|Hl]; [|rewrite Hl]; split; intros H; intuition lia.
Qed.

(** C5, as the specification states it, fails: an instance whose node-ID is
    200 (above 127, not UNSET) pushes a well-formed request to node 10.  The
    answer is INVALID_ARGUMENT with everything unchanged, and none of the
    listed conditions holds: the local node-ID is not UNSET. *)
Lemma canardTxPush_invalid_argument_counterexample :
  canardTxPush (heap_of [true]) (Some (instance_of 8 200)) (Some short_request)
  = Some ((- CANARD_ERROR_INVALID_ARGUMENT)%Z, heap_of [true],
          Some (instance_of 8 200)) /\
  priority_representable (Some short_request) /\
  ~ push_arguments_invalid (Some (instance_of 8 200)) (Some short_request).
Proof.
  split; [reflexivity|]. split; [intros t [= <-]; reflexivity|].
  intros [H|[H|(i & t & [= <-] & [= <-] & [(H & _)|H])]]; try discriminate.
  unfold transfer_invalid, is_service_kind in H. cbn in H.
  unfold CanardTransferKindMessage, CanardTransferKindRequest,
    CanardTransferKindResponse, CANARD_NODE_ID_UNSET, CANARD_NODE_ID_MAX,
    CANARD_SUBJECT_ID_MAX, CANARD_SERVICE_ID_MAX, CANARD_PRIORITY_MAX in H.
  intuition lia.
Qed.

(** C5, amended: [canardTxPush] always returns, and it answers
    INVALID_ARGUMENT exactly when the instance or the transfer is NULL, the
    payload pointer is NULL with a payload size that is not zero, or
    [makeCANID] refuses the transfer: wrong remote node-ID or port-ID for its
    kind, a service transfer or a transfer larger than one frame from an
    instance whose node-ID is above 127 (UNSET or not), priority above 7,
    kind outside the enumeration.  The allocator and the instance are then
    unchanged.  No condition is put on the node-ID of the instance. *)
Theorem canardTxPush_invalid_argument h ins transfer :
  priority_representable transfer ->
  exists r h' ins',
    canardTxPush h ins transfer = Some (r, h', ins') /\
    (r = (- CANARD_ERROR_INVALID_ARGUMENT)%Z <-> push_arguments_rejected ins transfer) /\
    (r = (- CANARD_ERROR_INVALID_ARGUMENT)%Z -> h' = h /\ ins' = ins).
Proof.
  intros Hprio. unfold push_arguments_rejected.
  destruct ins as [i|]; [destruct transfer as [t|]|].
  2:{ eexists _, _, _. split; [reflexivity|]. split; [|auto]. split; auto. }
  2:{ eexists _, _, _. split; [reflexivity|]. split; [|auto]. split; auto. }
  destruct (canardTxPush_outcomes h i t) as (r & h' & i' & Hrun & Hcase).
  destruct (makeCANID_cases t (node_id i) (getPresentationLayerMTU i)
              (Hprio t eq_refl)) as [(Hinv & Hid)|(Hok & Hid)].
  - (* the transfer is refused *)
    exists r, h', (Some i'). split; [exact Hrun|].
    assert (Hr : r = (- CANARD_ERROR_INVALID_ARGUMENT)%Z /\ h' = h /\ i' = i).
    { destruct Hcase as [(-> & -> & -> & _)|(Hmiss & Hpos & _)]; auto.
      unfold CANARD_ERROR_INVALID_ARGUMENT in Hid. lia. }
    destruct Hr as (-> & -> & ->). split; [|auto].
    split; [intros _|reflexivity]. right. right. exists i, t. auto.
  - (* the transfer is accepted *)
    exists r, h', (Some i'). split; [exact Hrun|].
    destruct Hcase as
        [(-> & -> & -> & [Hmiss|(Hmiss & Hneg)])|(Hmiss & Hpos & Hpush)].
    + split; [|auto]. split; [intros _|reflexivity].
      right. right. exists i, t. auto.
    + unfold CANARD_ERROR_INVALID_ARGUMENT in Hneg. lia.
    + assert (Hr : r <> (- CANARD_ERROR_INVALID_ARGUMENT)%Z).
      { unfold CANARD_ERROR_INVALID_ARGUMENT, CANARD_ERROR_OUT_OF_MEMORY in *.
        destruct Hpush as [(-> & _)|(frames & -> & _)]; lia. }
      split; [|intros; contradiction].
      split; [intros; contradiction|].
      intros [?|[?|(i0 & t0 & Hi & Ht & Hbad)]]; try discriminate.
      injection Hi as <-. injection Ht as <-. tauto.
Qed.

Lemma canardTxPush_invalid_argument_witness :
  exists r h' ins',
    canardTxPush (heap_of [true]) (Some (instance_of 8 200)) (Some short_request)
    = Some (r, h', ins') /\
    (r = (- CANARD_ERROR_INVALID_ARGUMENT)%Z <->
     push_arguments_rejected (Some (instance_of 8 200)) (Some short_request)) /\
    (r = (- CANARD_ERROR_INVALID_ARGUMENT)%Z ->
     h' = heap_of [true] /\ ins' = Some (instance_of 8 200)).
Proof.
  apply canardTxPush_invalid_argument.
  intros t [= <-]. reflexivity.
Defined.

(** C3: [canardTxPush] always returns; it answers OUT_OF_MEMORY exactly when
    an allocation was refused during the call, and then the instance, with
    its queue, is as before, every block granted during the call was freed
    (as many frees as allocations) and the live blocks are those from
    before. *)
Theorem canardTxPush_out_of_memory h i t :
  exists r h' ins',
    canardTxPush h (Some i) (Some t) = Some (r, h', ins') /\
    ((n_refused h < n_refused h')%nat <-> r = (- CANARD_ERROR_OUT_OF_MEMORY)%Z) /\
    ((n_refused h < n_refused h')%nat -> ins' = Some i /\ push_refused h h').
Proof.
  destruct (canardTxPush_outcomes h i t) as (r & h' & i' & Hrun & Hcase).
  exists r, h', (Some i'). split; [exact Hrun|].
  unfold CANARD_ERROR_OUT_OF_MEMORY, CANARD_ERROR_INVALID_ARGUMENT in *.
  destruct Hcase as
      [(-> & -> & -> & _)
      |(Hmiss & Hpos & [(-> & -> & Href)|(frames & -> & Henq & _)])].
  - split; [split; intros; lia|intros; lia].
  - pose proof Href as (Hr & _). split; [split; intros; [reflexivity|lia]|auto].
  - destruct Henq as (_ & _ & _ & _ & _ & Hr).
    split; [split; intros; lia|intros; lia].
Qed.

Lemma canardTxPush_out_of_memory_witness :
  (n_refused (heap_of [true; false])
   < n_refused (pushed (heap_of [true; false]) (instance_of 8 42)
                       three_frame_transfer).1.2)%nat /\
  pushed (heap_of [true; false]) (instance_of 8 42) three_frame_transfer
  = ((- CANARD_ERROR_OUT_OF_MEMORY)%Z,
     {| answers := []; next_block := 1; live := []; n_allocated := 1;
        n_refused := 1; n_freed := 1; junk := 0xAA |},
     instance_of 8 42) /\
  push_refused (heap_of [true; false])
               (pushed (heap_of [true; false]) (instance_of 8 42)
                       three_frame_transfer).1.2.
Proof.
  destruct (canardTxPush_out_of_memory (heap_of [true; false]) (instance_of 8 42)
              three_frame_transfer) as (r & h' & ins' & Hrun & _ & Hoom).
  assert (Hh : h' = (pushed (heap_of [true; false]) (instance_of 8 42)
                            three_frame_transfer).1.2).
  { vm_compute in Hrun. injection Hrun as _ <- _. reflexivity. }
  rewrite Hh in Hoom.
  split; [vm_compute; lia|]. split; [reflexivity|].
  apply Hoom. vm_compute. lia.
Defined.

(** C4: the frames that a successful [canardTxPush] adds to the queue lie
    together in the queue and are the frames of the transfer: frame [j] has
    toggle [1 XOR (j & 1)], start-of-transfer only on frame 0 and
    end-of-transfer only on the last frame; a single-frame transfer is one
    frame (toggle 1, both flags set) with payload and zero padding; the
    bodies of a multi-frame transfer are the payload, then zero padding,
    then the CRC of payload and padding, high byte first, so the CRC ends
    right before the last tail byte (its high byte may close the frame
    before the last) and padding lies in the last frame before the CRC. *)
Theorem canardTxPush_frames h i t r h' i' :
  transfer_readable t ->
  canardTxPush h (Some i) (Some t) = Some (r, h', Some i') ->
  (0 < r)%Z ->
  exists before frames after,
    tx_queue i = before ++ after /\
    tx_queue i' = before ++ frames ++ after /\
    r = Z.of_nat (length frames) /\
    transfer_frames t (getPresentationLayerMTU i) frames.
Proof.
  intros Hread Hrun Hr.
  destruct (canardTxPush_outcomes h i t) as (r0 & h0 & i0 & Hrun0 & Hcase).
  rewrite Hrun in Hrun0. injection Hrun0 as <- <- <-.
  unfold CANARD_ERROR_OUT_OF_MEMORY, CANARD_ERROR_INVALID_ARGUMENT in *.
  destruct Hcase as
      [(-> & -> & -> & _)
      |(Hmiss & Hpos & [(-> & -> & Href)|(frames & -> & Henq & Hcontent)])];
    try lia.
  destruct Henq as (_ & _ & (before & after & Hq & Hq' & _) & _).
  exists before, frames, after. auto.
Qed.

Lemma canardTxPush_frames_witness :
  exists before frames after,
    tx_queue (instance_of 64 1) = before ++ after /\
    tx_queue (pushed (heap_of [true; true]) (instance_of 64 1) scenario4_transfer).2
    = before ++ frames ++ after /\
    (pushed (heap_of [true; true]) (instance_of 64 1) scenario4_transfer).1.1
    = Z.of_nat (length frames) /\
    transfer_frames scenario4_transfer
                    (getPresentationLayerMTU (instance_of 64 1)) frames.
Proof.
  apply (canardTxPush_frames (heap_of [true; true]) (instance_of 64 1)
           scenario4_transfer _
           (pushed (heap_of [true; true]) (instance_of 64 1) scenario4_transfer).1.2).
  - unfold transfer_readable. vm_compute. lia.
  - vm_compute. reflexivity.
  - vm_compute. reflexivity.
Defined.

Section SortedFifo.

Lemma StronglySorted_weaken {A} (R S : A -> A -> Prop) (l : list A) :
  (forall a b, R a b -> S a b) -> StronglySorted R l -> StronglySorted S l.
Proof.
  intros HRS. induction 1 as [|x l Hl IH Hx]; constructor; [exact IH|].
  eapply Forall_impl; [exact Hx|]. cbn. auto.
Qed.

Lemma StronglySorted_lookup {A} (R : A -> A -> Prop) (l : list A) :
  StronglySorted R l ->
  forall j k a b, (j < k)%nat -> l !! j = Some a -> l !! k = Some b -> R a b.
Proof.
  induction 1 as [|x l Hl IH Hx]; intros j k a b Hjk Hj Hk; [discriminate|].
  destruct k as [|k]; [lia|]. cbn in Hk.
  destruct j as [|j]; cbn in Hj.
  - injection Hj as <-. rewrite Forall_forall in Hx. apply Hx.
    eapply list_elem_of_lookup_2, Hk.
  - apply (IH j k); [lia|assumption|assumption].
Qed.

Lemma tx_queue_ordered_sorted_fifo h i :
  tx_queue_ordered h (tx_queue i) -> sorted_fifo h i.
Proof.
  intros (Hs & _). unfold sorted_fifo. cbv zeta.
  split; [eapply StronglySorted_weaken; [apply tx_before_le|exact Hs]|].
  split; [|apply drain_queue; reflexivity].
  intros j k a b Hjk Hj Hk Hid.
  destruct (StronglySorted_lookup _ _ Hs j k a b Hjk Hj Hk) as [Hlt|[_ Hb]];
    [lia|exact Hb].
Qed.

End SortedFifo.

(** C2: starting from an empty queue, every sequence of pushes and pops
    (and of changes of MTU and node-ID in between) runs to its end and
    leaves the queue sorted by CAN-ID, with items of equal CAN-ID in the
    order in which they were pushed; peek and pop then yield the frames in
    exactly that order. *)
Theorem tx_queue_sorted_fifo calls h i :
  tx_queue i = [] ->
  exists h' i', run_tx calls h i = Some (h', i') /\ sorted_fifo h' i'.
Proof.
  intros Hq.
  destruct (run_tx_ordered calls h i) as (h' & i' & Hrun & Hord).
  { rewrite Hq. split; constructor. }
  exists h', i'. split; [exact Hrun|].
  apply tx_queue_ordered_sorted_fifo, Hord.
Qed.

Lemma tx_queue_sorted_fifo_witness :
  exists h' i',
    run_tx sample_calls (heap_of (replicate 8 true)) (instance_of 64 1)
    = Some (h', i') /\
    sorted_fifo h' i'.
Proof.
  apply tx_queue_sorted_fifo. reflexivity.
Defined.

(** ** More on the DLC tables and the MTU *)

Section TablesMore.

Lemma below_forallb2 (P : nat -> nat -> bool) n m :
  forallb (fun x => forallb (P x) (seq 0 m)) (seq 0 n) = true ->
  forall x y, (x < n)%nat -> (y < m)%nat -> P x y = true.
Proof.
  intros H x y Hx Hy.
  apply (below_forallb (P x) m); [|exact Hy].
  apply (below_forallb (fun x => forallb (P x) (seq 0 m)) n H x Hx).
Qed.

Lemma roundFramePayloadSizeUp_mono x y :
  (x <= y <= 64)%nat -> (roundFramePayloadSizeUp x <= roundFramePayloadSizeUp y)%nat.
Proof.
  intros Hxy.
  assert (H := below_forallb2
                 (fun x y => (y <? x)%nat
                             || (roundFramePayloadSizeUp x <=? roundFramePayloadSizeUp y)%nat)
                 65 65 ltac:(vm_compute; reflexivity) x y ltac:(lia) ltac:(lia)).
  cbv beta in H. apply orb_true_iff in H as [H|H].
  - apply Nat.ltb_lt in H. lia.
  - apply Nat.leb_le in H. exact H.
Qed.

Lemma roundFramePayloadSizeUp_idemp x :
  (x <= 64)%nat ->
  roundFramePayloadSizeUp (roundFramePayloadSizeUp x) = roundFramePayloadSizeUp x.
Proof.
  intros Hx.
  assert (H := below_forallb
                 (fun x => (roundFramePayloadSizeUp (roundFramePayloadSizeUp x)
                            =? roundFramePayloadSizeUp x)%nat)
                 65 ltac:(vm_compute; reflexivity) x ltac:(lia)).
  apply Nat.eqb_eq in H. exact H.
Qed.

End TablesMore.

(** X2: The DLC tables are adjoint: the DLC of a length [x] is at most [d]
    exactly when [x] fits the length of DLC [d].  So the DLC of [x] is the
    least code whose frame length holds [x] bytes. *)
Theorem dlc_tables_adjoint (x d : nat) :
  (x <= 64)%nat -> (d < 16)%nat ->
  (table_at CanardCANLengthToDLC x <= d)%nat
  <-> (x <= table_at CanardCANDLCToLength d)%nat.
Proof.
  intros Hx Hd.
  assert (H := below_forallb2
                 (fun x d => eqb (table_at CanardCANLengthToDLC x <=? d)%nat
                                 (x <=? table_at CanardCANDLCToLength d)%nat)
                 65 16 ltac:(vm_compute; reflexivity) x d ltac:(lia) Hd).
  cbv beta in H. apply eqb_prop in H.
  rewrite <- !Nat.leb_le, H. reflexivity.
Qed.

Lemma dlc_tables_adjoint_witness :
  (table_at CanardCANLengthToDLC 9 <= 9)%nat
  <-> (9 <= table_at CanardCANDLCToLength 9)%nat.
Proof. apply (dlc_tables_adjoint 9 9); lia. Defined.

(** X3: [roundFramePayloadSizeUp] gives the least valid frame length that holds
    [x] bytes: the result holds [x], it is a fixed point of the rounding,
    and no valid length in between is smaller. *)
Theorem roundFramePayloadSizeUp_least (x y : nat) :
  (x <= y <= 64)%nat ->
  roundFramePayloadSizeUp y = y ->
  (x <= roundFramePayloadSizeUp x <= y)%nat /\
  roundFramePayloadSizeUp (roundFramePayloadSizeUp x) = roundFramePayloadSizeUp x.
Proof.
  intros Hxy Hy.
  pose proof (roundFramePayloadSizeUp_range x ltac:(lia)) as Hr.
  pose proof (roundFramePayloadSizeUp_mono x y Hxy) as Hm.
  split; [lia|]. apply roundFramePayloadSizeUp_idemp. lia.
Qed.

Lemma roundFramePayloadSizeUp_least_witness :
  (9 <= roundFramePayloadSizeUp 9 <= 12)%nat /\
  roundFramePayloadSizeUp (roundFramePayloadSizeUp 9) = roundFramePayloadSizeUp 9.
Proof. apply (roundFramePayloadSizeUp_least 9 12); [lia|reflexivity]. Defined.

(** X4: The presentation-layer MTU is one less than the configured MTU clamped
    to 8..64 and rounded up to a valid frame length; it grows with the
    configured MTU, and a configured MTU that is not a valid length allows
    frames that are longer than it. *)
Theorem getPresentationLayerMTU_rounds_up (i j : CanardInstance) :
  (mtu_bytes i <= mtu_bytes j)%nat ->
  S (getPresentationLayerMTU i)
  = roundFramePayloadSizeUp (Nat.max 8 (Nat.min 64 (mtu_bytes i))) /\
  (Nat.max 8 (Nat.min 64 (mtu_bytes i)) <= S (getPresentationLayerMTU i))%nat /\
  (getPresentationLayerMTU i <= getPresentationLayerMTU j)%nat.
Proof.
  assert (Hval : forall k,
    S (getPresentationLayerMTU k)
    = roundFramePayloadSizeUp (Nat.max 8 (Nat.min 64 (mtu_bytes k)))).
  { intros k. pose proof (getPresentationLayerMTU_range k) as [Hk _].
    replace (S (getPresentationLayerMTU k)) with (getPresentationLayerMTU k + 1)%nat by lia.
    unfold getPresentationLayerMTU in *.
    change (length CanardCANLengthToDLC - 1)%nat with 64%nat in *.
    unfold CANARD_MTU_CAN_CLASSIC in *.
    destruct (Nat.ltb_spec (mtu_bytes k) 8) as [Hlt|Hge].
    - replace (Nat.max 8 (Nat.min 64 (mtu_bytes k))) with 8%nat by lia. reflexivity.
    - destruct (Nat.leb_spec (mtu_bytes k) 64) as [Hle|Hgt].
      + replace (Nat.max 8 (Nat.min 64 (mtu_bytes k))) with (mtu_bytes k) by lia.
        fold (roundFramePayloadSizeUp (mtu_bytes k)) in *. lia.
      + replace (Nat.max 8 (Nat.min 64 (mtu_bytes k))) with 64%nat by lia.
        reflexivity. }
  intros Hij. split; [apply Hval|]. split.
  - rewrite Hval. apply roundFramePayloadSizeUp_range. lia.
  - enough (S (getPresentationLayerMTU i) <= S (getPresentationLayerMTU j))%nat by lia.
    rewrite !Hval. apply roundFramePayloadSizeUp_mono. lia.
Qed.

Lemma getPresentationLayerMTU_rounds_up_witness :
  S (getPresentationLayerMTU (instance_of 9 1))
  = roundFramePayloadSizeUp (Nat.max 8 (Nat.min 64 (mtu_bytes (instance_of 9 1)))) /\
  (Nat.max 8 (Nat.min 64 (mtu_bytes (instance_of 9 1)))
   <= S (getPresentationLayerMTU (instance_of 9 1)))%nat /\
  (getPresentationLayerMTU (instance_of 9 1)
   <= getPresentationLayerMTU (instance_of 64 1))%nat.
Proof. apply (getPresentationLayerMTU_rounds_up (instance_of 9 1) (instance_of 64 1)). cbn. lia. Defined.

(** ** The tail byte, written and read *)

(** X5: What [makeTailByte] packs, [tryParseFrame] unpacks: the three flags as
    given and the transfer-ID modulo 32; the tail is one byte. *)
Theorem tail_byte_roundtrip (f : CanardFrame) (m : FrameModel)
    (s e t : bool) (tid : N) :
  (0 < fr_payload_size f)%nat ->
  frame_tail f = makeTailByte s e t tid ->
  let model := (tryParseFrame f m).2 in
  fm_start_of_transfer model = s /\
  fm_end_of_transfer model = e /\
  fm_toggle model = t /\
  fm_transfer_id model = tid mod 32 /\
  makeTailByte s e t tid < 256.
Proof.
  intros Hsz Htail model. subst model.
  rewrite (tryParseFrame_fields f m Hsz). cbn [snd fm_start_of_transfer
    fm_end_of_transfer fm_toggle fm_transfer_id].
  rewrite Htail, makeTailByte_start, makeTailByte_end, makeTailByte_toggle,
    makeTailByte_transfer_id.
  repeat split. unfold makeTailByte, u8. apply N.mod_lt. discriminate.
Qed.

Lemma tail_byte_roundtrip_witness :
  let model := (tryParseFrame scenario1_frame FrameModel_zero).2 in
  fm_start_of_transfer model = true /\
  fm_end_of_transfer model = true /\
  fm_toggle model = true /\
  fm_transfer_id model = 33 mod 32 /\
  makeTailByte true true true 33 < 256.
Proof.
  apply (tail_byte_roundtrip scenario1_frame FrameModel_zero true true true 33);
    [cbn; lia|reflexivity].
Defined.

(** ** The CAN-ID, written and read *)

Section CanIdValue.

Lemma lor_mul_add a c k : a < 2 ^ k -> N.lor a (c * 2 ^ k) = a + c * 2 ^ k.
Proof.
  intros Ha.
  assert (Hl : N.land a (c * 2 ^ k) = 0).
  { apply N.bits_inj. intros n. rewrite N.land_spec, N.bits_0.
    destruct (N.ltb_spec n k) as [Hlt|Hge].
    - rewrite N.mul_pow2_bits_low by exact Hlt. apply andb_false_r.
    - rewrite <- (N.mod_small a (2 ^ k)) by exact Ha.
      rewrite N.mod_pow2_bits_high by exact Hge. reflexivity. }
  rewrite <- N.lxor_lor by exact Hl. symmetry. apply N.add_nocarry_lxor, Hl.
Qed.

Lemma shiftl_small x k : x * 2 ^ k < 2 ^ 32 -> u32 (N.shiftl x k) = x * 2 ^ k.
Proof. intros H. rewrite N.shiftl_mul_pow2. apply u32_small. exact H. Qed.

(** The message session specifier as a sum of its fields. *)
Lemma makeMessageSessionSpecifier_sum port src :
  port <= CANARD_SUBJECT_ID_MAX -> src <= CANARD_NODE_ID_MAX ->
  makeMessageSessionSpecifier port src = src + port * 2 ^ 8.
Proof.
  unfold CANARD_SUBJECT_ID_MAX, CANARD_NODE_ID_MAX. intros Hp Hs.
  unfold makeMessageSessionSpecifier, OFFSET_SUBJECT_ID.
  rewrite shiftl_small by (change (2 ^ 8) with 256; change (2 ^ 32) with 4294967296; lia).
  apply lor_mul_add. change (2 ^ 8) with 256. lia.
Qed.

(** The service session specifier as a sum of its fields. *)
Lemma makeServiceSessionSpecifier_sum port rnr src dst :
  port <= CANARD_SERVICE_ID_MAX -> src <= CANARD_NODE_ID_MAX ->
  dst <= CANARD_NODE_ID_MAX ->
  makeServiceSessionSpecifier port rnr src dst
  = src + dst * 2 ^ 7 + port * 2 ^ 14 + (if rnr then 2 ^ 24 else 0) + 2 ^ 25.
Proof.
  unfold CANARD_SERVICE_ID_MAX, CANARD_NODE_ID_MAX. intros Hp Hs Hd.
  unfold makeServiceSessionSpecifier, OFFSET_DST_NODE_ID, OFFSET_SERVICE_ID,
    FLAG_REQUEST_NOT_RESPONSE, FLAG_SERVICE_NOT_MESSAGE.
  rewrite !shiftl_small
    by (change (2 ^ 7) with 128; change (2 ^ 14) with 16384;
        change (2 ^ 32) with 4294967296; lia).
  rewrite (lor_mul_add src dst 7) by (change (2 ^ 7) with 128; lia).
  rewrite (lor_mul_add _ port 14)
    by (change (2 ^ 7) with 128; change (2 ^ 14) with 16384; lia).
  replace (if rnr then N.shiftl 1 24 else 0)
    with ((if rnr then 1 else 0) * 2 ^ 24) by (destruct rnr; reflexivity).
  rewrite (lor_mul_add _ _ 24)
    by (change (2 ^ 7) with 128; change (2 ^ 14) with 16384;
        change (2 ^ 24) with 16777216; lia).
  change (N.shiftl 1 25) with (1 * 2 ^ 25).
  rewrite (lor_mul_add _ 1 25)
    by (change (2 ^ 7) with 128; change (2 ^ 14) with 16384;
        change (2 ^ 24) with 16777216; change (2 ^ 25) with 33554432;
        destruct rnr; lia).
  destruct rnr; lia.
Qed.

(** A transfer that [makeCANID] accepts, and its CAN-ID as the sum of its
    fields: a message from a node, an anonymous message, or a service
    transfer. *)
Lemma makeCANID_value t local mtu :
  (0 <= makeCANID t local mtu)%Z ->
  let prio := u32 (tr_priority t) in
  let c := crcAdd CRC_INITIAL (tr_payload_size t) (bytes_of (tr_payload t)) mod 128 in
  prio <= 7 /\
  ((tr_transfer_kind t = CanardTransferKindMessage /\
    tr_remote_node_id t = CANARD_NODE_ID_UNSET /\
    tr_port_id t <= 8191 /\
    ((local <= 127 /\
      makeCANID t local mtu
      = Z.of_N (local + tr_port_id t * 2 ^ 8 + prio * 2 ^ 26)) \/
     (127 < local /\ (tr_payload_size t <= mtu)%nat /\
      makeCANID t local mtu
      = Z.of_N (c + tr_port_id t * 2 ^ 8 + 2 ^ 24 + prio * 2 ^ 26)))) \/
   (is_service_kind (tr_transfer_kind t) /\
    tr_remote_node_id t <= 127 /\ tr_port_id t <= 511 /\ local <= 127 /\
    makeCANID t local mtu
    = Z.of_N (local + tr_remote_node_id t * 2 ^ 7 + tr_port_id t * 2 ^ 14
              + (if tr_transfer_kind t =? CanardTransferKindRequest
                 then 2 ^ 24 else 0)
              + 2 ^ 25 + prio * 2 ^ 26))).
Proof.
  intros Hok prio c.
  remember (makeCANID t local mtu) as r eqn:Hr.
  unfold makeCANID in Hr. fold prio in Hr. revert Hok. revert Hr.
  match goal with |- context [(0 <=? ?X)%Z] => set (out1 := X) end.
  assert (Hc : c < 128) by (apply N.mod_lt; discriminate).
  assert (Hstage :
    out1 = (- CANARD_ERROR_INVALID_ARGUMENT)%Z \/
    exists spec, out1 = i32 spec /\ spec < 2 ^ 26 /\
      ((tr_transfer_kind t = CanardTransferKindMessage /\
        tr_remote_node_id t = CANARD_NODE_ID_UNSET /\
        tr_port_id t <= 8191 /\
        ((local <= 127 /\ spec = local + tr_port_id t * 2 ^ 8) \/
         (127 < local /\ (tr_payload_size t <= mtu)%nat /\
          spec = c + tr_port_id t * 2 ^ 8 + 2 ^ 24))) \/
       (is_service_kind (tr_transfer_kind t) /\
        tr_remote_node_id t <= 127 /\ tr_port_id t <= 511 /\ local <= 127 /\
        spec = local + tr_remote_node_id t * 2 ^ 7 + tr_port_id t * 2 ^ 14
               + (if tr_transfer_kind t =? CanardTransferKindRequest
                  then 2 ^ 24 else 0)
               + 2 ^ 25))).
  { subst out1.
    destruct (_ && _ && (tr_port_id t <=? CANARD_SUBJECT_ID_MAX)) eqn:Hmsg.
    - apply andb_true_iff in Hmsg as [Hmsg Hpm].
      apply andb_true_iff in Hmsg as [Hk Hr].
      apply N.leb_le in Hpm. apply N.eqb_eq in Hk, Hr.
      destruct (N.leb_spec local CANARD_NODE_ID_MAX) as [Hll|Hll].
      + right. eexists. split; [reflexivity|].
        rewrite makeMessageSessionSpecifier_sum by assumption.
        unfold CANARD_SUBJECT_ID_MAX, CANARD_NODE_ID_MAX in *.
        split; [change (2 ^ 8) with 256; change (2 ^ 26) with 67108864; lia|].
        left. auto 10.
      + destruct (Nat.leb_spec (tr_payload_size t) mtu) as [Hfit|Hfit];
          [right|left; reflexivity].
        eexists. split; [reflexivity|].
        rewrite source_field. unfold id_source. fold c.
        rewrite makeMessageSessionSpecifier_sum
          by (try assumption; unfold CANARD_NODE_ID_MAX; lia).
        unfold FLAG_ANONYMOUS_MESSAGE. change (N.shiftl 1 24) with (1 * 2 ^ 24).
        unfold CANARD_SUBJECT_ID_MAX, CANARD_NODE_ID_MAX in *.
        rewrite lor_mul_add
          by (change (2 ^ 8) with 256; change (2 ^ 24) with 16777216; lia).
        split; [change (2 ^ 8) with 256; change (2 ^ 24) with 16777216;
                change (2 ^ 26) with 67108864; lia|].
        left. split; [exact Hk|]. split; [auto|]. split; [exact Hpm|].
        right. split; [exact Hll|]. split; [exact Hfit|]. lia.
    - destruct (_ && _ && (tr_port_id t <=? CANARD_SERVICE_ID_MAX)) eqn:Hsvc;
        [|left; reflexivity].
      apply andb_true_iff in Hsvc as [Hsvc Hps].
      apply andb_true_iff in Hsvc as [Hk Hrl].
      apply N.leb_le in Hps, Hrl.
      destruct (N.leb_spec local CANARD_NODE_ID_MAX) as [Hll|Hll];
        [right|left; reflexivity].
      eexists. split; [reflexivity|].
      split; [apply service_specifier_bound; assumption|].
      right. rewrite makeServiceSessionSpecifier_sum by assumption.
      unfold CANARD_SERVICE_ID_MAX, CANARD_NODE_ID_MAX in *.
      split; [|auto].
      unfold is_service_kind. apply orb_true_iff in Hk as [Hk|Hk];
        apply N.eqb_eq in Hk; auto. }
  destruct Hstage as [->|(spec & -> & Hspec & Hcase)].
  { change (0 <=? - CANARD_ERROR_INVALID_ARGUMENT)%Z with false. cbv iota.
    unfold CANARD_ERROR_INVALID_ARGUMENT. intros -> ?. lia. }
  rewrite i32_small by (change (2 ^ 26) with 67108864 in Hspec;
                        change (2 ^ 31) with 2147483648; lia).
  destruct (Z.leb_spec 0 (Z.of_N spec)) as [_|]; [|lia].
  unfold CANARD_PRIORITY_MAX.
  destruct (N.leb_spec prio 7) as [Hle|Hgt];
    [|unfold CANARD_ERROR_INVALID_ARGUMENT; intros -> ?; lia].
  rewrite N2Z.id, (u32_small spec)
    by (change (2 ^ 26) with 67108864 in Hspec; lia).
  unfold OFFSET_PRIORITY.
  rewrite shiftl_small
    by (change (2 ^ 26) with 67108864; change (2 ^ 32) with 4294967296; lia).
  rewrite lor_mul_add by exact Hspec.
  rewrite i32_small
    by (change (2 ^ 26) with 67108864 in *; change (2 ^ 31) with 2147483648; lia).
  intros -> _. split; [exact Hle|].
  destruct Hcase as [(Hk & Hr & Hp & [(Hl & ->)|(Hl & Hfit & ->)])
                    |(Hk & Hr & Hp & Hl & ->)]; auto 10.
Qed.

End CanIdValue.

Section CanIdDecode.

Ltac field_arith :=
  change (2 ^ 7) with 128 in *; change (2 ^ 8) with 256 in *;
  change (2 ^ 14) with 16384 in *; change (2 ^ 23) with 8388608 in *;
  change (2 ^ 24) with 16777216 in *; change (2 ^ 25) with 33554432 in *;
  change (2 ^ 26) with 67108864 in *;
  zify; Z.to_euclidean_division_equations; lia.

Ltac bit_arith :=
  apply N.b2n_inj; rewrite N.testbit_spec'; cbn [N.b2n]; field_arith.

(** The fields of a message CAN-ID. *)
Lemma message_id_fields src port (anon : bool) prio :
  src < 128 -> port <= 8191 -> prio <= 7 ->
  let id := src + port * 2 ^ 8 + (if anon then 2 ^ 24 else 0) + prio * 2 ^ 26 in
  id_priority id = prio /\ id_subject id = port /\ id_source id = src /\
  N.testbit id 25 = false /\ N.testbit id 24 = anon /\
  N.testbit id 23 = false /\ N.testbit id 7 = false.
Proof.
  intros Hs Hp Hq id. subst id. unfold id_priority, id_subject, id_source.
  destruct anon; repeat split; try field_arith; bit_arith.
Qed.

(** The fields of a service CAN-ID. *)
Lemma service_id_fields src dst port (rnr : bool) prio :
  src <= 127 -> dst <= 127 -> port <= 511 -> prio <= 7 ->
  let id := src + dst * 2 ^ 7 + port * 2 ^ 14 + (if rnr then 2 ^ 24 else 0)
            + 2 ^ 25 + prio * 2 ^ 26 in
  id_priority id = prio /\ id_service id = port /\ id_source id = src /\
  (id / 2 ^ 7) mod 128 = dst /\
  N.testbit id 25 = true /\ N.testbit id 24 = rnr /\ N.testbit id 23 = false.
Proof.
  intros Hs Hd Hp Hq id. subst id. unfold id_priority, id_service, id_source.
  destruct rnr; repeat split; try field_arith; bit_arith.
Qed.

End CanIdDecode.

(** The fields of the CAN-ID that [makeCANID] gives, in the words of the
    wire format; the reserved bits are clear. *)
Lemma makeCANID_fields (t : CanardTransfer) (local : N) (mtu : nat) :
  (0 <= makeCANID t local mtu)%Z ->
  let id := Z.to_N (makeCANID t local mtu) in
  id_priority id = u32 (tr_priority t) /\
  id_kind id = tr_transfer_kind t /\
  id_port id = tr_port_id t /\
  id_destination id = tr_remote_node_id t /\
  id_is_anonymous id = negb (local <=? CANARD_NODE_ID_MAX) /\
  id_source id
  = (if local <=? CANARD_NODE_ID_MAX then local
     else crcAdd CRC_INITIAL (tr_payload_size t) (bytes_of (tr_payload t)) mod 128) /\
  N.testbit id 23 = false /\
  (tr_transfer_kind t = CanardTransferKindMessage -> N.testbit id 7 = false).
Proof.
  intros Hok id. subst id.
  destruct (makeCANID_value t local mtu Hok) as (Hprio & Hcase).
  unfold id_kind, id_port, id_destination, id_is_anonymous, CANARD_NODE_ID_MAX.
  destruct Hcase as [(Hk & Hr & Hp & [(Hl & ->)|(Hl & Hfit & ->)])
                    |(Hk & Hr & Hp & Hl & ->)]; rewrite N2Z.id.
  - destruct (message_id_fields local (tr_port_id t) false (u32 (tr_priority t))
                ltac:(lia) Hp Hprio) as (H1 & H2 & H3 & H25 & H24 & H23 & H7).
    cbv zeta in *. rewrite N.add_0_r in *.
    rewrite H25, H24, H1, H2, H3, H23, H7, Hk, Hr.
    destruct (N.leb_spec local 127); [|lia]. auto 10.
  - assert (Hc : crcAdd CRC_INITIAL (tr_payload_size t) (bytes_of (tr_payload t))
                 mod 128 < 128) by (apply N.mod_lt; discriminate).
    destruct (message_id_fields _ (tr_port_id t) true (u32 (tr_priority t))
                Hc Hp Hprio) as (H1 & H2 & H3 & H25 & H24 & H23 & H7).
    cbv zeta in *.
    rewrite H25, H24, H1, H2, H3, H23, H7, Hk, Hr.
    destruct (N.leb_spec local 127); [lia|]. auto 10.
  - destruct (service_id_fields local (tr_remote_node_id t) (tr_port_id t)
                (tr_transfer_kind t =? CanardTransferKindRequest)
                (u32 (tr_priority t)) Hl Hr Hp Hprio)
      as (H1 & H2 & H3 & H4 & H25 & H24 & H23).
    cbv zeta in *.
    rewrite H25, H24, H1, H2, H3, H4, H23.
    destruct (N.leb_spec local 127); [|lia].
    repeat split.
    + destruct (N.eqb_spec (tr_transfer_kind t) CanardTransferKindRequest) as [->|Hne];
        [reflexivity|].
      destruct Hk as [Hk|Hk]; congruence.
    + intros Hm. destruct Hk as [Hk|Hk]; rewrite Hk in Hm; discriminate.
Qed.

(** X6: Reading the CAN-ID that [makeCANID] wrote gives back the transfer:
    [tryParseFrame] finds the priority, the kind, the port-ID and the remote
    node-ID as destination (UNSET for a message); the source is the local
    node-ID, or UNSET when the sender is anonymous. *)
Theorem makeCANID_decodes (t : CanardTransfer) (local : N) (mtu : nat)
    (f : CanardFrame) (m : FrameModel) :
  (0 <= makeCANID t local mtu)%Z ->
  fr_extended_can_id f = Z.to_N (makeCANID t local mtu) ->
  (0 < fr_payload_size f)%nat ->
  let model := (tryParseFrame f m).2 in
  fm_priority model = u32 (tr_priority t) /\
  fm_transfer_kind model = tr_transfer_kind t /\
  fm_port_id model = tr_port_id t /\
  fm_destination_node_id model = tr_remote_node_id t /\
  fm_source_node_id model
  = (if local <=? CANARD_NODE_ID_MAX then local else CANARD_NODE_ID_UNSET).
Proof.
  intros Hok Hid Hsz model. subst model.
  rewrite (tryParseFrame_fields f m Hsz). cbn [snd fm_priority fm_transfer_kind
    fm_port_id fm_destination_node_id fm_source_node_id].
  rewrite Hid.
  destruct (makeCANID_fields t local mtu Hok)
    as (Hp & Hk & Hport & Hdst & Hanon & Hsrc & _).
  cbv zeta in *. rewrite Hp, Hk, Hport, Hdst, Hanon, Hsrc.
  destruct (local <=? CANARD_NODE_ID_MAX); cbn [negb]; auto.
Qed.

Lemma makeCANID_decodes_witness :
  let model := (tryParseFrame scenario1_frame FrameModel_zero).2 in
  fm_priority model = u32 (tr_priority scenario1_transfer) /\
  fm_transfer_kind model = tr_transfer_kind scenario1_transfer /\
  fm_port_id model = tr_port_id scenario1_transfer /\
  fm_destination_node_id model = tr_remote_node_id scenario1_transfer /\
  fm_source_node_id model
  = (if 42 <=? CANARD_NODE_ID_MAX then 42 else CANARD_NODE_ID_UNSET).
Proof.
  apply (makeCANID_decodes scenario1_transfer 42 7 scenario1_frame FrameModel_zero);
    [vm_compute; discriminate|vm_compute; reflexivity|cbn; lia].
Defined.

(** X7: Arbitration follows the priority: of two transfers that [makeCANID]
    accepts, the one with the numerically smaller priority gets the smaller
    CAN-ID, whatever the kinds, ports and nodes; and at equal priority a
    message goes before a service transfer. *)
Theorem makeCANID_priority_first (t1 t2 : CanardTransfer) (local1 local2 : N)
    (mtu1 mtu2 : nat) :
  (0 <= makeCANID t1 local1 mtu1)%Z ->
  (0 <= makeCANID t2 local2 mtu2)%Z ->
  u32 (tr_priority t1) < u32 (tr_priority t2) \/
  (u32 (tr_priority t1) = u32 (tr_priority t2) /\
   tr_transfer_kind t1 = CanardTransferKindMessage /\
   tr_transfer_kind t2 <> CanardTransferKindMessage) ->
  (makeCANID t1 local1 mtu1 < makeCANID t2 local2 mtu2)%Z.
Proof.
  intros H1 H2 Hlt.
  destruct (makeCANID_value t1 local1 mtu1 H1) as (Hp1 & Hc1).
  destruct (makeCANID_value t2 local2 mtu2 H2) as (Hp2 & Hc2).
  assert (Hcrc : forall t, crcAdd CRC_INITIAL (tr_payload_size t)
                                  (bytes_of (tr_payload t)) mod 128 < 128)
    by (intros; apply N.mod_lt; discriminate).
  pose proof (Hcrc t1) as Hcrc1. pose proof (Hcrc t2) as Hcrc2. clear Hcrc.
  cbv zeta in Hc1, Hc2.
  set (c1 := crcAdd CRC_INITIAL (tr_payload_size t1) (bytes_of (tr_payload t1))
             mod 128) in *.
  set (c2 := crcAdd CRC_INITIAL (tr_payload_size t2) (bytes_of (tr_payload t2))
             mod 128) in *.
  clearbody c1 c2.
  unfold is_service_kind, CanardTransferKindMessage, CanardTransferKindRequest,
    CanardTransferKindResponse in *.
  destruct Hc1 as [(Hk1 & _ & Hq1 & [(Hl1 & ->)|(Hl1 & _ & ->)])
                  |(Hk1 & Hr1 & Hq1 & Hl1 & ->)];
  destruct Hc2 as [(Hk2 & _ & Hq2 & [(Hl2 & ->)|(Hl2 & _ & ->)])
                  |(Hk2 & Hr2 & Hq2 & Hl2 & ->)];
  repeat match goal with
         | |- context [if ?b then _ else _] => destruct b
         end;
  change (2 ^ 7) with 128; change (2 ^ 8) with 256;
  change (2 ^ 14) with 16384; change (2 ^ 24) with 16777216;
  change (2 ^ 25) with 33554432; change (2 ^ 26) with 67108864; lia.
Qed.

Lemma makeCANID_priority_first_witness :
  (makeCANID scenario4_transfer 1 63 < makeCANID scenario1_transfer 42 7)%Z.
Proof.
  apply (makeCANID_priority_first scenario4_transfer scenario1_transfer 1 42 63 7);
    [vm_compute; discriminate|vm_compute; discriminate|left; vm_compute; reflexivity].
Defined.

(** ** The frame loop: the sizes of the frames *)

Section FrameLoopLayout.

Lemma padding_while_length passes : forall pl fo crc fps,
  length (padding_while passes pl fo crc fps).1.1 = length pl.
Proof.
  induction passes as [|p IH]; intros pl fo crc fps; cbn [padding_while];
    [reflexivity|].
  destruct (_ <? _)%nat; [|reflexivity].
  rewrite IH. apply length_insert.
Qed.

Lemma padding_while_offset_exact passes : forall pl fo crc fps,
  (fps <= passes + fo)%nat ->
  (padding_while passes pl fo crc fps).1.2
  = if (fo + 2 <? fps)%nat then (fps - 2)%nat else fo.
Proof.
  induction passes as [|p IH]; intros pl fo crc fps Hp; cbn [padding_while];
    unfold CRC_SIZE_BYTES.
  - destruct (Nat.ltb_spec (fo + 2) fps); [lia|reflexivity].
  - destruct (Nat.ltb_spec (fo + 2) fps) as [Hlt|Hge]; [|reflexivity].
    rewrite IH by lia.
    destruct (Nat.ltb_spec (S fo + 2) fps); lia.
Qed.

(** One pass keeps the length of the frame. *)
Lemma pushMultiFrameTransfer_fill_length tqi fpswt offset crc sot tog ptr tid ps :
  length (tqi_payload
            (pushMultiFrameTransfer_fill tqi fpswt offset crc sot tog ptr tid ps).1.1.1)
  = length (tqi_payload tqi).
Proof.
  unfold pushMultiFrameTransfer_fill.
  repeat match goal with
         | |- context [padding_while ?a ?b ?c ?d ?e] =>
             let H := fresh "Hpad" in
             pose proof (padding_while_length a b c d e) as H;
             destruct (padding_while a b c d e) as [[? ?] ?];
             cbn [fst snd] in H
         | |- context [if ?b then _ else _] => destruct b
         end; cbn [fst snd tqi_payload set_tqi_payload];
    rewrite ?length_insert; unfold memcpy_at in *;
    rewrite ?length_inserts in *; congruence.
Qed.

(** Where one pass leaves [offset]: a frame that the rest of the stream
    fills takes [fps] bytes of it, and a frame with room for the rest takes
    all of it. *)
Lemma pushMultiFrameTransfer_fill_offset tqi fps offset crc sot tog ptr tid ps :
  (1 <= fps)%nat -> (offset < ps + 2)%nat ->
  let o' := (pushMultiFrameTransfer_fill tqi (S fps) offset crc sot tog ptr tid ps).1.1.2 in
  ((fps <= ps + 2 - offset)%nat -> o' = (offset + fps)%nat) /\
  ((ps + 2 - offset <= fps)%nat -> o' = (ps + 2)%nat).
Proof.
  intros Hfps Ho. unfold pushMultiFrameTransfer_fill.
  replace (S fps - 1)%nat with fps by lia.
  destruct (Nat.ltb_spec offset ps) as [Hlt|Hge].
  - destruct (Nat.ltb_spec fps (ps - offset)) as [Hin|Hend].
    + destruct (Nat.leb_spec ps (offset + fps)) as [|_]; [lia|].
      cbn [fst snd]. split; intros; lia.
    + destruct (Nat.leb_spec ps (offset + (ps - offset))) as [_|]; [|lia].
      pose proof (padding_while_offset_exact fps
                    (memcpy_at (tqi_payload tqi) 0 ptr (ps - offset))
                    (0 + (ps - offset)) crc fps ltac:(lia)) as Hfo.
      destruct (padding_while _ _ _ _ _) as [[pl fo] c]. cbn [fst snd] in Hfo.
      subst fo.
      replace (offset + (ps - offset) =? ps)%nat with true
        by (symmetry; apply Nat.eqb_eq; lia).
      destruct (Nat.ltb_spec (0 + (ps - offset) + 2) fps) as [Hpad|Hnopad].
      * destruct (Nat.ltb_spec (fps - 2) fps) as [_|]; [|lia]. cbn [andb].
        destruct (Nat.ltb_spec (S (fps - 2)) fps) as [_|]; [|lia].
        destruct (Nat.ltb_spec ps (S (offset + (ps - offset)))) as [_|]; [|lia].
        cbn [andb fst snd]. split; intros; lia.
      * destruct (Nat.ltb_spec (0 + (ps - offset)) fps) as [Hroom|Hfull];
          cbn [andb].
        -- destruct (Nat.ltb_spec (S (0 + (ps - offset))) fps) as [Hroom2|Hfull2];
             destruct (Nat.ltb_spec ps (S (offset + (ps - offset)))) as [_|];
             try lia; cbn [andb fst snd]; split; intros; lia.
        -- destruct (Nat.ltb_spec ps (offset + (ps - offset))) as [|_]; [lia|].
           rewrite andb_false_r. cbn [fst snd]. split; intros; lia.
  - destruct (Nat.leb_spec ps offset) as [_|]; [|lia].
    pose proof (padding_while_offset_exact fps (tqi_payload tqi) 0 crc fps
                  ltac:(lia)) as Hfo.
    destruct (padding_while _ _ _ _ _) as [[pl fo] c]. cbn [fst snd] in Hfo.
    assert (Hlt : (fo < fps)%nat)
      by (subst fo; destruct (Nat.ltb_spec (0 + 2) fps); lia).
    destruct (Nat.ltb_spec fo fps) as [_|]; [|lia]. cbn [andb].
    destruct (Nat.eqb_spec offset ps) as [->|Hne].
    + destruct (Nat.ltb_spec ps (S ps)) as [_|]; [|lia].
      destruct (Nat.ltb_spec (S fo) fps) as [Hroom|Hfull]; cbn [andb fst snd];
        split; intros; try lia.
      all: subst fo; destruct (Nat.ltb_spec (0 + 2) fps); lia.
    + destruct (Nat.ltb_spec ps offset) as [_|]; [|lia].
      destruct (Nat.ltb_spec fo fps) as [_|]; [|lia].
      cbn [andb fst snd]. split; intros; lia.
Qed.

Lemma frame_loop_done passes h mtu deadline_usec can_id tid ps out chain
    tail_is_null offset crc sot tog ptr :
  (ps + 2 <= offset)%nat ->
  pushMultiFrameTransfer_while passes h mtu deadline_usec can_id tid ps
                               out chain tail_is_null offset crc sot tog ptr
  = Some {| fle_out := out; fle_heap := h; fle_chain := chain;
            fle_tail_is_null := tail_is_null |}.
Proof.
  intros Hdone.
  destruct passes; cbn [pushMultiFrameTransfer_while]; unfold CRC_SIZE_BYTES;
    destruct (Nat.ltb_spec offset (ps + 2)); (lia || reflexivity).
Qed.

Context (mtu : nat) (deadline_usec can_id tid : N) (ps : nat).
Hypothesis Hmtu : (1 <= mtu <= 63)%nat.
Hypothesis Hvalid : roundFramePayloadSizeUp (mtu + 1) = (mtu + 1)%nat.

(** The frames of a loop that ran to the end: all full but the last, which
    holds what is left of the stream. *)
Lemma frame_loop_layout passes :
  forall h out chain tail_is_null offset crc sot tog ptr e,
    pushMultiFrameTransfer_while passes h mtu deadline_usec can_id tid ps
                                 out chain tail_is_null offset crc sot tog ptr
    = Some e ->
    fle_tail_is_null e = false ->
    (offset < ps + 2)%nat ->
    offset = (mtu * length chain)%nat ->
    Forall (fun it => tqi_payload_size it = S mtu /\
                      length (tqi_payload it) = tqi_payload_size it) chain ->
    exists init lst,
      fle_chain e = init ++ [lst] /\
      Forall (fun it => tqi_payload_size it = S mtu) init /\
      (mtu * length init < ps + 2 <= mtu * S (length init))%nat /\
      tqi_payload_size lst
      = roundFramePayloadSizeUp (ps + 2 - mtu * length init + 1) /\
      Forall (fun it => length (tqi_payload it) = tqi_payload_size it)
             (fle_chain e).
Proof.
  induction passes as [|passes IH];
    intros h out chain tail_is_null offset crc sot tog ptr e;
    cbn [pushMultiFrameTransfer_while]; unfold CRC_SIZE_BYTES;
    intros Hrun Hnull Hgo Hoff Hchain.
  - destruct (Nat.ltb_spec offset (ps + 2)); [discriminate|lia].
  - destruct (Nat.ltb_spec offset (ps + 2)) as [_|]; [|lia].
    destruct (frame_size_with_tail mtu ps offset Hmtu Hgo)
      as (fps & Hsz & Hfps & _ & Hlast & Hfull).
    unfold CRC_SIZE_BYTES in Hsz. rewrite Hsz in Hrun.
    unfold allocateTxQueueItem in Hrun.
    destruct (memory_allocate h _) as [[b|] h'].
    2:{ injection Hrun as <-. discriminate. }
    set (tqi := {| tqi_block := b; tqi_deadline_usec := deadline_usec;
                   tqi_payload_size := S fps; tqi_id := can_id;
                   tqi_payload := replicate (S fps) (junk h) |}) in Hrun.
    destruct (pushMultiFrameTransfer_fill_item tqi (S fps) offset crc sot tog
                ptr tid ps) as (pl & Hit).
    pose proof (pushMultiFrameTransfer_fill_length tqi (S fps) offset crc sot
                  tog ptr tid ps) as Hlen.
    destruct (pushMultiFrameTransfer_fill_offset tqi fps offset crc sot tog
                ptr tid ps Hfps Hgo) as (Hstep & Hend).
    destruct (pushMultiFrameTransfer_fill _ _ _ _ _ _ _ _ _) as [[[it o'] c'] p'].
    cbn [fst snd] in Hit, Hlen, Hstep, Hend. subst it.
    cbn [tqi_payload set_tqi_payload tqi] in Hlen.
    rewrite length_replicate in Hlen.
    set (it := set_tqi_payload tqi pl) in *.
    assert (Hsized : Forall (fun it => length (tqi_payload it) = tqi_payload_size it)
                            (chain ++ [it])).
    { apply Forall_app. split; [eapply Forall_impl; [exact Hchain|]; cbn; tauto|].
      constructor; [exact Hlen|constructor]. }
    assert (Hinit : Forall (fun it => tqi_payload_size it = S mtu) chain)
      by (eapply Forall_impl; [exact Hchain|]; cbn; tauto).
    assert (Hmul : (mtu * S (length chain) = mtu * length chain + mtu)%nat) by lia.
    destruct (Nat.lt_ge_cases (ps + 2 - offset) mtu) as [Hshort|Hlong].
    + (* the last frame, not full *)
      rewrite (Hend (Hlast Hshort)) in Hrun.
      rewrite frame_loop_done in Hrun by lia. injection Hrun as <-.
      cbn [fle_chain]. exists chain, it.
      split; [reflexivity|]. split; [exact Hinit|]. split; [lia|].
      split; [|exact Hsized].
      cbn [tqi_payload_size it set_tqi_payload tqi]. rewrite <- Hsz.
      destruct (Nat.ltb_spec (ps + 2 - offset) mtu); [|lia].
      rewrite Hoff. reflexivity.
    + (* a full frame *)
      specialize (Hfull Hlong). subst fps.
      rewrite (Hstep Hlong) in Hrun.
      destruct (Nat.lt_ge_cases (offset + mtu) (ps + 2)) as [Hmore|Hdone].
      * apply (IH _ _ _ _ _ _ _ _ _ _ Hrun Hnull Hmore).
        -- rewrite length_app. cbn [length]. lia.
        -- apply Forall_app. split; [exact Hchain|].
           constructor; [split; [reflexivity|exact Hlen]|constructor].
      * rewrite frame_loop_done in Hrun by lia. injection Hrun as <-.
        cbn [fle_chain]. exists chain, it.
        split; [reflexivity|]. split; [exact Hinit|]. split; [lia|].
        split; [|exact Hsized].
        cbn [tqi_payload_size it set_tqi_payload tqi].
        replace (ps + 2 - mtu * length chain + 1)%nat with (mtu + 1)%nat by lia.
        rewrite Hvalid. lia.
Qed.

End FrameLoopLayout.

(** The frame sizes in closed form. *)
Lemma frame_sizes_layout mtu ps (init : list CanardInternalTxQueueItem) lst :
  (1 <= mtu)%nat ->
  (mtu < ps)%nat ->
  Forall (fun it => tqi_payload_size it = S mtu) init ->
  (mtu * length init < ps + 2 <= mtu * S (length init))%nat ->
  tqi_payload_size lst
  = roundFramePayloadSizeUp (ps + 2 - mtu * length init + 1) ->
  length (init ++ [lst]) = frame_count mtu ps /\
  tqi_payload_size <$> (init ++ [lst]) = frame_sizes mtu ps.
Proof.
  intros Hmtu Hmulti Hinit Hbounds Hlst.
  assert (Hn : frame_count mtu ps = S (length init)).
  { unfold frame_count, CRC_SIZE_BYTES.
    destruct (Nat.leb_spec ps mtu); [lia|].
    symmetry. apply (Nat.div_unique _ _ _ (ps + 2 + mtu - 1 - mtu * S (length init))).
    - lia.
    - lia. }
  split; [rewrite length_app; cbn [length]; lia|].
  unfold frame_sizes. rewrite Hn. unfold CRC_SIZE_BYTES.
  destruct (Nat.leb_spec ps mtu); [lia|].
  cbv zeta. replace (S (length init) - 1)%nat with (length init) by lia.
  rewrite fmap_app. cbn [fmap list_fmap]. rewrite Hlst. f_equal.
  - clear Hbounds Hlst Hn. induction Hinit as [|x l Hx _ IH]; [reflexivity|].
    cbn [fmap list_fmap length replicate]. rewrite Hx, IH. f_equal. lia.
Qed.

(** ** What a successful push queues *)

Section PushQueued.

(** The frame of a single-frame transfer, as queued. *)
Lemma pushSingleFrameTransfer_queued h ins deadline_usec can_id tid ps payload
    r h' i' :
  pushSingleFrameTransfer h ins deadline_usec can_id tid ps payload = (r, h', i') ->
  (0 < r)%Z ->
  exists it,
    r = 1%Z /\
    i' = set_tx_queue ins (link_after (findTxQueueSupremum ins can_id) [it]
                                      (tx_queue ins)) /\
    push_enqueued h ins can_id [it] h' i' /\
    tqi_deadline_usec it = deadline_usec /\
    tqi_id it = can_id /\
    tqi_payload_size it = roundFramePayloadSizeUp (ps + 1) /\
    length (tqi_payload it) = tqi_payload_size it /\
    ((ps <= length (bytes_of payload))%nat -> (ps <= 63)%nat ->
     exists k,
       tqi_payload it
       = take ps (bytes_of payload) ++ replicate k PADDING_BYTE
         ++ [makeTailByte true true true tid]).
Proof.
  unfold pushSingleFrameTransfer, allocateTxQueueItem.
  destruct (memory_allocate h _) as [[b|] h1] eqn:Halloc.
  2:{ intros [= <- <- <-]. unfold CANARD_ERROR_OUT_OF_MEMORY. lia. }
  intros [= <- <- <-] _. eexists. split; [reflexivity|]. split; [reflexivity|].
  apply memory_allocate_granted in Halloc as (-> & Hn & Hl & Ha & Hr & Hf & Hj).
  split.
  { split; [discriminate|]. split; [reflexivity|].
    split; [apply link_after_spliced|].
    split; [constructor; [reflexivity|constructor]|].
    split; [|exact Hr].
    unfold allocated_chain. cbn. rewrite Hn, Hl, Ha, Hf, Hj.
    repeat split; lia. }
  cbn [tqi_deadline_usec tqi_id tqi_payload_size tqi_payload set_tqi_payload].
  split; [reflexivity|]. split; [reflexivity|]. split; [reflexivity|].
  split.
  { rewrite length_insert. unfold memset_at. rewrite length_inserts.
    destruct (0 <? ps)%nat; unfold memcpy_at; rewrite ?length_inserts;
      apply length_replicate. }
  intros Hread Hps.
  pose proof (roundFramePayloadSizeUp_range (ps + 1) ltac:(lia)) as Hrange.
  set (fsz := roundFramePayloadSizeUp (ps + 1)) in *.
  exists (fsz - ps - 1)%nat.
  assert (Hcopy : (if (0 <? ps)%nat
                   then memcpy_at (replicate fsz (junk h)) 0 (bytes_of payload) ps
                   else replicate fsz (junk h))
                  = take ps (bytes_of payload) ++ replicate (fsz - ps) (junk h)).
  { destruct (Nat.ltb_spec 0 ps) as [Hpos|Hz]; [apply fill_copy; lia|].
    replace ps with 0%nat by lia. cbn. rewrite Nat.sub_0_r. reflexivity. }
  rewrite Hcopy.
  assert (Hw : length (take ps (bytes_of payload)) = ps)
    by (rewrite length_take; lia).
  rewrite (fill_set (junk h) _ ps (fsz - ps) PADDING_BYTE (fsz - ps - 1)) by lia.
  replace (fsz - ps - (fsz - ps - 1))%nat with 1%nat by lia.
  rewrite (fill_byte (junk h) _ (fsz - 1) 0)
    by (rewrite length_app, length_replicate; lia).
  cbn [replicate]. rewrite app_nil_r, <- app_assoc. reflexivity.
Qed.

(** The frames of a multi-frame transfer, as queued. *)
Lemma pushMultiFrameTransfer_queued h ins mtu deadline_usec can_id tid ps payload
    r h' i' :
  (1 <= mtu <= 63)%nat ->
  roundFramePayloadSizeUp (mtu + 1) = (mtu + 1)%nat ->
  (mtu < ps)%nat ->
  pushMultiFrameTransfer h ins mtu deadline_usec can_id tid ps payload
  = Some (r, h', i') ->
  (0 < r)%Z ->
  exists frames,
    r = Z.of_nat (length frames) /\
    i' = set_tx_queue ins (link_after (findTxQueueSupremum ins can_id) frames
                                      (tx_queue ins)) /\
    push_enqueued h ins can_id frames h' i' /\
    Forall (fun it => tqi_deadline_usec it = deadline_usec /\
                      tqi_id it = can_id /\
                      length (tqi_payload it) = tqi_payload_size it) frames /\
    length frames = frame_count mtu ps /\
    tqi_payload_size <$> frames = frame_sizes mtu ps /\
    ((ps <= length (bytes_of payload))%nat ->
     chain_tail_bytes tid true frames /\
     Forall (fun it => frame_body it <> []) frames /\
     exists k,
       let padded := take ps (bytes_of payload) ++ replicate k PADDING_BYTE in
       chain_stream frames
       = padded ++ crc_be_bytes (crcAdd CRC_INITIAL (length padded) padded) /\
       (k = 0%nat \/
        exists it, last frames = Some it /\
                   (k + 2 <= length (frame_body it))%nat)).
Proof.
  intros Hmtu Hvalid Hmulti. unfold pushMultiFrameTransfer, CRC_SIZE_BYTES.
  set (crc0 := crcAdd CRC_INITIAL ps (bytes_of payload)).
  destruct (frame_loop_total mtu deadline_usec can_id tid ps Hmtu (ps + 2)
              h 0%Z [] true 0%nat crc0 true true (bytes_of payload) ltac:(lia))
    as (e & Hrun).
  rewrite Hrun.
  destruct (frame_loop_heap mtu deadline_usec can_id tid ps _ _ _ _ _ _ _ _ _ _ _
              Hrun ltac:(left; lia))
    as (new & Hchain & Hids & Halloc & Href & Hout & Hne).
  cbn [app] in Hchain.
  destruct (fle_tail_is_null e) eqn:Hnull; cbn [negb].
  { intros [= <- <- <-]. unfold CANARD_ERROR_OUT_OF_MEMORY. lia. }
  intros [= <- <- <-] _.
  destruct (frame_loop_layout mtu deadline_usec can_id tid ps Hmtu Hvalid _
              _ _ _ _ _ _ _ _ _ _ Hrun Hnull ltac:(lia) ltac:(cbn; lia)
              ltac:(constructor))
    as (init & lst & Hshape & Hinit & Hbounds & Hlst & Hsized).
  cbn [length] in Hbounds.
  destruct (frame_sizes_layout mtu ps init lst ltac:(lia) Hmulti Hinit Hbounds Hlst)
    as (Hcount & Hsizes).
  rewrite <- Hshape in Hcount, Hsizes.
  exists (fle_chain e).
  split; [rewrite Hout, Hchain; lia|]. split; [reflexivity|].
  split.
  { rewrite Hchain.
    split; [destruct (Hne eq_refl) as [|]; [discriminate|assumption]|].
    split; [reflexivity|]. split; [apply link_after_spliced|].
    split; [eapply Forall_impl; [exact Hids|]; cbn; tauto|].
    split; [exact Halloc|]. rewrite Href. lia. }
  split.
  { rewrite Hchain in *. rewrite Forall_forall in *. intros x Hx.
    destruct (Hids x Hx). auto. }
  split; [exact Hcount|]. split; [exact Hsizes|].
  intros Hread.
  destruct (frame_loop_shape mtu deadline_usec can_id tid ps (bytes_of payload)
              Hmtu Hread (ps + 2) h 0%Z [] true 0%nat crc0 true true
              (bytes_of payload)) as (e' & Hrun' & Hpost).
  { unfold frame_loop_inv, chain_tail_bytes, stream_state. cbn.
    repeat split; auto.
    - intros j it Hj. discriminate.
    - left. repeat split; auto. lia. }
  { lia. }
  rewrite Hrun in Hrun'. injection Hrun' as <-.
  destruct (Hpost Hnull) as (crc' & sot' & tog' & ptr' & Hinv).
  destruct Hinv as (_ & _ & _ & _ & Htails & Hbodies & Hstream).
  replace (ps + CRC_SIZE_BYTES <=? ps + 2)%nat with true in Htails
    by (symmetry; apply Nat.leb_le; unfold CRC_SIZE_BYTES; lia).
  split; [exact Htails|]. split; [exact Hbodies|].
  destruct Hstream as [(Hle & _)|[(He & _)|(_ & k & Hs & Hk)]]; [lia|lia|].
  exists k. cbv zeta. rewrite <- crc_pad_padded, <- app_assoc.
  split; [exact Hs|exact Hk].
Qed.

(** A push that returns a positive number queued the frames of the
    transfer: as many as it returned, in one block where the queue order
    puts them, each with the CAN-ID, the deadline and the size of its
    place. *)
Lemma canardTxPush_queued h i t r h' i' :
  canardTxPush h (Some i) (Some t) = Some (r, h', Some i') ->
  (0 < r)%Z ->
  let mtu := getPresentationLayerMTU i in
  let can_id := Z.to_N (makeCANID t (node_id i) mtu) in
  exists frames,
    r = Z.of_nat (length frames) /\
    (0 <= makeCANID t (node_id i) mtu < 2 ^ 29)%Z /\
    i' = set_tx_queue i (link_after (findTxQueueSupremum i can_id) frames
                                    (tx_queue i)) /\
    push_enqueued h i can_id frames h' i' /\
    Forall (fun it => tqi_deadline_usec it = tr_timestamp_usec t /\
                      tqi_id it = can_id /\
                      length (tqi_payload it) = tqi_payload_size it) frames /\
    length frames = frame_count mtu (tr_payload_size t) /\
    tqi_payload_size <$> frames = frame_sizes mtu (tr_payload_size t) /\
    (transfer_readable t -> transfer_frames t mtu frames).
Proof.
  intros Hpush Hr mtu can_id. revert Hpush. unfold canardTxPush.
  fold mtu.
  destruct (bool_decide _ || _).
  2:{ intros [= <- <- <-]. unfold CANARD_ERROR_INVALID_ARGUMENT in Hr. lia. }
  destruct (makeCANID_range t (node_id i) mtu) as [Hid|Hid].
  { rewrite Hid. cbn. intros [= <- <- <-].
    unfold CANARD_ERROR_INVALID_ARGUMENT in Hr. lia. }
  destruct (Z.leb_spec 0 (makeCANID t (node_id i) mtu)) as [_|]; [|lia].
  assert (Hu : u32 (Z.to_N (makeCANID t (node_id i) mtu)) = can_id).
  { apply u32_small. subst can_id. change 4294967296 with (Z.to_N (2 ^ 32)).
    apply Z2N.inj_lt; lia. }
  rewrite Hu.
  destruct (getPresentationLayerMTU_range i) as (Hmtu & Hvalid).
  fold mtu in Hmtu, Hvalid.
  unfold frame_count, frame_sizes.
  destruct (Nat.leb_spec (tr_payload_size t) mtu) as [Hfit|Hmulti].
  - destruct (pushSingleFrameTransfer h i _ _ _ _ _) as [[r1 h1] i1] eqn:Hsingle.
    intros [= <- <- <-].
    destruct (pushSingleFrameTransfer_queued _ _ _ _ _ _ _ _ _ _ Hsingle Hr)
      as (it & -> & Hi' & Henq & Hd & Hcid & Hsz & Hlen & Hcontent).
    exists [it]. split; [reflexivity|]. split; [exact Hid|].
    split; [exact Hi'|]. split; [exact Henq|].
    split; [constructor; [auto|constructor]|].
    split; [reflexivity|]. split; [cbn; rewrite Hsz; reflexivity|].
    intros Hread. destruct (Hcontent Hread ltac:(lia)) as (k & Hp).
    eapply single_frame_transfer_frames; eauto.
  - destruct (pushMultiFrameTransfer h i mtu _ _ _ _ _) as [[[r1 h1] i1]|] eqn:Hm;
      [|discriminate].
    intros [= <- <- <-].
    destruct (pushMultiFrameTransfer_queued h i mtu _ _ _ _ _ _ _ _ ltac:(lia)
                Hvalid Hmulti Hm Hr)
      as (frames & -> & Hi' & Henq & Hall & Hcount & Hsizes & Hcontent).
    unfold frame_count, frame_sizes in Hcount, Hsizes.
    destruct (Nat.leb_spec (tr_payload_size t) mtu) as [|_]; [lia|].
    exists frames. split; [reflexivity|]. split; [exact Hid|].
    split; [exact Hi'|]. split; [exact Henq|]. split; [exact Hall|].
    split; [exact Hcount|]. split; [exact Hsizes|].
    intros Hread. destruct (Hcontent Hread) as (Htails & Hbodies & k & Hs & Hk).
    split; [apply chain_tail_bytes_bits, Htails|].
    replace (tr_payload_size t <=? mtu)%nat with false
      by (symmetry; apply Nat.leb_gt; lia).
    split; [exact Hbodies|]. exists k. split; [exact Hs|exact Hk].
Qed.

End PushQueued.

(** ** The frames that leave the queue *)

Section FrameSizes.

Lemma frame_count_bounds mtu ps :
  (1 <= mtu)%nat -> (mtu < ps)%nat ->
  (2 <= frame_count mtu ps)%nat /\
  (mtu * (frame_count mtu ps - 1) < ps + 2 <= mtu * frame_count mtu ps)%nat.
Proof.
  intros Hmtu Hmulti. unfold frame_count, CRC_SIZE_BYTES.
  destruct (Nat.leb_spec ps mtu); [lia|].
  pose proof (Nat.div_mod (ps + 2 + mtu - 1) mtu ltac:(lia)) as Hdm.
  pose proof (Nat.mod_upper_bound (ps + 2 + mtu - 1) mtu ltac:(lia)) as Hlt.
  set (n := ((ps + 2 + mtu - 1) / mtu)%nat) in *.
  set (r := ((ps + 2 + mtu - 1) mod mtu)%nat) in *. clearbody n r.
  assert (Hn : (2 <= n)%nat).
  { destruct n as [|[|n]]; [lia|lia|lia]. }
  split; [exact Hn|].
  replace (mtu * (n - 1))%nat with (mtu * n - mtu)%nat
    by (rewrite Nat.mul_sub_distr_l; lia).
  lia.
Qed.

(** Every size in [frame_sizes] is a valid frame length. *)
Lemma frame_sizes_valid mtu ps :
  (1 <= mtu <= 63)%nat ->
  roundFramePayloadSizeUp (mtu + 1) = (mtu + 1)%nat ->
  Forall (fun s => (1 <= s <= mtu + 1)%nat /\ roundFramePayloadSizeUp s = s)
         (frame_sizes mtu ps).
Proof.
  intros Hmtu Hvalid. unfold frame_sizes.
  destruct (Nat.leb_spec ps mtu) as [Hfit|Hmulti].
  - constructor; [|constructor].
    pose proof (roundFramePayloadSizeUp_range (ps + 1) ltac:(lia)).
    pose proof (roundFramePayloadSizeUp_mono (ps + 1) (mtu + 1) ltac:(lia)).
    split; [lia|]. apply roundFramePayloadSizeUp_idemp. lia.
  - destruct (frame_count_bounds mtu ps ltac:(lia) Hmulti) as (Hn & Hb).
    cbv zeta. unfold CRC_SIZE_BYTES. apply Forall_app. split.
    + apply Forall_replicate. split; [lia|exact Hvalid].
    + constructor; [|constructor].
      set (rest := (ps + 2 - mtu * (frame_count mtu ps - 1))%nat).
      assert (Hrest : (1 <= rest <= mtu)%nat).
      { subst rest.
        replace (mtu * frame_count mtu ps)%nat
          with (mtu * (frame_count mtu ps - 1) + mtu)%nat in Hb
          by (rewrite Nat.mul_sub_distr_l; lia).
        lia. }
      pose proof (roundFramePayloadSizeUp_range (rest + 1) ltac:(lia)).
      pose proof (roundFramePayloadSizeUp_mono (rest + 1) (mtu + 1) ltac:(lia)).
      split; [lia|]. apply roundFramePayloadSizeUp_idemp. lia.
Qed.

End FrameSizes.

(** X8: A transfer that fits the presentation-layer MTU goes out as one frame;
    a longer one goes out as the least number of frames, at least two, that
    hold payload and CRC at MTU bytes per frame.  The frames stand in the
    queue as one block; all but the last are full, and the last is rounded
    up to a valid frame length. *)
Theorem canardTxPush_frame_count (h : Heap) (i : CanardInstance)
    (t : CanardTransfer) (r : Z) (h' : Heap) (i' : CanardInstance) :
  canardTxPush h (Some i) (Some t) = Some (r, h', Some i') ->
  (0 < r)%Z ->
  let mtu := getPresentationLayerMTU i in
  let ps := tr_payload_size t in
  r = Z.of_nat (frame_count mtu ps) /\
  (if (ps <=? mtu)%nat then r = 1%Z
   else (2 <= r)%Z /\
        (mtu * (frame_count mtu ps - 1) < ps + 2 <= mtu * frame_count mtu ps)%nat) /\
  exists before frames after,
    tx_queue i = before ++ after /\
    tx_queue i' = before ++ frames ++ after /\
    tqi_payload_size <$> frames = frame_sizes mtu ps /\
    Forall (fun it => (tqi_payload_size it <= mtu + 1)%nat) frames.
Proof.
  intros Hpush Hr mtu ps.
  destruct (canardTxPush_queued h i t r h' i' Hpush Hr)
    as (frames & Hlen & _ & _ & Henq & _ & Hcount & Hsizes & _).
  fold mtu ps in Hcount, Hsizes.
  destruct (getPresentationLayerMTU_range i) as (Hmtu & Hvalid).
  fold mtu in Hmtu, Hvalid.
  split; [rewrite Hlen, Hcount; reflexivity|]. split.
  - destruct (Nat.leb_spec ps mtu) as [Hfit|Hmulti].
    + rewrite Hlen, Hcount. unfold frame_count.
      destruct (Nat.leb_spec ps mtu); [reflexivity|lia].
    + destruct (frame_count_bounds mtu ps ltac:(lia) Hmulti) as (Hn & Hb).
      split; [lia|exact Hb].
  - destruct Henq as (_ & _ & (before & after & Hq & Hq' & _) & _).
    exists before, frames, after. split; [exact Hq|]. split; [exact Hq'|].
    split; [exact Hsizes|].
    pose proof (frame_sizes_valid mtu ps ltac:(lia) Hvalid) as Hv.
    rewrite <- Hsizes in Hv. rewrite Forall_fmap in Hv.
    eapply Forall_impl; [exact Hv|]. cbn. intros x [Hx _]. lia.
Qed.

Lemma canardTxPush_frame_count_witness :
  let mtu := getPresentationLayerMTU (instance_of 8 42) in
  let ps := tr_payload_size three_frame_transfer in
  three_frame_push.1.1 = Z.of_nat (frame_count mtu ps) /\
  (if (ps <=? mtu)%nat then three_frame_push.1.1 = 1%Z
   else (2 <= three_frame_push.1.1)%Z /\
        (mtu * (frame_count mtu ps - 1) < ps + 2 <= mtu * frame_count mtu ps)%nat) /\
  exists before frames after,
    tx_queue (instance_of 8 42) = before ++ after /\
    tx_queue three_frame_push.2 = before ++ frames ++ after /\
    tqi_payload_size <$> frames = frame_sizes mtu ps /\
    Forall (fun it => (tqi_payload_size it <= mtu + 1)%nat) frames.
Proof.
  apply (canardTxPush_frame_count (heap_of [true; true; true]) (instance_of 8 42)
           three_frame_transfer _ three_frame_push.1.2);
    [vm_compute; reflexivity|vm_compute; reflexivity].
Defined.

Section Sendable.

Lemma canardTxPush_sendable h i t r h' i' :
  canardTxPush h (Some i) (Some t) = Some (r, h', Some i') ->
  Forall frame_sendable (tx_queue i) ->
  Forall frame_sendable (tx_queue i').
Proof.
  intros Hpush Hq.
  destruct (Z.lt_ge_cases 0 r) as [Hr|Hr].
  - destruct (canardTxPush_queued h i t r h' i' Hpush Hr)
      as (frames & _ & Hid & _ & Henq & Hall & _ & Hsizes & _).
    destruct (getPresentationLayerMTU_range i) as (Hmtu & Hvalid).
    pose proof (frame_sizes_valid (getPresentationLayerMTU i) (tr_payload_size t)
                  ltac:(lia) Hvalid) as Hv.
    rewrite <- Hsizes, Forall_fmap in Hv.
    destruct Henq as (_ & _ & (before & after & Hb & -> & _) & _).
    rewrite Hb in Hq. apply Forall_app in Hq as (Hqb & Hqa).
    rewrite !Forall_app. split; [exact Hqb|]. split; [|exact Hqa].
    rewrite Forall_forall in *. intros x Hx.
    destruct (Hall x Hx) as (_ & Hcid & Hlen).
    destruct (Hv x Hx) as (Hrange & Hround). cbv beta in Hrange, Hround.
    split; [|split; [lia|split; assumption]].
    rewrite Hcid. unfold CAN_EXT_ID_MASK.
    change (N.shiftl 1 29 - 1) with (Z.to_N (2 ^ 29 - 1)).
    apply Z2N.inj_le; lia.
  - destruct (canardTxPush_outcomes h i t) as (r0 & h0 & i0 & Heq & Hcase).
    rewrite Hpush in Heq. injection Heq as <- <- <-.
    destruct Hcase as
        [(_ & -> & _)|(_ & _ & [(_ & -> & _)|(frames & -> & Henq & _)])];
      [exact Hq|exact Hq|].
    destruct Henq as (Hne & _). destruct frames; [contradiction|].
    cbn [length] in Hr. lia.
Qed.

(** Every sequence of pushes, pops and reconfigurations runs to the end and
    leaves only sendable frames in the queue. *)
Lemma run_tx_sendable calls : forall h i,
  Forall frame_sendable (tx_queue i) ->
  exists h' i', run_tx calls h i = Some (h', i') /\
                Forall frame_sendable (tx_queue i').
Proof.
  induction calls as [|[t| |mtu node] calls IH]; intros h i Hq; cbn [run_tx].
  - eauto.
  - destruct (canardTxPush_outcomes h i t) as (r & h' & i' & Heq & _).
    rewrite Heq. apply IH. eapply canardTxPush_sendable; eauto.
  - unfold canardTxPop. destruct (tx_queue i) as [|first rest] eqn:Hi.
    + apply IH. rewrite Hi. exact Hq.
    + apply IH. cbn. apply Forall_cons in Hq as (_ & Hq). exact Hq.
  - apply IH. exact Hq.
Qed.

End Sendable.

(** X9: Whatever was pushed, popped and reconfigured, [canardTxPeek] answers 0
    and leaves the caller's frame alone when the queue is empty, and
    otherwise answers 1 with a frame that a CAN FD controller can take and
    that [canardRxAccept] takes as a frame to look at: a 29-bit identifier,
    a valid frame length of 1 to 64 bytes, and a payload pointer that can be
    read for the whole frame. *)
Theorem canardTxPeek_sendable (calls : list TxCall) (h : Heap)
    (i : CanardInstance) (f0 : CanardFrame) :
  Forall frame_sendable (tx_queue i) ->
  exists h' i',
    run_tx calls h i = Some (h', i') /\
    ((tx_queue i' = [] /\ canardTxPeek (Some i') (Some f0) = (0%Z, Some f0)) \/
     (exists f,
        canardTxPeek (Some i') (Some f0) = (1%Z, Some f) /\
        rx_arguments_valid f /\
        (1 <= fr_payload_size f <= 64)%nat /\
        roundFramePayloadSizeUp (fr_payload_size f) = fr_payload_size f /\
        length (bytes_of (fr_payload f)) = fr_payload_size f)).
Proof.
  intros Hq. destruct (run_tx_sendable calls h i Hq) as (h' & i' & Hrun & Hq').
  exists h', i'. split; [exact Hrun|].
  unfold canardTxPeek. destruct (tx_queue i') as [|it q]; [left; auto|].
  right. apply Forall_cons in Hq' as ((Hid & Hsz & Hround & Hlen) & _).
  eexists. split; [reflexivity|].
  split; [split; [exact Hid|left; eexists; reflexivity]|].
  cbn. auto.
Qed.

Lemma canardTxPeek_sendable_witness :
  exists h' i',
    run_tx sample_calls (heap_of [true; true; true; true; true]) (instance_of 64 1)
    = Some (h', i') /\
    ((tx_queue i' = [] /\
      canardTxPeek (Some i') (Some blank_frame) = (0%Z, Some blank_frame)) \/
     (exists f,
        canardTxPeek (Some i') (Some blank_frame) = (1%Z, Some f) /\
        rx_arguments_valid f /\
        (1 <= fr_payload_size f <= 64)%nat /\
        roundFramePayloadSizeUp (fr_payload_size f) = fr_payload_size f /\
        length (bytes_of (fr_payload f)) = fr_payload_size f)).
Proof.
  apply (canardTxPeek_sendable sample_calls (heap_of [true; true; true; true; true])
           (instance_of 64 1) blank_frame).
  constructor.
Defined.

(** ** From the queue to the parser *)

Section FramesParse.

Lemma frame_of_tail it :
  length (tqi_payload it) = tqi_payload_size it ->
  frame_tail (frame_of it) = frame_tail_byte it.
Proof.
  intros Hlen. unfold frame_tail, frame_of, frame_tail_byte. cbn. rewrite Hlen.
  reflexivity.
Qed.

Lemma even_of_toggle (b : bool) j :
  N.b2n b = N.lxor 1 (N.land (N.of_nat j) 1) -> b = Nat.even j.
Proof. intros H. apply N.b2n_inj. rewrite H, toggle_of_index. reflexivity. Qed.

(** The frames of a transfer, as queued, are frames of the protocol. *)
Lemma queued_frames_parse (i : CanardInstance) (t : CanardTransfer)
    (frames : list CanardInternalTxQueueItem) :
  (0 <= makeCANID t (node_id i) (getPresentationLayerMTU i))%Z ->
  Forall (fun it =>
            tqi_deadline_usec it = tr_timestamp_usec t /\
            tqi_id it = Z.to_N (makeCANID t (node_id i) (getPresentationLayerMTU i)) /\
            length (tqi_payload it) = tqi_payload_size it) frames ->
  length frames = frame_count (getPresentationLayerMTU i) (tr_payload_size t) ->
  chain_tails (tr_transfer_id t) frames ->
  forall j it m,
    frames !! j = Some it ->
    tryParseFrame (frame_of it) m
    = (true,
       {| fm_timestamp_usec := tr_timestamp_usec t;
          fm_priority := u32 (tr_priority t);
          fm_transfer_kind := tr_transfer_kind t;
          fm_port_id := tr_port_id t;
          fm_source_node_id :=
            if node_id i <=? CANARD_NODE_ID_MAX then node_id i
            else CANARD_NODE_ID_UNSET;
          fm_destination_node_id := tr_remote_node_id t;
          fm_transfer_id := tr_transfer_id t mod 32;
          fm_start_of_transfer := (j =? 0)%nat;
          fm_end_of_transfer := (S j =? length frames)%nat;
          fm_toggle := Nat.even j;
          fm_payload_size := (tqi_payload_size it - 1)%nat;
          fm_payload := Some {| buf_base := tqi_block it;
                                buf_bytes := tqi_payload it |} |}).
Proof.
  intros Hid Hall Hcount Htails j it m Hj.
  rewrite Forall_forall in Hall.
  destruct (Hall it (list_elem_of_lookup_2 _ _ _ Hj)) as (Hd & Hcid & Hsized).
  destruct (Htails j it Hj) as (Hp & _ & Htog & Hsot & Heot & Htid).
  apply even_of_toggle in Htog.
  assert (Hsz : (0 < fr_payload_size (frame_of it))%nat).
  { cbn. rewrite <- Hsized, Hp, length_app. cbn. lia. }
  destruct (makeCANID_fields t (node_id i) (getPresentationLayerMTU i)
              ltac:(lia))
    as (Hf1 & Hf2 & Hf3 & Hf4 & Hf5 & Hf6 & Hf7 & Hf8).
  cbv zeta in *.
  rewrite (tryParseFrame_fields _ m Hsz).
  unfold unparseable. rewrite (frame_of_tail it Hsized).
  cbn [frame_of fr_extended_can_id fr_payload_size fr_timestamp_usec fr_payload].
  rewrite Hcid, Hf1, Hf2, Hf3, Hf4, Hf5, Hf6, Hf7, Hsot, Heot, Htog, Htid, Hd.
  replace (tqi_payload_size it =? 0)%nat with false
    by (symmetry; apply Nat.eqb_neq; cbn in Hsz; lia).
  (* the reserved bit 7 of a message *)
  assert (H7 : negb (N.testbit (Z.to_N (makeCANID t (node_id i)
                                          (getPresentationLayerMTU i))) 25)
               && N.testbit (Z.to_N (makeCANID t (node_id i)
                                       (getPresentationLayerMTU i))) 7 = false).
  { unfold id_kind in Hf2.
    destruct (N.testbit _ 25) eqn:H25; [reflexivity|].
    cbn [negb andb]. apply Hf8. symmetry. exact Hf2. }
  rewrite H7.
  (* an anonymous transfer is a single frame *)
  assert (Hanon : (node_id i <=? CANARD_NODE_ID_MAX) = false ->
                  (j =? 0)%nat = true /\ (S j =? length frames)%nat = true).
  { intros Hl.
    destruct (makeCANID_value t (node_id i) (getPresentationLayerMTU i)
                ltac:(lia)) as (_ & Hcase).
    apply N.leb_gt in Hl. unfold CANARD_NODE_ID_MAX in Hl.
    assert (Hfit : (tr_payload_size t <= getPresentationLayerMTU i)%nat).
    { destruct Hcase as [(_ & _ & _ & [(? & _)|(_ & ? & _)])|(_ & _ & _ & ? & _)];
        [lia|assumption|lia]. }
    unfold frame_count in Hcount.
    destruct (Nat.leb_spec (tr_payload_size t) (getPresentationLayerMTU i));
      [|lia].
    apply lookup_lt_Some in Hj. rewrite Hcount in *.
    replace j with 0%nat by lia. split; reflexivity. }
  destruct (node_id i <=? CANARD_NODE_ID_MAX) eqn:Hl; cbn [negb].
  - destruct (j =? 0)%nat eqn:Hj0.
    + apply Nat.eqb_eq in Hj0. subst j. cbn. reflexivity.
    + cbn. reflexivity.
  - destruct (Hanon eq_refl) as (Hj0 & ->).
    apply Nat.eqb_eq in Hj0. subst j. cbn. reflexivity.
Qed.

End FramesParse.

(** X10: Every frame that a push queues parses as a frame of the transfer: the
    parser finds the deadline, the priority, the kind, the port-ID, the
    source (UNSET when the sender is anonymous), the destination, the
    transfer-ID modulo 32, start-of-transfer on the first frame only,
    end-of-transfer on the last frame only and the toggle set on the even
    frames, and it calls the frame valid. *)
Theorem canardTxPush_frames_parse (h : Heap) (i : CanardInstance)
    (t : CanardTransfer) (r : Z) (h' : Heap) (i' : CanardInstance) :
  canardTxPush h (Some i) (Some t) = Some (r, h', Some i') ->
  (0 < r)%Z ->
  transfer_readable t ->
  exists before frames after,
    tx_queue i = before ++ after /\
    tx_queue i' = before ++ frames ++ after /\
    r = Z.of_nat (length frames) /\
    forall j it m,
      frames !! j = Some it ->
      tryParseFrame (frame_of it) m
      = (true,
         {| fm_timestamp_usec := tr_timestamp_usec t;
            fm_priority := u32 (tr_priority t);
            fm_transfer_kind := tr_transfer_kind t;
            fm_port_id := tr_port_id t;
            fm_source_node_id :=
              if node_id i <=? CANARD_NODE_ID_MAX then node_id i
              else CANARD_NODE_ID_UNSET;
            fm_destination_node_id := tr_remote_node_id t;
            fm_transfer_id := tr_transfer_id t mod 32;
            fm_start_of_transfer := (j =? 0)%nat;
            fm_end_of_transfer := (S j =? length frames)%nat;
            fm_toggle := Nat.even j;
            fm_payload_size := (tqi_payload_size it - 1)%nat;
            fm_payload := Some {| buf_base := tqi_block it;
                                  buf_bytes := tqi_payload it |} |}).
Proof.
  intros Hpush Hr Hread.
  destruct (canardTxPush_queued h i t r h' i' Hpush Hr)
    as (frames & Hlen & Hid & _ & Henq & Hall & Hcount & _ & Hframes).
  destruct (Hframes Hread) as (Htails & _).
  destruct Henq as (_ & _ & (before & after & Hq & Hq' & _) & _).
  exists before, frames, after.
  split; [exact Hq|]. split; [exact Hq'|]. split; [exact Hlen|].
  apply queued_frames_parse; [lia|exact Hall|exact Hcount|exact Htails].
Qed.

Lemma canardTxPush_frames_parse_witness :
  exists before frames after,
    tx_queue (instance_of 8 42) = before ++ after /\
    tx_queue three_frame_push.2 = before ++ frames ++ after /\
    three_frame_push.1.1 = Z.of_nat (length frames) /\
    forall j it m,
      frames !! j = Some it ->
      tryParseFrame (frame_of it) m
      = (true,
         {| fm_timestamp_usec := tr_timestamp_usec three_frame_transfer;
            fm_priority := u32 (tr_priority three_frame_transfer);
            fm_transfer_kind := tr_transfer_kind three_frame_transfer;
            fm_port_id := tr_port_id three_frame_transfer;
            fm_source_node_id :=
              if node_id (instance_of 8 42) <=? CANARD_NODE_ID_MAX
              then node_id (instance_of 8 42)
              else CANARD_NODE_ID_UNSET;
            fm_destination_node_id := tr_remote_node_id three_frame_transfer;
            fm_transfer_id := tr_transfer_id three_frame_transfer mod 32;
            fm_start_of_transfer := (j =? 0)%nat;
            fm_end_of_transfer := (S j =? length frames)%nat;
            fm_toggle := Nat.even j;
            fm_payload_size := (tqi_payload_size it - 1)%nat;
            fm_payload := Some {| buf_base := tqi_block it;
                                  buf_bytes := tqi_payload it |} |}).
Proof.
  apply (canardTxPush_frames_parse (heap_of [true; true; true]) (instance_of 8 42)
           three_frame_transfer _ three_frame_push.1.2);
    [vm_compute; reflexivity|vm_compute; reflexivity
    |unfold transfer_readable; cbn; lia].
Defined.

(** ** Reception: the search, the store and the model of a frame *)

Section RxSearch.

Lemma acceptFrame_search_shift subs port : forall pos,
  acceptFrame_search subs port (S pos) = S <$> acceptFrame_search subs port pos.
Proof.
  induction subs as [|s subs IH]; intros pos; cbn [acceptFrame_search];
    [reflexivity|].
  destruct (negb _); [apply IH|reflexivity].
Qed.

(** The search stops at the first subscription with the port-ID. *)
Lemma acceptFrame_search_head subs port :
  acceptFrame_search subs port 0 ≫= (fun pos => subs !! pos)
  = head (filter (fun s => sub_port_id s = port) subs).
Proof.
  induction subs as [|s subs IH]; [reflexivity|].
  cbn [acceptFrame_search].
  destruct (N.eqb_spec (sub_port_id s) port) as [He|Hne]; cbn [negb].
  - rewrite filter_cons_True by exact He. reflexivity.
  - rewrite filter_cons_False by exact Hne. rewrite <- IH.
    rewrite acceptFrame_search_shift.
    destruct (acceptFrame_search subs port 0); reflexivity.
Qed.

Lemma acceptFrame_search_found subs port pos :
  acceptFrame_search subs port 0 = Some pos ->
  exists sub, subs !! pos = Some sub /\ sub_port_id sub = port.
Proof.
  revert pos. induction subs as [|s subs IH]; intros pos; [discriminate|].
  cbn [acceptFrame_search].
  destruct (N.eqb_spec (sub_port_id s) port) as [He|Hne]; cbn [negb].
  - intros [= <-]. eauto.
  - rewrite acceptFrame_search_shift.
    destruct (acceptFrame_search subs port 0) as [k|]; [|discriminate].
    intros [= <-]. apply IH. reflexivity.
Qed.

Lemma subscription_of_head i kind port :
  subscription_of i kind port
  = head (filter (fun s => sub_port_id s = port) (subscriptions_of i kind)).
Proof. apply acceptFrame_search_head. Qed.

(** Replacing a subscription by one with the same port-ID does not move
    the search. *)
Lemma acceptFrame_search_insert subs pos sub sub' p :
  subs !! pos = Some sub ->
  sub_port_id sub' = sub_port_id sub ->
  acceptFrame_search (<[pos := sub']> subs) p 0 = acceptFrame_search subs p 0.
Proof.
  revert pos. induction subs as [|s subs IH]; intros [|pos] Hl Hp;
    try discriminate; cbn [acceptFrame_search].
  - cbn in Hl. injection Hl as ->. cbn. rewrite Hp. reflexivity.
  - cbn. destruct (negb _); [|reflexivity].
    rewrite !acceptFrame_search_shift. f_equal. eapply IH; eauto.
Qed.

Lemma filter_delete {A} (P : A -> Prop) `{!forall x, Decision (P x)}
    (l : list A) pos x :
  l !! pos = Some x -> ~ P x -> filter P (delete pos l) = filter P l.
Proof.
  revert pos. induction l as [|y l IH]; intros [|pos] Hl Hx; try discriminate.
  - cbn in Hl. injection Hl as ->. change (delete 0%nat (x :: l)) with l.
    rewrite filter_cons_False by exact Hx. reflexivity.
  - change (delete (S pos) (y :: l)) with (y :: delete pos l).
    rewrite !filter_cons. rewrite (IH pos Hl Hx). reflexivity.
Qed.

Lemma filter_none {A} (P : A -> Prop) `{!forall x, Decision (P x)} (l : list A) :
  Forall (fun x => ~ P x) l -> filter P l = [].
Proof.
  induction 1 as [|x l Hx _ IH]; [reflexivity|].
  rewrite filter_cons_False by exact Hx. exact IH.
Qed.

(** With one subscription per port, deleting the one found leaves none. *)
Lemma filter_delete_found (subs : list CanardRxSubscription) port pos :
  NoDup (sub_port_id <$> subs) ->
  acceptFrame_search subs port 0 = Some pos ->
  filter (fun s => sub_port_id s = port) (delete pos subs) = [].
Proof.
  revert pos. induction subs as [|s subs IH]; intros pos Hnd; [discriminate|].
  cbn [acceptFrame_search]. cbn [fmap list_fmap] in Hnd.
  apply NoDup_cons in Hnd as (Hs & Hnd).
  destruct (N.eqb_spec (sub_port_id s) port) as [He|Hne]; cbn [negb].
  - intros [= <-]. change (delete 0%nat (s :: subs)) with subs.
    apply filter_none. apply Forall_forall. intros x Hx Hp.
    apply Hs. rewrite He, <- Hp. apply list_elem_of_fmap_2. exact Hx.
  - rewrite acceptFrame_search_shift.
    destruct (acceptFrame_search subs port 0) as [k|] eqn:Hk; [|discriminate].
    intros [= <-]. change (delete (S k) (s :: subs)) with (s :: delete k subs).
    rewrite filter_cons_False by exact Hne. apply IH; [exact Hnd|reflexivity].
Qed.

End RxSearch.

Section RxStore.

Lemma subscriptions_of_lookup i k pos sub :
  subscriptions_of i k !! pos = Some sub ->
  rx_subscriptions i !! N.to_nat k = Some (subscriptions_of i k).
Proof.
  unfold subscriptions_of.
  destruct (rx_subscriptions i !! N.to_nat k); [reflexivity|discriminate].
Qed.

Lemma set_sub_sessions_id sub : set_sub_sessions sub (sub_sessions sub) = sub.
Proof. destruct sub. reflexivity. Qed.

Lemma set_rx_subscriptions_id i : set_rx_subscriptions i (rx_subscriptions i) = i.
Proof. destruct i. reflexivity. Qed.

Lemma store_subscription_id i k pos sub :
  subscriptions_of i k !! pos = Some sub ->
  store_subscription i k pos sub = i.
Proof.
  intros Hl. unfold store_subscription.
  rewrite (list_insert_id _ _ _ Hl).
  rewrite (list_insert_id _ _ _ (subscriptions_of_lookup i k pos sub Hl)).
  apply set_rx_subscriptions_id.
Qed.

Lemma subscriptions_of_store i k pos sub sub' :
  subscriptions_of i k !! pos = Some sub ->
  subscriptions_of (store_subscription i k pos sub') k
  = <[pos := sub']> (subscriptions_of i k).
Proof.
  intros Hl. unfold store_subscription, subscriptions_of at 1.
  cbn [rx_subscriptions set_rx_subscriptions].
  rewrite list_lookup_insert_eq; [reflexivity|].
  eapply lookup_lt_Some, subscriptions_of_lookup, Hl.
Qed.

Lemma subscriptions_of_store_ne i k pos sub' k' :
  N.to_nat k' <> N.to_nat k ->
  subscriptions_of (store_subscription i k pos sub') k' = subscriptions_of i k'.
Proof.
  intros Hne. unfold store_subscription, subscriptions_of at 1.
  cbn [rx_subscriptions set_rx_subscriptions].
  rewrite list_lookup_insert_ne by congruence. reflexivity.
Qed.

End RxStore.

(** ** acceptFrame, case by case *)

Section AcceptCases.

Context (h : Heap) (i : CanardInstance) (m : FrameModel) (iface : N)
        (t : CanardTransfer).

Lemma subscription_of_search sub :
  subscription_of i (fm_transfer_kind m) (fm_port_id m) = Some sub ->
  exists pos,
    acceptFrame_search (subscriptions_of i (fm_transfer_kind m)) (fm_port_id m) 0
    = Some pos /\
    subscriptions_of i (fm_transfer_kind m) !! pos = Some sub /\
    sub_port_id sub = fm_port_id m.
Proof.
  unfold subscription_of.
  destruct (acceptFrame_search _ _ _) as [pos|] eqn:Hs; [|discriminate].
  cbn. intros Hl. exists pos. split; [reflexivity|]. split; [exact Hl|].
  destruct (acceptFrame_search_found _ _ _ Hs) as (sub' & Hl' & Hp). congruence.
Qed.

(** No subscription: the frame is ignored. *)
Lemma acceptFrame_unsubscribed :
  subscription_of i (fm_transfer_kind m) (fm_port_id m) = None ->
  acceptFrame h i m iface t = (0%Z, h, i, t).
Proof.
  unfold subscription_of, acceptFrame.
  destruct (acceptFrame_search _ _ _) as [pos|]; [|reflexivity].
  cbn. intros ->. reflexivity.
Qed.

(** A frame without a source is taken as a whole transfer. *)
Lemma acceptFrame_stateless sub :
  subscription_of i (fm_transfer_kind m) (fm_port_id m) = Some sub ->
  CANARD_NODE_ID_MAX < fm_source_node_id m ->
  acceptFrame h i m iface t = (1%Z, h, i, initRxTransferFromFrame m).
Proof.
  intros Hsub Hsrc.
  destruct (subscription_of_search sub Hsub) as (pos & Hs & Hl & _).
  unfold acceptFrame. rewrite Hs, Hl.
  destruct (N.leb_spec (fm_source_node_id m) CANARD_NODE_ID_MAX); [lia|].
  reflexivity.
Qed.

(** A frame of a source that has a session, or that does not start a
    transfer, changes nothing. *)
Lemma acceptFrame_idle sub :
  subscription_of i (fm_transfer_kind m) (fm_port_id m) = Some sub ->
  fm_source_node_id m <= CANARD_NODE_ID_MAX ->
  mjoin (sub_sessions sub !! N.to_nat (fm_source_node_id m)) <> None
  \/ fm_start_of_transfer m = false ->
  acceptFrame h i m iface t = (0%Z, h, i, t).
Proof.
  intros Hsub Hsrc Hidle.
  destruct (subscription_of_search sub Hsub) as (pos & Hs & Hl & _).
  unfold acceptFrame. rewrite Hs, Hl.
  destruct (N.leb_spec (fm_source_node_id m) CANARD_NODE_ID_MAX); [|lia].
  replace (bool_decide _ && fm_start_of_transfer m) with false.
  2:{ symmetry. apply andb_false_iff.
      destruct Hidle as [Hslot|Hsot]; [left|right; exact Hsot].
      apply bool_decide_eq_false. exact Hslot. }
  destruct (mjoin (sub_sessions sub !! N.to_nat (fm_source_node_id m)))
    as [rxs|] eqn:Hslot; unfold updateRxSession; cbv beta iota zeta.
  - assert (Hin : sub_sessions sub !! N.to_nat (fm_source_node_id m) = Some (Some rxs)).
    { destruct (sub_sessions sub !! _) as [[x|]|]; cbn in Hslot; congruence. }
    rewrite (list_insert_id _ _ _ Hin), set_sub_sessions_id.
    rewrite (store_subscription_id _ _ _ _ Hl). reflexivity.
  - rewrite (store_subscription_id _ _ _ _ Hl). reflexivity.
Qed.

(** The first frame of a transfer from a source without a session: one
    allocation, and the session in its initial state if it is granted. *)
Lemma acceptFrame_new_session sub :
  subscription_of i (fm_transfer_kind m) (fm_port_id m) = Some sub ->
  fm_source_node_id m <= CANARD_NODE_ID_MAX ->
  sub_sessions sub !! N.to_nat (fm_source_node_id m) = Some None ->
  fm_start_of_transfer m = true ->
  exists pos,
    acceptFrame_search (subscriptions_of i (fm_transfer_kind m)) (fm_port_id m) 0
    = Some pos /\
    subscriptions_of i (fm_transfer_kind m) !! pos = Some sub /\
    acceptFrame h i m iface t
    = match memory_allocate h (sizeof_CanardInternalRxSession
                               + sub_payload_size_bytes_max sub) with
      | (Some b, h') =>
          (0%Z, h',
           store_subscription i (fm_transfer_kind m) pos
             (set_sub_sessions sub
                (<[N.to_nat (fm_source_node_id m) :=
                     Some {| rxs_block := b;
                             rxs_transfer_timestamp_usec := fm_timestamp_usec m;
                             rxs_payload_size := 0;
                             rxs_payload := None;
                             rxs_calculated_crc := CRC_INITIAL;
                             rxs_toggle_and_transfer_id := TAIL_TOGGLE;
                             rxs_iface_index := 0 |}]> (sub_sessions sub))),
           t)
      | (None, h') => ((- CANARD_ERROR_OUT_OF_MEMORY)%Z, h', i, t)
      end.
Proof.
  intros Hsub Hsrc Hslot Hsot.
  destruct (subscription_of_search sub Hsub) as (pos & Hs & Hl & _).
  exists pos. split; [exact Hs|]. split; [exact Hl|].
  unfold acceptFrame. rewrite Hs, Hl.
  destruct (N.leb_spec (fm_source_node_id m) CANARD_NODE_ID_MAX); [|lia].
  rewrite Hslot, Hsot. cbn [mjoin option_join andb].
  rewrite bool_decide_eq_true_2 by reflexivity.
  assert (Hlt : (N.to_nat (fm_source_node_id m) < length (sub_sessions sub))%nat)
    by (eapply lookup_lt_Some, Hslot).
  destruct (memory_allocate h _) as [[b|] h'].
  - cbn [andb]. cbv beta iota zeta. cbn [sub_sessions set_sub_sessions].
    rewrite list_lookup_insert_eq by exact Hlt. cbn [mjoin option_join].
    unfold updateRxSession. cbv beta iota zeta.
    cbn [sub_sessions set_sub_sessions sub_port_id sub_payload_size_bytes_max
         sub_transfer_id_timeout_usec].
    rewrite list_insert_insert_eq. reflexivity.
  - cbn [andb]. cbv beta iota zeta. cbn [sub_sessions set_sub_sessions].
    rewrite (list_insert_id _ _ _ Hslot), Hslot. cbn [mjoin option_join].
    rewrite set_sub_sessions_id, (store_subscription_id _ _ _ _ Hl). reflexivity.
Qed.

End AcceptCases.

(** ** canardRxAccept, case by case *)

Section RxAcceptCases.

Lemma rx_arguments_checked f :
  (fr_extended_can_id f <=? CAN_EXT_ID_MASK)
  && (bool_decide (is_Some (fr_payload f)) || (0 =? fr_payload_size f)%nat) = true
  <-> rx_arguments_valid f.
Proof.
  split; [|apply rx_arguments_accepted].
  intros H. apply andb_true_iff in H as [Hid Hp]. split; [apply N.leb_le, Hid|].
  apply orb_true_iff in Hp as [Hp|Hp].
  - left. apply bool_decide_eq_true in Hp. exact Hp.
  - right. apply Nat.eqb_eq in Hp. congruence.
Qed.

Lemma frame_model_fields f :
  (0 < fr_payload_size f)%nat ->
  let can_id := fr_extended_can_id f in
  let tail := frame_tail f in
  frame_model f
  = {| fm_timestamp_usec := fr_timestamp_usec f;
       fm_priority := id_priority can_id;
       fm_transfer_kind := id_kind can_id;
       fm_port_id := id_port can_id;
       fm_source_node_id :=
         if id_is_anonymous can_id then CANARD_NODE_ID_UNSET else id_source can_id;
       fm_destination_node_id := id_destination can_id;
       fm_transfer_id := tail_transfer_id tail;
       fm_start_of_transfer := tail_start_of_transfer tail;
       fm_end_of_transfer := tail_end_of_transfer tail;
       fm_toggle := tail_toggle tail;
       fm_payload_size := (fr_payload_size f - 1)%nat;
       fm_payload := fr_payload f |}.
Proof.
  intros Hsz can_id tail. unfold frame_model.
  rewrite (tryParseFrame_fields f FrameModel_zero Hsz). reflexivity.
Qed.

Lemma unparseable_size f : unparseable f = false -> (0 < fr_payload_size f)%nat.
Proof.
  unfold unparseable.
  destruct (Nat.eqb_spec (fr_payload_size f) 0%nat); [discriminate|lia].
Qed.

(** The arguments are refused. *)
Lemma canardRxAccept_refused h i f iface t :
  ~ rx_arguments_valid f ->
  canardRxAccept h (Some i) (Some f) iface (Some t)
  = ((- CANARD_ERROR_INVALID_ARGUMENT)%Z, h, Some i, Some t).
Proof.
  intros Hbad. unfold canardRxAccept.
  destruct (_ && _) eqn:Hchk; [|reflexivity].
  apply rx_arguments_checked in Hchk. contradiction.
Qed.

(** The frame is not for this node, or not a frame of the protocol. *)
Lemma canardRxAccept_skipped h i f iface t :
  rx_arguments_valid f ->
  unparseable f || misaddressed i f = true ->
  canardRxAccept h (Some i) (Some f) iface (Some t) = (0%Z, h, Some i, Some t).
Proof.
  intros Hargs Hskip. unfold canardRxAccept.
  rewrite (rx_arguments_accepted f Hargs).
  destruct (Nat.eq_dec (fr_payload_size f) 0%nat) as [Hz|Hnz].
  { unfold tryParseFrame. rewrite Hz. reflexivity. }
  rewrite tryParseFrame_fields by lia.
  destruct (unparseable f); cbn [negb orb] in *; [reflexivity|].
  cbn [fm_destination_node_id].
  unfold misaddressed in Hskip. apply andb_true_iff in Hskip as [H1 H2].
  apply negb_true_iff in H1, H2.
  rewrite (N.eqb_sym CANARD_NODE_ID_UNSET), H1, (N.eqb_sym (node_id i)), H2.
  reflexivity.
Qed.

(** The frame goes to [acceptFrame]. *)
Lemma canardRxAccept_parsed h i f iface t :
  rx_arguments_valid f ->
  unparseable f = false ->
  misaddressed i f = false ->
  canardRxAccept h (Some i) (Some f) iface (Some t)
  = (let '(out, h', i', t') := acceptFrame h i (frame_model f) iface t in
     (out, h', Some i', Some t')).
Proof.
  intros Hargs Hparse Hdst. unfold canardRxAccept.
  rewrite (rx_arguments_accepted f Hargs).
  pose proof (unparseable_size f Hparse) as Hsz.
  rewrite (frame_model_fields f Hsz).
  rewrite tryParseFrame_fields, Hparse by exact Hsz. cbn [negb].
  cbn [fm_destination_node_id].
  unfold misaddressed in Hdst. apply andb_false_iff in Hdst.
  replace ((CANARD_NODE_ID_UNSET =? id_destination (fr_extended_can_id f))
           || (node_id i =? id_destination (fr_extended_can_id f))) with true.
  2:{ symmetry. apply orb_true_iff.
      destruct Hdst as [H|H]; apply negb_false_iff in H; [left|right];
        rewrite N.eqb_sym; exact H. }
  reflexivity.
Qed.

End RxAcceptCases.

(** ** Subscribing and unsubscribing *)

Section Subscriptions.

(** What the clean-up loop of [canardRxUnsubscribe] does to the allocator:
    the blocks of the sessions leave the live blocks, and each counts as
    freed. *)
Lemma canardRxUnsubscribe_for_effect sessions : forall h,
  let blocks := concat (session_blocks <$> sessions) in
  live (canardRxUnsubscribe_for h sessions)
  = filter (fun b => b ∉ blocks) (live h) /\
  n_freed (canardRxUnsubscribe_for h sessions) = (n_freed h + length blocks)%nat /\
  n_allocated (canardRxUnsubscribe_for h sessions) = n_allocated h /\
  n_refused (canardRxUnsubscribe_for h sessions) = n_refused h /\
  next_block (canardRxUnsubscribe_for h sessions) = next_block h /\
  answers (canardRxUnsubscribe_for h sessions) = answers h /\
  junk (canardRxUnsubscribe_for h sessions) = junk h.
Proof.
  induction sessions as [|s sessions IH]; intros h blocks; subst blocks.
  - cbn. rewrite Nat.add_0_r. repeat split.
    symmetry. apply filter_keep. apply Forall_forall. intros x _ Hx.
    inversion Hx.
  - cbn [canardRxUnsubscribe_for fmap list_fmap concat].
    destruct (IH (memory_free (memory_free h (s ≫= rxs_payload)) (rxs_block <$> s)))
      as (-> & -> & -> & -> & -> & -> & ->).
    destruct s as [[b ts sz [p|] crc tog ifc]|]; cbn;
      rewrite ?list_filter_filter; repeat split; try lia;
      apply list_filter_iff; intros x; rewrite ?elem_of_cons, ?not_elem_of_cons;
      rewrite ?elem_of_app, ?elem_of_cons; intuition congruence.
Qed.

Lemma canardRxUnsubscribe_for_empty h n :
  canardRxUnsubscribe_for h (replicate n None) = h.
Proof. induction n as [|n IH]; [reflexivity|]. cbn. exact IH. Qed.

(** [canardRxUnsubscribe] with a valid kind. *)
Lemma canardRxUnsubscribe_cases h i kind port :
  kind < CANARD_NUM_TRANSFER_KINDS ->
  match acceptFrame_search (subscriptions_of i kind) port 0 with
  | None => canardRxUnsubscribe h (Some i) kind port = (0%Z, h, Some i)
  | Some pos =>
      exists sub,
        subscriptions_of i kind !! pos = Some sub /\
        sub_port_id sub = port /\
        canardRxUnsubscribe h (Some i) kind port
        = (1%Z, canardRxUnsubscribe_for h (sub_sessions sub),
           Some (set_rx_subscriptions i
                   (<[N.to_nat kind := delete pos (subscriptions_of i kind)]>
                      (rx_subscriptions i))))
  end.
Proof.
  intros Hk. unfold canardRxUnsubscribe.
  destruct (N.ltb_spec kind CANARD_NUM_TRANSFER_KINDS); [|lia].
  destruct (acceptFrame_search _ _ _) as [pos|] eqn:Hs; [|reflexivity].
  destruct (acceptFrame_search_found _ _ _ Hs) as (sub & Hl & Hp).
  exists sub. rewrite Hl. auto.
Qed.

(** The subscriptions of [kind] after the list of that kind was replaced. *)
Lemma subscriptions_of_replaced i kind subs k :
  (N.to_nat kind < length (rx_subscriptions i))%nat ->
  subscriptions_of
    (set_rx_subscriptions i (<[N.to_nat kind := subs]> (rx_subscriptions i))) k
  = if decide (k = kind) then subs else subscriptions_of i k.
Proof.
  intros Hlen. unfold subscriptions_of. cbn [rx_subscriptions set_rx_subscriptions].
  destruct (decide (k = kind)) as [->|Hne].
  - rewrite list_lookup_insert_eq by exact Hlen. reflexivity.
  - rewrite list_lookup_insert_ne; [reflexivity|].
    intros H. apply Hne. apply N2Nat.inj. congruence.
Qed.

Lemma instance_wf_kind i kind :
  instance_wf i ->
  NoDup (sub_port_id <$> subscriptions_of i kind) /\
  Forall (fun s => length (sub_sessions s) = SESSIONS_PER_SUBSCRIPTION)
         (subscriptions_of i kind).
Proof.
  intros (_ & Hall). unfold subscriptions_of.
  destruct (rx_subscriptions i !! N.to_nat kind) as [subs|] eqn:Hl.
  - rewrite Forall_forall in Hall. apply Hall.
    eapply list_elem_of_lookup_2, Hl.
  - cbn. split; constructor.
Qed.

Lemma instance_wf_replaced i kind subs :
  instance_wf i ->
  NoDup (sub_port_id <$> subs) ->
  Forall (fun s => length (sub_sessions s) = SESSIONS_PER_SUBSCRIPTION) subs ->
  instance_wf (set_rx_subscriptions i (<[N.to_nat kind := subs]> (rx_subscriptions i))).
Proof.
  intros (Hlen & Hall) Hnd Hss. split; cbn [rx_subscriptions set_rx_subscriptions].
  - rewrite length_insert. exact Hlen.
  - apply Forall_insert; [exact Hall|]. auto.
Qed.

End Subscriptions.

Section SubscriptionOf.

Lemma subscription_of_none_filter i kind port :
  acceptFrame_search (subscriptions_of i kind) port 0 = None ->
  filter (fun s => sub_port_id s = port) (subscriptions_of i kind) = [] /\
  subscription_of i kind port = None.
Proof.
  intros Hs.
  assert (H : subscription_of i kind port = None)
    by (unfold subscription_of; rewrite Hs; reflexivity).
  split; [|exact H]. rewrite subscription_of_head in H.
  apply head_None in H. exact H.
Qed.

Lemma subscription_of_found i kind port pos sub :
  acceptFrame_search (subscriptions_of i kind) port 0 = Some pos ->
  subscriptions_of i kind !! pos = Some sub ->
  subscription_of i kind port = Some sub.
Proof. intros Hs Hl. unfold subscription_of. rewrite Hs. exact Hl. Qed.

(** After the list of [kind] lost its subscription to [port]. *)
Lemma subscription_of_deleted i kind port pos sub k p :
  instance_wf i ->
  kind < CANARD_NUM_TRANSFER_KINDS ->
  acceptFrame_search (subscriptions_of i kind) port 0 = Some pos ->
  subscriptions_of i kind !! pos = Some sub ->
  sub_port_id sub = port ->
  let i' := set_rx_subscriptions i
              (<[N.to_nat kind := delete pos (subscriptions_of i kind)]>
                 (rx_subscriptions i)) in
  subscription_of i' k p
  = if decide (k = kind /\ p = port) then None else subscription_of i k p.
Proof.
  intros Hwf Hk Hs Hl Hp i'. subst i'.
  assert (Hlen : (N.to_nat kind < length (rx_subscriptions i))%nat).
  { destruct Hwf as (-> & _). unfold CANARD_NUM_TRANSFER_KINDS in *. lia. }
  rewrite !subscription_of_head, subscriptions_of_replaced by exact Hlen.
  destruct (decide (k = kind)) as [->|Hne].
  - destruct (decide (p = port)) as [->|Hnp].
    + rewrite decide_True by auto.
      rewrite filter_delete_found;
        [reflexivity|apply instance_wf_kind, Hwf|exact Hs].
    + rewrite decide_False by tauto.
      rewrite (filter_delete _ _ _ _ Hl) by congruence. reflexivity.
  - rewrite decide_False by tauto. reflexivity.
Qed.

(** After a subscription to [port] was put in front of the list of [kind],
    which had none. *)
Lemma subscription_of_added i kind port subs s k p :
  (N.to_nat kind < length (rx_subscriptions i))%nat ->
  sub_port_id s = port ->
  filter (fun x => sub_port_id x = port) subs = [] ->
  (forall q, q <> port ->
     head (filter (fun x => sub_port_id x = q) subs) = subscription_of i kind q) ->
  let i' := set_rx_subscriptions i
              (<[N.to_nat kind := s :: subs]> (rx_subscriptions i)) in
  subscription_of i' k p
  = if decide (k = kind /\ p = port) then Some s else subscription_of i k p.
Proof.
  intros Hlen Hp Hnone Hother i'. subst i'.
  rewrite subscription_of_head, subscriptions_of_replaced by exact Hlen.
  destruct (decide (k = kind)) as [->|Hne].
  - destruct (decide (p = port)) as [->|Hnp].
    + rewrite decide_True by auto. rewrite filter_cons_True by exact Hp.
      reflexivity.
    + rewrite decide_False by tauto.
      rewrite filter_cons_False by congruence. apply Hother, Hnp.
  - rewrite decide_False by tauto. symmetry. apply subscription_of_head.
Qed.

End SubscriptionOf.

(** X11: [canardRxUnsubscribe] answers 0 and changes nothing when there is no
    subscription to the port, and otherwise answers 1, takes the
    subscription out of its list, and frees its sessions: their blocks leave
    the live blocks and each counts as freed.  Afterwards the port has no
    subscription, every other subscription is as before, and the
    transmission side is untouched. *)
Theorem canardRxUnsubscribe_effect (h : Heap) (i : CanardInstance)
    (kind port : N) :
  instance_wf i ->
  kind < CANARD_NUM_TRANSFER_KINDS ->
  exists r h' i',
    canardRxUnsubscribe h (Some i) kind port = (r, h', Some i') /\
    unsubscribed_from h i kind port r h' i'.
Proof.
  intros Hwf Hk. unfold unsubscribed_from, same_tx_side.
  pose proof (canardRxUnsubscribe_cases h i kind port Hk) as Hcase.
  destruct (acceptFrame_search (subscriptions_of i kind) port 0) as [pos|] eqn:Hs.
  - destruct Hcase as (sub & Hl & Hp & ->).
    eexists _, _, _. split; [reflexivity|].
    rewrite (subscription_of_found i kind port pos sub Hs Hl).
    destruct (canardRxUnsubscribe_for_effect (sub_sessions sub) h)
      as (Hlive & Hfreed & Halloc & _).
    split; [auto|].
    split; [intros k p; apply (subscription_of_deleted i kind port pos sub k p);
            assumption|].
    split; [|auto 10].
    destruct (instance_wf_kind i kind Hwf) as (Hnd & Hss).
    apply instance_wf_replaced; [exact Hwf| |apply Forall_delete, Hss].
    rewrite list_fmap_delete. eapply sublist_NoDup; [exact Hnd|apply sublist_delete].
  - rewrite Hcase. eexists _, _, _. split; [reflexivity|].
    destruct (subscription_of_none_filter i kind port Hs) as (_ & Hnone).
    rewrite Hnone. split; [auto|].
    split; [|auto 10].
    intros k p. destruct (decide (k = kind /\ p = port)) as [[-> ->]|];
      [exact Hnone|reflexivity].
Qed.

Lemma canardRxUnsubscribe_effect_witness :
  exists r h' i',
    canardRxUnsubscribe (heap_of []) (Some (subscriber 9 100 2))
                        CanardTransferKindMessage 100 = (r, h', Some i') /\
    unsubscribed_from (heap_of []) (subscriber 9 100 2)
                      CanardTransferKindMessage 100 r h' i'.
Proof.
  apply (canardRxUnsubscribe_effect (heap_of []) (subscriber 9 100 2)
           CanardTransferKindMessage 100); [|reflexivity].
  split; [reflexivity|]. apply (bool_decide_unpack _). vm_compute. exact I.
Defined.

Section Subscribe.

Lemma set_rx_subscriptions_twice i a b :
  set_rx_subscriptions (set_rx_subscriptions i a) b = set_rx_subscriptions i b.
Proof. reflexivity. Qed.

(** [canardRxSubscribe] with valid arguments: the new subscription goes in
    front of what [canardRxUnsubscribe] leaves of the list. *)
Lemma canardRxSubscribe_cases h i kind port max timeout :
  kind < CANARD_NUM_TRANSFER_KINDS ->
  (N.to_nat kind < length (rx_subscriptions i))%nat ->
  let s := {| sub_port_id := port; sub_payload_size_bytes_max := max;
              sub_transfer_id_timeout_usec := timeout;
              sub_sessions := replicate SESSIONS_PER_SUBSCRIPTION None |} in
  let subs := subscriptions_of i kind in
  match acceptFrame_search subs port 0 with
  | None =>
      canardRxSubscribe h (Some i) kind port max timeout true
      = (1%Z, h,
         Some (set_rx_subscriptions i (<[N.to_nat kind := s :: subs]>
                                         (rx_subscriptions i))))
  | Some pos =>
      exists sub,
        subs !! pos = Some sub /\ sub_port_id sub = port /\
        canardRxSubscribe h (Some i) kind port max timeout true
        = (0%Z, canardRxUnsubscribe_for h (sub_sessions sub),
           Some (set_rx_subscriptions i
                   (<[N.to_nat kind := s :: delete pos subs]>
                      (rx_subscriptions i))))
  end.
Proof.
  intros Hk Hlen s subs. subst subs.
  pose proof (canardRxUnsubscribe_cases h i kind port Hk) as Hcase.
  unfold canardRxSubscribe.
  destruct (N.ltb_spec kind CANARD_NUM_TRANSFER_KINDS); [|lia]. cbn [andb].
  destruct (acceptFrame_search (subscriptions_of i kind) port 0) as [pos|].
  - destruct Hcase as (sub & Hl & Hp & ->). exists sub.
    split; [exact Hl|]. split; [exact Hp|]. cbn [Z.leb Z.ltb Z.compare].
    cbv iota. rewrite subscriptions_of_replaced by exact Hlen.
    rewrite decide_True by reflexivity.
    cbn [rx_subscriptions set_rx_subscriptions].
    rewrite list_insert_insert_eq. reflexivity.
  - rewrite Hcase. reflexivity.
Qed.

End Subscribe.

(** X12: [canardRxSubscribe] answers 1 for a new subscription and 0 when it
    replaces one, whose sessions it frees.  The port then has the new
    subscription, with the limits given and no session; every other
    subscription is as before, and the transmission side is untouched. *)
Theorem canardRxSubscribe_effect (h : Heap) (i : CanardInstance)
    (kind port : N) (payload_size_bytes_max : nat)
    (transfer_id_timeout_usec : N) :
  instance_wf i ->
  kind < CANARD_NUM_TRANSFER_KINDS ->
  exists r h' i',
    canardRxSubscribe h (Some i) kind port payload_size_bytes_max
                      transfer_id_timeout_usec true = (r, h', Some i') /\
    subscribed_to h i kind port payload_size_bytes_max transfer_id_timeout_usec
                  r h' i'.
Proof.
  intros Hwf Hk.
  assert (Hlen : (N.to_nat kind < length (rx_subscriptions i))%nat).
  { destruct Hwf as (-> & _). unfold CANARD_NUM_TRANSFER_KINDS in *. lia. }
  destruct (instance_wf_kind i kind Hwf) as (Hnd & Hss).
  pose proof (canardRxSubscribe_cases h i kind port payload_size_bytes_max
                transfer_id_timeout_usec Hk Hlen) as Hcase.
  cbv zeta in Hcase.
  set (s := {| sub_port_id := port |}) in *.
  assert (Hgen : forall subs r h',
    filter (fun x => sub_port_id x = port) subs = [] ->
    (forall q, q <> port ->
       head (filter (fun x => sub_port_id x = q) subs) = subscription_of i kind q) ->
    NoDup (sub_port_id <$> subs) ->
    Forall (fun s => length (sub_sessions s) = SESSIONS_PER_SUBSCRIPTION) subs ->
    match subscription_of i kind port with
    | None => r = 1%Z /\ h' = h
    | Some sub =>
        r = 0%Z /\
        live h' = filter (fun b => b ∉ subscription_blocks sub) (live h) /\
        n_freed h' = (n_freed h + length (subscription_blocks sub))%nat /\
        n_allocated h' = n_allocated h
    end ->
    subscribed_to h i kind port payload_size_bytes_max transfer_id_timeout_usec
                  r h'
                  (set_rx_subscriptions i (<[N.to_nat kind := s :: subs]>
                                             (rx_subscriptions i)))).
  { intros subs r h' Hnone Hother Hnd' Hss' Hheap.
    assert (Hof : forall k p,
      subscription_of (set_rx_subscriptions i (<[N.to_nat kind := s :: subs]>
                                                 (rx_subscriptions i))) k p
      = if decide (k = kind /\ p = port) then Some s else subscription_of i k p).
    { intros k p. apply subscription_of_added; auto. }
    split; [exact Hheap|]. split; [exact Hof|]. split.
    { intros src. unfold session_of. rewrite Hof, decide_True by auto.
      cbn. destruct (replicate _ _ !! _) as [x|] eqn:Hx; [|reflexivity].
      apply lookup_replicate in Hx as [-> _]. reflexivity. }
    split; [|unfold same_tx_side; auto].
    apply instance_wf_replaced; [exact Hwf| |].
    - cbn [fmap list_fmap]. apply NoDup_cons. split; [|exact Hnd'].
      intros Hin. apply list_elem_of_fmap in Hin as (y & Hy & Hiny).
      eapply (filter_nil_not_elem_of _ _ y Hnone); [symmetry; exact Hy|exact Hiny].
    - constructor; [apply length_replicate|exact Hss']. }
  destruct (acceptFrame_search (subscriptions_of i kind) port 0) as [pos|] eqn:Hs.
  - destruct Hcase as (sub & Hl & Hp & ->).
    eexists _, _, _. split; [reflexivity|]. apply Hgen.
    + apply filter_delete_found; assumption.
    + intros q Hq. rewrite (filter_delete _ _ _ _ Hl) by congruence.
      symmetry. apply subscription_of_head.
    + rewrite list_fmap_delete.
      eapply sublist_NoDup; [exact Hnd|apply sublist_delete].
    + apply Forall_delete, Hss.
    + rewrite (subscription_of_found i kind port pos sub Hs Hl).
      destruct (canardRxUnsubscribe_for_effect (sub_sessions sub) h)
        as (Hlive & Hfreed & Halloc & _). auto.
  - rewrite Hcase. eexists _, _, _. split; [reflexivity|].
    destruct (subscription_of_none_filter i kind port Hs) as (Hnone & Hof).
    apply Hgen; auto.
    + intros q _. symmetry. apply subscription_of_head.
    + rewrite Hof. auto.
Qed.

Lemma canardRxSubscribe_effect_witness :
  exists r h' i',
    canardRxSubscribe (heap_of []) (Some (subscriber 9 100 2))
                      CanardTransferKindMessage 100 64 1000 true
    = (r, h', Some i') /\
    subscribed_to (heap_of []) (subscriber 9 100 2)
                  CanardTransferKindMessage 100 64 1000 r h' i'.
Proof.
  apply (canardRxSubscribe_effect (heap_of []) (subscriber 9 100 2)
           CanardTransferKindMessage 100 64 1000); [|reflexivity].
  split; [reflexivity|]. apply (bool_decide_unpack _). vm_compute. exact I.
Defined.

(** X13: [canardRxSubscribe] and [canardRxUnsubscribe] answer INVALID_ARGUMENT
    exactly for a NULL instance, a transfer kind outside the enumeration
    and, when subscribing, a NULL subscription; they then change nothing.
    Every other call answers 0 or 1. *)
Theorem rx_subscription_invalid_argument (h : Heap) (ins : option CanardInstance)
    (kind port : N) (payload_size_bytes_max : nat)
    (transfer_id_timeout_usec : N) (out_subscription : bool) :
  (ins = None \/ CANARD_NUM_TRANSFER_KINDS <= kind ->
   canardRxUnsubscribe h ins kind port
   = ((- CANARD_ERROR_INVALID_ARGUMENT)%Z, h, ins)) /\
  (~ (ins = None \/ CANARD_NUM_TRANSFER_KINDS <= kind) ->
   (canardRxUnsubscribe h ins kind port).1.1 = 0%Z \/
   (canardRxUnsubscribe h ins kind port).1.1 = 1%Z) /\
  ((ins = None \/ CANARD_NUM_TRANSFER_KINDS <= kind) \/ out_subscription = false ->
   canardRxSubscribe h ins kind port payload_size_bytes_max
                     transfer_id_timeout_usec out_subscription
   = ((- CANARD_ERROR_INVALID_ARGUMENT)%Z, h, ins)) /\
  (~ ((ins = None \/ CANARD_NUM_TRANSFER_KINDS <= kind)
      \/ out_subscription = false) ->
   (canardRxSubscribe h ins kind port payload_size_bytes_max
                      transfer_id_timeout_usec out_subscription).1.1 = 0%Z \/
   (canardRxSubscribe h ins kind port payload_size_bytes_max
                      transfer_id_timeout_usec out_subscription).1.1 = 1%Z).
Proof.
  unfold canardRxSubscribe, canardRxUnsubscribe.
  destruct ins as [i|].
  2:{ repeat split; try reflexivity; intros H; exfalso; apply H; auto. }
  destruct (N.ltb_spec kind CANARD_NUM_TRANSFER_KINDS) as [Hk|Hk].
  - split; [intros [H|H]; [discriminate|lia]|].
    split.
    { intros _. destruct (acceptFrame_search _ _ _); cbn; auto. }
    split.
    { intros [[H|H]|H]; [discriminate|lia|rewrite H; reflexivity]. }
    intros Hok. destruct out_subscription; [|exfalso; apply Hok; auto].
    cbn [andb]. destruct (acceptFrame_search _ _ _); cbn; auto.
  - split; [reflexivity|].
    split; [intros H; exfalso; apply H; auto|].
    rewrite andb_false_r.
    split; [reflexivity|]. intros H; exfalso; apply H; auto.
Qed.

(** X14: Subscribing to a port that has no subscription and unsubscribing again
    gives back the instance and does not touch the allocator. *)
Theorem subscribe_unsubscribe_roundtrip (h : Heap) (i : CanardInstance)
    (kind port : N) (payload_size_bytes_max : nat)
    (transfer_id_timeout_usec : N) :
  instance_wf i ->
  kind < CANARD_NUM_TRANSFER_KINDS ->
  subscription_of i kind port = None ->
  exists i1,
    canardRxSubscribe h (Some i) kind port payload_size_bytes_max
                      transfer_id_timeout_usec true = (1%Z, h, Some i1) /\
    subscription_of i1 kind port <> None /\
    canardRxUnsubscribe h (Some i1) kind port = (1%Z, h, Some i).
Proof.
  intros Hwf Hk Hnone.
  assert (Hlen : (N.to_nat kind < length (rx_subscriptions i))%nat).
  { destruct Hwf as (-> & _). unfold CANARD_NUM_TRANSFER_KINDS in *. lia. }
  pose proof (canardRxSubscribe_cases h i kind port payload_size_bytes_max
                transfer_id_timeout_usec Hk Hlen) as Hcase.
  cbv zeta in Hcase.
  destruct (acceptFrame_search (subscriptions_of i kind) port 0) as [pos|] eqn:Hs.
  { destruct (acceptFrame_search_found _ _ _ Hs) as (sub & Hl & _).
    rewrite (subscription_of_found i kind port pos sub Hs Hl) in Hnone.
    discriminate. }
  eexists. split; [exact Hcase|].
  set (s := {| sub_port_id := port |}).
  set (i1 := set_rx_subscriptions i _).
  assert (Hsubs : subscriptions_of i1 kind = s :: subscriptions_of i kind).
  { subst i1. rewrite subscriptions_of_replaced by exact Hlen.
    rewrite decide_True by reflexivity. reflexivity. }
  assert (Hfound : acceptFrame_search (subscriptions_of i1 kind) port 0 = Some 0%nat).
  { rewrite Hsubs. cbn. rewrite N.eqb_refl. reflexivity. }
  split.
  { unfold subscription_of. rewrite Hfound, Hsubs. discriminate. }
  pose proof (canardRxUnsubscribe_cases h i1 kind port Hk) as Hun.
  rewrite Hfound in Hun. destruct Hun as (sub & Hl & _ & ->).
  rewrite Hsubs in Hl. injection Hl as <-.
  cbn [sub_sessions s]. rewrite canardRxUnsubscribe_for_empty.
  rewrite Hsubs. change (delete 0%nat (s :: subscriptions_of i kind))
    with (subscriptions_of i kind).
  subst i1. cbn [rx_subscriptions set_rx_subscriptions].
  rewrite list_insert_insert_eq, set_rx_subscriptions_twice.
  rewrite list_insert_id; [rewrite set_rx_subscriptions_id; reflexivity|].
  unfold subscriptions_of.
  destruct (lookup_lt_is_Some_2 _ _ Hlen) as (x & ->). reflexivity.
Qed.

Lemma subscribe_unsubscribe_roundtrip_witness :
  exists i1,
    canardRxSubscribe (heap_of []) (Some (subscriber 9 100 2))
                      CanardTransferKindMessage 7 64 1000 true
    = (1%Z, heap_of [], Some i1) /\
    subscription_of i1 CanardTransferKindMessage 7 <> None /\
    canardRxUnsubscribe (heap_of []) (Some i1) CanardTransferKindMessage 7
    = (1%Z, heap_of [], Some (subscriber 9 100 2)).
Proof.
  apply (subscribe_unsubscribe_roundtrip (heap_of []) (subscriber 9 100 2)
           CanardTransferKindMessage 7 64 1000); [|reflexivity|reflexivity].
  split; [reflexivity|]. apply (bool_decide_unpack _). vm_compute. exact I.
Defined.

(** ** Properties of canardRxAccept *)

Section AcceptResult.

(** [acceptFrame] answers 1, 0 or OUT_OF_MEMORY. *)
Lemma acceptFrame_result h i m iface t :
  let r := (acceptFrame h i m iface t).1.1.1 in
  r = 1%Z \/ r = 0%Z \/ r = (- CANARD_ERROR_OUT_OF_MEMORY)%Z.
Proof.
  unfold acceptFrame.
  destruct (acceptFrame_search _ _ _) as [pos|]; [|cbn; auto].
  destruct (_ !! pos) as [sub|]; [|cbn; auto].
  destruct (_ <=? _); [|cbn; auto].
  destruct (bool_decide _ && _).
  - destruct (memory_allocate _ _) as [[b|] h']; cbn;
      destruct (mjoin _); cbn; auto.
  - destruct (mjoin _); cbn; auto.
Qed.

End AcceptResult.

(** X15: [canardRxAccept] answers INVALID_ARGUMENT exactly for a NULL instance,
    transfer or frame, a CAN-ID of more than 29 bits, and a NULL payload
    that is not empty; it then changes nothing.  Every other call answers
    1, 0 or OUT_OF_MEMORY. *)
Theorem canardRxAccept_invalid_argument (h : Heap) (ins : option CanardInstance)
    (frame : option CanardFrame) (iface_index : N)
    (out_transfer : option CanardTransfer) :
  (ins = None \/ out_transfer = None \/ frame = None \/
   (exists f, frame = Some f /\ ~ rx_arguments_valid f) ->
   canardRxAccept h ins frame iface_index out_transfer
   = ((- CANARD_ERROR_INVALID_ARGUMENT)%Z, h, ins, out_transfer)) /\
  (~ (ins = None \/ out_transfer = None \/ frame = None \/
      (exists f, frame = Some f /\ ~ rx_arguments_valid f)) ->
   (canardRxAccept h ins frame iface_index out_transfer).1.1.1 = 1%Z \/
   (canardRxAccept h ins frame iface_index out_transfer).1.1.1 = 0%Z \/
   (canardRxAccept h ins frame iface_index out_transfer).1.1.1
   = (- CANARD_ERROR_OUT_OF_MEMORY)%Z).
Proof.
  destruct ins as [i|]; [|split; [reflexivity|intros H; exfalso; apply H; auto]].
  destruct out_transfer as [t|];
    [|split; [reflexivity|intros H; exfalso; apply H; auto]].
  destruct frame as [f|];
    [|split; [reflexivity|intros H; exfalso; apply H; auto]].
  split.
  - intros [H|[H|[H|(f' & [= <-] & Hbad)]]]; try discriminate.
    apply canardRxAccept_refused, Hbad.
  - intros Hok.
    assert (Hargs : rx_arguments_valid f).
    { apply rx_arguments_checked.
      destruct (_ && _) eqn:Hchk; [reflexivity|]. exfalso. apply Hok.
      right. right. right. exists f. split; [reflexivity|].
      intros Hv. apply rx_arguments_checked in Hv. congruence. }
    destruct (unparseable f || misaddressed i f) eqn:Hskip.
    + rewrite canardRxAccept_skipped by assumption. cbn. auto.
    + apply orb_false_iff in Hskip as [Hp Hm].
      rewrite canardRxAccept_parsed by assumption.
      pose proof (acceptFrame_result h i (frame_model f) iface_index t) as Hr.
      destruct (acceptFrame _ _ _ _ _) as [[[r h'] i'] t']. exact Hr.
Qed.

Section SessionStore.

Context (i : CanardInstance) (kind port : N) (pos : nat)
        (sub : CanardRxSubscription).
Hypothesis Hs : acceptFrame_search (subscriptions_of i kind) port 0 = Some pos.
Hypothesis Hl : subscriptions_of i kind !! pos = Some sub.

(** The subscriptions after the sessions of the one found were replaced. *)
Lemma subscription_of_store ss k p :
  subscription_of (store_subscription i kind pos (set_sub_sessions sub ss)) k p
  = if decide (k = kind /\ p = port) then Some (set_sub_sessions sub ss)
    else subscription_of i k p.
Proof.
  unfold subscription_of.
  destruct (decide (k = kind)) as [->|Hne].
  - rewrite (subscriptions_of_store i kind pos sub _ Hl).
    rewrite (acceptFrame_search_insert _ pos sub _ p Hl) by reflexivity.
    destruct (decide (p = port)) as [->|Hnp].
    + rewrite decide_True by auto. rewrite Hs. cbn.
      apply list_lookup_insert_eq. eapply lookup_lt_Some, Hl.
    + rewrite decide_False by tauto.
      destruct (acceptFrame_search (subscriptions_of i kind) p 0) as [pos'|]
        eqn:Hs'; [|reflexivity].
      cbn. apply list_lookup_insert_ne. intros <-.
      destruct (acceptFrame_search_found _ _ _ Hs') as (x & Hx & Hp).
      destruct (acceptFrame_search_found _ _ _ Hs) as (y & Hy & Hq).
      congruence.
  - rewrite decide_False by tauto.
    rewrite subscriptions_of_store_ne; [reflexivity|].
    intros H. apply Hne. apply N2Nat.inj. exact H.
Qed.

(** The sessions after the slot of [src] was filled. *)
Lemma session_of_store src rxs k p s :
  (N.to_nat src < length (sub_sessions sub))%nat ->
  session_of (store_subscription i kind pos
                (set_sub_sessions sub (<[N.to_nat src := Some rxs]> (sub_sessions sub))))
             k p s
  = if decide (k = kind /\ p = port /\ s = src) then Some rxs
    else session_of i k p s.
Proof.
  intros Hlt. unfold session_of. rewrite subscription_of_store.
  destruct (decide (k = kind /\ p = port)) as [[-> ->]|Hne].
  - rewrite (subscription_of_found i kind port pos sub Hs Hl).
    cbn [mbind option_bind sub_sessions set_sub_sessions].
    destruct (decide (s = src)) as [->|Hns].
    + rewrite decide_True by auto.
      rewrite list_lookup_insert_eq by exact Hlt. reflexivity.
    + rewrite decide_False by tauto.
      rewrite list_lookup_insert_ne; [reflexivity|].
      intros H. apply Hns. apply N2Nat.inj. congruence.
  - rewrite decide_False by tauto. reflexivity.
Qed.

Lemma instance_wf_store ss :
  instance_wf i ->
  length ss = SESSIONS_PER_SUBSCRIPTION ->
  instance_wf (store_subscription i kind pos (set_sub_sessions sub ss)).
Proof.
  intros Hwf Hlen. destruct (instance_wf_kind i kind Hwf) as (Hnd & Hss).
  unfold store_subscription. apply instance_wf_replaced; [exact Hwf| |].
  - rewrite list_fmap_insert. cbn [sub_port_id set_sub_sessions].
    rewrite list_insert_id; [exact Hnd|].
    rewrite list_lookup_fmap, Hl. reflexivity.
  - apply Forall_insert; [exact Hss|exact Hlen].
Qed.

End SessionStore.

(** X16: The first frame of a transfer from a source node that has no session
    with the subscription of the port: [canardRxAccept] asks the allocator
    once, for a block of whatever size; if it is granted, the answer is 0
    and the source has a fresh session in it (CRC at its initial value,
    toggle set, no payload); if it is refused, the answer is OUT_OF_MEMORY
    and the instance is as before.  The transfer of the caller is not
    written. *)
Theorem canardRxAccept_opens_session (h : Heap) (i : CanardInstance)
    (f : CanardFrame) (iface_index : N) (t : CanardTransfer)
    (sub : CanardRxSubscription) :
  instance_wf i ->
  rx_arguments_valid f ->
  unparseable f = false ->
  misaddressed i f = false ->
  id_is_anonymous (fr_extended_can_id f) = false ->
  tail_start_of_transfer (frame_tail f) = true ->
  subscription_of i (id_kind (fr_extended_can_id f))
                    (id_port (fr_extended_can_id f)) = Some sub ->
  session_of i (id_kind (fr_extended_can_id f)) (id_port (fr_extended_can_id f))
               (id_source (fr_extended_can_id f)) = None ->
  exists r h' i',
    canardRxAccept h (Some i) (Some f) iface_index (Some t)
    = (r, h', Some i', Some t) /\
    session_opened h i (id_kind (fr_extended_can_id f))
                   (id_port (fr_extended_can_id f))
                   (id_source (fr_extended_can_id f))
                   (fr_timestamp_usec f) sub r h' i'.
Proof.
  intros Hwf Hargs Hparse Hdst Hanon Hsot Hsub Hnone.
  rewrite canardRxAccept_parsed by assumption.
  pose proof (unparseable_size f Hparse) as Hsz.
  pose proof (frame_model_fields f Hsz) as Hm. cbv zeta in Hm.
  rewrite Hanon in Hm.
  set (m := frame_model f) in *.
  assert (Hk : fm_transfer_kind m = id_kind (fr_extended_can_id f))
    by (rewrite Hm; reflexivity).
  assert (Hp : fm_port_id m = id_port (fr_extended_can_id f))
    by (rewrite Hm; reflexivity).
  assert (Hsrc : fm_source_node_id m = id_source (fr_extended_can_id f))
    by (rewrite Hm; reflexivity).
  assert (Hts : fm_timestamp_usec m = fr_timestamp_usec f)
    by (rewrite Hm; reflexivity).
  assert (Hst : fm_start_of_transfer m = true)
    by (rewrite Hm; exact Hsot).
  assert (H127 : id_source (fr_extended_can_id f) <= CANARD_NODE_ID_MAX).
  { unfold id_source, CANARD_NODE_ID_MAX.
    pose proof (N.mod_lt (fr_extended_can_id f) 128 ltac:(discriminate)). lia. }
  destruct (instance_wf_kind i (id_kind (fr_extended_can_id f)) Hwf) as (_ & Hss).
  assert (Hlen : length (sub_sessions sub) = SESSIONS_PER_SUBSCRIPTION).
  { unfold subscription_of in Hsub.
    destruct (acceptFrame_search _ _ _) as [pos|]; [|discriminate].
    cbn in Hsub. rewrite Forall_forall in Hss. apply Hss.
    eapply list_elem_of_lookup_2, Hsub. }
  assert (Hlt : (N.to_nat (id_source (fr_extended_can_id f))
                 < length (sub_sessions sub))%nat).
  { rewrite Hlen. unfold SESSIONS_PER_SUBSCRIPTION, CANARD_NODE_ID_MAX in *. lia. }
  assert (Hslot : sub_sessions sub !! N.to_nat (id_source (fr_extended_can_id f))
                  = Some None).
  { unfold session_of in Hnone. rewrite Hsub in Hnone. cbn in Hnone.
    destruct (lookup_lt_is_Some_2 _ _ Hlt) as (x & Hx).
    rewrite Hx in *. cbn in Hnone. congruence. }
  rewrite <- Hk, <- Hp, <- Hsrc in *.
  destruct (acceptFrame_new_session h i m iface_index t sub Hsub H127 Hslot Hst)
    as (pos & Hs & Hl & ->).
  unfold session_opened. rewrite Hts.
  destruct (memory_allocate h _) as [[b|] h1].
  - eexists _, _, _. split; [reflexivity|]. split; [|split].
    + split; [reflexivity|]. split; [reflexivity|].
      intros k p s.
      apply (session_of_store i _ _ pos sub Hs Hl); exact Hlt.
    + apply (instance_wf_store i _ pos sub Hl); [exact Hwf|].
      rewrite length_insert. exact Hlen.
    + unfold same_tx_side. auto.
  - eexists _, _, _. split; [reflexivity|].
    split; [auto|]. split; [exact Hwf|unfold same_tx_side; auto].
Qed.

Lemma canardRxAccept_opens_session_witness :
  exists r h' i',
    canardRxAccept (heap_of [true]) (Some (subscriber 9 7168 64))
                   (Some scenario1_frame) 0 (Some blank_transfer)
    = (r, h', Some i', Some blank_transfer) /\
    session_opened (heap_of [true]) (subscriber 9 7168 64)
                   (id_kind (fr_extended_can_id scenario1_frame))
                   (id_port (fr_extended_can_id scenario1_frame))
                   (id_source (fr_extended_can_id scenario1_frame))
                   (fr_timestamp_usec scenario1_frame)
                   (sample_subscription 7168 64) r h' i'.
Proof.
  apply (canardRxAccept_opens_session (heap_of [true]) (subscriber 9 7168 64)
           scenario1_frame 0 blank_transfer (sample_subscription 7168 64)).
  - split; [reflexivity|]. apply (bool_decide_unpack _). vm_compute. exact I.
  - split; [vm_compute; discriminate|left; eexists; reflexivity].
  - reflexivity.
  - reflexivity.
  - reflexivity.
  - reflexivity.
  - reflexivity.
  - reflexivity.
Defined.

(** X17: A frame with a source node that does not start a transfer, or whose
    source has a session already, is answered with 0 and changes nothing:
    no allocation, and neither the instance nor the transfer of the caller
    is written. *)
Theorem canardRxAccept_idle (h : Heap) (i : CanardInstance) (f : CanardFrame)
    (iface_index : N) (t : CanardTransfer) :
  rx_arguments_valid f ->
  id_is_anonymous (fr_extended_can_id f) = false ->
  tail_start_of_transfer (frame_tail f) = false \/
  session_of i (id_kind (fr_extended_can_id f)) (id_port (fr_extended_can_id f))
               (id_source (fr_extended_can_id f)) <> None ->
  canardRxAccept h (Some i) (Some f) iface_index (Some t)
  = (0%Z, h, Some i, Some t).
Proof.
  intros Hargs Hanon Hidle.
  destruct (unparseable f || misaddressed i f) eqn:Hskip;
    [apply canardRxAccept_skipped; assumption|].
  apply orb_false_iff in Hskip as [Hparse Hdst].
  rewrite canardRxAccept_parsed by assumption.
  pose proof (unparseable_size f Hparse) as Hsz.
  pose proof (frame_model_fields f Hsz) as Hm. cbv zeta in Hm.
  rewrite Hanon in Hm.
  set (m := frame_model f) in *.
  assert (H127 : id_source (fr_extended_can_id f) <= CANARD_NODE_ID_MAX).
  { unfold id_source, CANARD_NODE_ID_MAX.
    pose proof (N.mod_lt (fr_extended_can_id f) 128 ltac:(discriminate)). lia. }
  destruct (subscription_of i (fm_transfer_kind m) (fm_port_id m)) as [sub|] eqn:Hsub.
  - rewrite (acceptFrame_idle h i m iface_index t sub Hsub); [reflexivity| |].
    + rewrite Hm. exact H127.
    + destruct Hidle as [Hsot|Hsess]; [right; rewrite Hm; exact Hsot|left].
      intros Hslot. apply Hsess. unfold session_of.
      rewrite Hm in Hsub, Hslot. cbn in Hsub, Hslot. rewrite Hsub. exact Hslot.
  - rewrite (acceptFrame_unsubscribed h i m iface_index t Hsub). reflexivity.
Qed.

Lemma canardRxAccept_idle_witness :
  canardRxAccept (heap_of [true]) (Some (subscriber 9 7168 64))
                 (Some sample_middle_frame) 0 (Some blank_transfer)
  = (0%Z, heap_of [true], Some (subscriber 9 7168 64), Some blank_transfer).
Proof.
  apply (canardRxAccept_idle (heap_of [true]) (subscriber 9 7168 64)
           sample_middle_frame 0 blank_transfer).
  - split; [vm_compute; discriminate|left; eexists; reflexivity].
  - reflexivity.
  - left. reflexivity.
Defined.

(** ** The blocks that the instance holds *)

Section Blocks.

Lemma concat_fmap_delete {A B} (f : A -> list B) (l : list A) j a :
  l !! j = Some a ->
  concat (f <$> l) ≡ₚ f a ++ concat (f <$> delete j l).
Proof.
  revert j. induction l as [|x l IH]; intros [|j] Hl; try discriminate.
  - cbn in Hl. injection Hl as ->. reflexivity.
  - change (delete (S j) (x :: l)) with (x :: delete j l).
    cbn [fmap list_fmap concat]. rewrite (IH j Hl).
    rewrite !app_assoc. apply Permutation_app_tail, Permutation_app_comm.
Qed.

Lemma delete_insert_same {A} (l : list A) j x :
  delete j (<[j := x]> l) = delete j l.
Proof.
  revert j. induction l as [|y l IH]; intros [|j]; try reflexivity.
  change (delete (S j) (<[S j := x]> (y :: l)))
    with (y :: delete j (<[j := x]> l)).
  rewrite IH. reflexivity.
Qed.

(** Replacing one element: what the others hold stays. *)
Lemma concat_fmap_insert {A B} (f : A -> list B) (l : list A) j a a' :
  l !! j = Some a ->
  concat (f <$> l) ≡ₚ f a ++ concat (f <$> delete j l) /\
  concat (f <$> <[j := a']> l) ≡ₚ f a' ++ concat (f <$> delete j l).
Proof.
  intros Hl. split; [apply concat_fmap_delete, Hl|].
  rewrite <- (delete_insert_same l j a'). apply concat_fmap_delete.
  apply list_lookup_insert_eq. eapply lookup_lt_Some, Hl.
Qed.

Lemma subscription_blocks_empty port max timeout n :
  subscription_blocks {| sub_port_id := port; sub_payload_size_bytes_max := max;
                         sub_transfer_id_timeout_usec := timeout;
                         sub_sessions := replicate n None |} = [].
Proof.
  unfold subscription_blocks. cbn [sub_sessions].
  induction n as [|n IH]; [reflexivity|exact IH].
Qed.

(** Removing from a duplicate-free list what a part of it holds leaves the
    other part. *)
Lemma filter_owned (l B O : list nat) :
  NoDup l -> l ≡ₚ B ++ O -> filter (fun b => b ∉ B) l ≡ₚ O.
Proof.
  intros Hnd Hp. rewrite Hp in Hnd. rewrite Hp.
  apply NoDup_app in Hnd as (_ & Hdis & _).
  rewrite filter_app.
  rewrite (filter_none (fun b => b ∉ B) B)
    by (apply Forall_forall; intros x Hx Hn; exact (Hn Hx)).
  rewrite filter_keep; [reflexivity|].
  apply Forall_forall. intros x Hx Hin. exact (Hdis x Hin Hx).
Qed.

End Blocks.

Section Owned.

(** The invariant after blocks were freed. *)
Lemma memory_owned_freed h i h' i' B :
  memory_owned h i ->
  live h' = filter (fun b => b ∉ B) (live h) ->
  next_block h' = next_block h ->
  n_freed h' = (n_freed h + length B)%nat ->
  n_allocated h' = n_allocated h ->
  owned_blocks i ≡ₚ B ++ owned_blocks i' ->
  memory_owned h' i'.
Proof.
  intros (Hwf & Hnd & Hp & Hcount) Hlive Hn Hf Ha Hown.
  assert (Hp' : filter (fun b => b ∉ B) (live h) ≡ₚ owned_blocks i')
    by (apply filter_owned; [exact Hnd|]; rewrite Hp; exact Hown).
  unfold memory_owned, heap_wf.
  rewrite Hlive, Hn. split; [|split; [|split]].
  - apply Forall_forall. intros x Hx. apply list_elem_of_filter in Hx as [_ Hx].
    unfold heap_wf in Hwf. rewrite Forall_forall in Hwf. auto.
  - apply NoDup_filter, Hnd.
  - exact Hp'.
  - rewrite Ha, Hf, Hcount, Hp', Hp, Hown, length_app. lia.
Qed.

(** The invariant after blocks were allocated. *)
Lemma memory_owned_allocated h i h' i' n :
  memory_owned h i ->
  live h' = reverse (seq (next_block h) n) ++ live h ->
  next_block h' = (next_block h + n)%nat ->
  n_allocated h' = (n_allocated h + n)%nat ->
  n_freed h' = n_freed h ->
  owned_blocks i' ≡ₚ seq (next_block h) n ++ owned_blocks i ->
  memory_owned h' i'.
Proof.
  intros (Hwf & Hnd & Hp & Hcount) Hlive Hn Ha Hf Hown.
  unfold memory_owned, heap_wf in *.
  rewrite Hlive, Hn. rewrite Forall_forall in Hwf. split; [|split; [|split]].
  - apply Forall_app. split; apply Forall_forall; intros x Hx.
    + apply elem_of_reverse, list_elem_of_In, in_seq in Hx. lia.
    + specialize (Hwf x Hx). cbn in Hwf. lia.
  - apply NoDup_app.
    split; [rewrite reverse_Permutation; apply NoDup_seq|]. split; [|exact Hnd].
    intros x Hx Hin. apply elem_of_reverse, list_elem_of_In, in_seq in Hx.
    specialize (Hwf x Hin). cbn in Hwf. lia.
  - rewrite reverse_Permutation, Hown, Hp. reflexivity.
  - rewrite Ha, Hf, Hcount, length_app, length_reverse, length_seq. lia.
Qed.

(** The invariant when only the counters of the allocator moved. *)
Lemma memory_owned_same h i h' :
  memory_owned h i ->
  live h' = live h ->
  (next_block h <= next_block h')%nat ->
  (n_allocated h' + n_freed h = n_allocated h + n_freed h')%nat ->
  memory_owned h' i.
Proof.
  intros (Hwf & Hnd & Hp & Hcount) Hlive Hn Hbal. unfold memory_owned, heap_wf in *.
  rewrite Hlive. split; [|split; [auto|split; [auto|lia]]].
  eapply Forall_impl; [exact Hwf|]. cbn. intros; lia.
Qed.

End Owned.

Section OwnedByCall.

Lemma concat_fmap_insert_grow {A B} (f : A -> list B) (l : list A) j a a' extra :
  l !! j = Some a ->
  f a' ≡ₚ extra ++ f a ->
  concat (f <$> <[j := a']> l) ≡ₚ extra ++ concat (f <$> l).
Proof.
  intros Hl Hf. destruct (concat_fmap_insert f l j a a' Hl) as (H1 & H2).
  rewrite H2, H1, Hf, app_assoc. reflexivity.
Qed.

Lemma concat_fmap_insert_shrink {A B} (f : A -> list B) (l : list A) j a a' extra :
  l !! j = Some a ->
  f a ≡ₚ extra ++ f a' ->
  concat (f <$> l) ≡ₚ extra ++ concat (f <$> <[j := a']> l).
Proof.
  intros Hl Hf. destruct (concat_fmap_insert f l j a a' Hl) as (H1 & H2).
  rewrite H2, H1, Hf, app_assoc. reflexivity.
Qed.

Lemma instance_wf_rx i i' :
  rx_subscriptions i' = rx_subscriptions i -> instance_wf i -> instance_wf i'.
Proof. unfold instance_wf. intros ->. auto. Qed.

(** The blocks held after the subscriptions of one kind were replaced. *)
Lemma owned_blocks_kind_grow i kind subs subs' extra :
  rx_subscriptions i !! N.to_nat kind = Some subs ->
  kind_blocks subs' ≡ₚ extra ++ kind_blocks subs ->
  owned_blocks (set_rx_subscriptions i (<[N.to_nat kind := subs']>
                                          (rx_subscriptions i)))
  ≡ₚ extra ++ owned_blocks i.
Proof.
  intros Hl Hk. unfold owned_blocks.
  cbn [tx_queue rx_subscriptions set_rx_subscriptions].
  rewrite (concat_fmap_insert_grow kind_blocks _ _ subs subs' extra Hl Hk).
  rewrite !app_assoc. apply Permutation_app_tail, Permutation_app_comm.
Qed.

Lemma owned_blocks_kind_shrink i kind subs subs' extra :
  rx_subscriptions i !! N.to_nat kind = Some subs ->
  kind_blocks subs ≡ₚ extra ++ kind_blocks subs' ->
  owned_blocks i
  ≡ₚ extra ++ owned_blocks (set_rx_subscriptions i (<[N.to_nat kind := subs']>
                                                      (rx_subscriptions i))).
Proof.
  intros Hl Hk. unfold owned_blocks.
  cbn [tx_queue rx_subscriptions set_rx_subscriptions].
  rewrite (concat_fmap_insert_shrink kind_blocks _ _ subs subs' extra Hl Hk).
  rewrite !app_assoc. apply Permutation_app_tail, Permutation_app_comm.
Qed.

Lemma subscriptions_of_Some i kind :
  (N.to_nat kind < length (rx_subscriptions i))%nat ->
  rx_subscriptions i !! N.to_nat kind = Some (subscriptions_of i kind).
Proof.
  intros Hlen. unfold subscriptions_of.
  destruct (lookup_lt_is_Some_2 _ _ Hlen) as (x & ->). reflexivity.
Qed.

(** A push keeps the invariant. *)
Lemma canardTxPush_owned h i t r h' i' :
  canardTxPush h (Some i) (Some t) = Some (r, h', Some i') ->
  memory_owned h i ->
  memory_owned h' i' /\ rx_subscriptions i' = rx_subscriptions i.
Proof.
  intros Hpush Hown.
  destruct (canardTxPush_outcomes h i t) as (r0 & h0 & i0 & Heq & Hcase).
  rewrite Hpush in Heq. injection Heq as <- <- <-.
  destruct Hcase as
      [(-> & -> & _)|(_ & _ & [(_ & -> & Href)|(frames & _ & Henq & _)])].
  - auto.
  - split; [|reflexivity].
    destruct Href as (_ & Hbal & Ha & Hf & Hn & Hlive).
    apply (memory_owned_same h i h' Hown); [|exact Hn|lia].
    apply Hlive. apply Hown.
  - destruct Henq as (_ & Hi' & (before & after & Hq & Hq' & _) & _ & Halloc & _).
    destruct Halloc as (Hblocks & Hn & Ha & Hf & Hlive & _).
    assert (Hrx : rx_subscriptions i' = rx_subscriptions i)
      by (rewrite Hi'; reflexivity).
    split; [|exact Hrx].
    apply (memory_owned_allocated h i h' i' (length frames) Hown).
    + rewrite Hlive, Hblocks. reflexivity.
    + exact Hn.
    + exact Ha.
    + exact Hf.
    + unfold owned_blocks. rewrite Hrx, Hq', Hq, <- Hblocks, !fmap_app.
      rewrite <- !app_assoc.
      rewrite (app_assoc (tqi_block <$> before)), (app_assoc (tqi_block <$> frames)).
      rewrite (Permutation_app_comm (tqi_block <$> before) (tqi_block <$> frames)).
      rewrite <- !app_assoc. reflexivity.
Qed.

(** A pop keeps the invariant. *)
Lemma canardTxPop_owned h i :
  memory_owned h i ->
  exists h' i',
    canardTxPop h (Some i) = (h', Some i') /\
    memory_owned h' i' /\ rx_subscriptions i' = rx_subscriptions i.
Proof.
  intros Hown. unfold canardTxPop.
  destruct (tx_queue i) as [|first rest] eqn:Hq; [eauto|].
  eexists _, _. split; [reflexivity|]. split; [|reflexivity].
  apply (memory_owned_freed h i _ _ [tqi_block first] Hown).
  - cbn. apply list_filter_iff. intros x.
    rewrite not_elem_of_cons. split; [intros; split; [assumption|]|tauto].
    apply not_elem_of_nil.
  - reflexivity.
  - cbn. lia.
  - reflexivity.
  - unfold owned_blocks. rewrite Hq. reflexivity.
Qed.

End OwnedByCall.

Section OwnedByReception.

(** The blocks held after a session slot was filled, or emptied. *)
Lemma owned_blocks_store_grow i kind pos sub sub' extra :
  subscriptions_of i kind !! pos = Some sub ->
  subscription_blocks sub' ≡ₚ extra ++ subscription_blocks sub ->
  owned_blocks (store_subscription i kind pos sub') ≡ₚ extra ++ owned_blocks i.
Proof.
  intros Hl Hs. unfold store_subscription.
  apply (owned_blocks_kind_grow i kind (subscriptions_of i kind)).
  - eapply subscriptions_of_lookup, Hl.
  - apply (concat_fmap_insert_grow subscription_blocks _ _ sub sub' extra Hl Hs).
Qed.

(** [acceptFrame] keeps the invariant and the shape. *)
Lemma acceptFrame_owned h i m iface t :
  instance_wf i ->
  memory_owned h i ->
  instance_wf (acceptFrame h i m iface t).1.2 /\
  memory_owned (acceptFrame h i m iface t).1.1.2 (acceptFrame h i m iface t).1.2.
Proof.
  intros Hwf Hown.
  destruct (subscription_of i (fm_transfer_kind m) (fm_port_id m)) as [sub|] eqn:Hsub.
  2:{ rewrite acceptFrame_unsubscribed by exact Hsub. auto. }
  destruct (N.leb_spec (fm_source_node_id m) CANARD_NODE_ID_MAX) as [Hsrc|Hsrc].
  2:{ rewrite (acceptFrame_stateless h i m iface t sub Hsub Hsrc). auto. }
  destruct (subscription_of_search i m sub Hsub) as (pos & Hs & Hl & _).
  destruct (instance_wf_kind i (fm_transfer_kind m) Hwf) as (_ & Hss).
  assert (Hlen : length (sub_sessions sub) = SESSIONS_PER_SUBSCRIPTION).
  { rewrite Forall_forall in Hss. apply Hss. eapply list_elem_of_lookup_2, Hl. }
  assert (Hlt : (N.to_nat (fm_source_node_id m) < length (sub_sessions sub))%nat).
  { rewrite Hlen. unfold SESSIONS_PER_SUBSCRIPTION, CANARD_NODE_ID_MAX in *. lia. }
  destruct (lookup_lt_is_Some_2 _ _ Hlt) as ([rxs|] & Hslot).
  { rewrite (acceptFrame_idle h i m iface t sub Hsub Hsrc); [auto|].
    left. rewrite Hslot. discriminate. }
  destruct (fm_start_of_transfer m) eqn:Hsot.
  2:{ rewrite (acceptFrame_idle h i m iface t sub Hsub Hsrc); auto. }
  destruct (acceptFrame_new_session h i m iface t sub Hsub Hsrc Hslot Hsot)
    as (pos' & Hs' & Hl' & ->).
  destruct (memory_allocate h _) as [[b|] h1] eqn:Halloc; cbn [fst snd].
  - apply memory_allocate_granted in Halloc as (-> & Hn & Hlive & Ha & _ & Hf & _).
    split.
    + apply (instance_wf_store i _ pos' sub Hl'); [exact Hwf|].
      rewrite length_insert. exact Hlen.
    + apply (memory_owned_allocated h i h1 _ 1 Hown).
      * rewrite Hlive. reflexivity.
      * lia.
      * lia.
      * exact Hf.
      * apply (owned_blocks_store_grow i _ pos' sub _ _ Hl').
        unfold subscription_blocks. cbn [sub_sessions set_sub_sessions].
        apply (concat_fmap_insert_grow session_blocks _ _ None _ _ Hslot).
        cbn. reflexivity.
  - apply memory_allocate_refused in Halloc as (Hn & Hlive & Ha & _ & Hf & _).
    split; [exact Hwf|].
    apply (memory_owned_same h i h1 Hown); [exact Hlive|lia|lia].
Qed.

(** [canardRxAccept] keeps the invariant and the shape. *)
Lemma canardRxAccept_owned h i f iface t :
  instance_wf i ->
  memory_owned h i ->
  exists r h' i' t',
    canardRxAccept h (Some i) (Some f) iface (Some t) = (r, h', Some i', t') /\
    instance_wf i' /\ memory_owned h' i'.
Proof.
  intros Hwf Hown.
  destruct (unparseable f || misaddressed i f) eqn:Hskip.
  - unfold canardRxAccept.
    destruct (_ && _) eqn:Hchk; [|eauto 10].
    apply rx_arguments_checked in Hchk.
    fold (canardRxAccept h (Some i) (Some f) iface (Some t)).
    pose proof (canardRxAccept_skipped h i f iface t Hchk Hskip) as Heq.
    unfold canardRxAccept in Heq.
    rewrite (rx_arguments_accepted f Hchk) in Heq. rewrite Heq. eauto 10.
  - apply orb_false_iff in Hskip as [Hparse Hdst].
    unfold canardRxAccept.
    destruct (_ && _) eqn:Hchk; [|eauto 10].
    apply rx_arguments_checked in Hchk.
    pose proof (canardRxAccept_parsed h i f iface t Hchk Hparse Hdst) as Heq.
    unfold canardRxAccept in Heq.
    rewrite (rx_arguments_accepted f Hchk) in Heq. rewrite Heq.
    destruct (acceptFrame_owned h i (frame_model f) iface t Hwf Hown) as (H1 & H2).
    destruct (acceptFrame _ _ _ _ _) as [[[r h'] i'] t']. eauto 10.
Qed.

Lemma instance_wf_length i kind :
  instance_wf i -> kind < CANARD_NUM_TRANSFER_KINDS ->
  (N.to_nat kind < length (rx_subscriptions i))%nat.
Proof.
  intros (-> & _) Hk. unfold CANARD_NUM_TRANSFER_KINDS in *. lia.
Qed.

(** [canardRxUnsubscribe] keeps the invariant and the shape. *)
Lemma canardRxUnsubscribe_owned h i kind port :
  instance_wf i ->
  memory_owned h i ->
  exists r h' i',
    canardRxUnsubscribe h (Some i) kind port = (r, h', Some i') /\
    instance_wf i' /\ memory_owned h' i'.
Proof.
  intros Hwf Hown.
  destruct (N.lt_ge_cases kind CANARD_NUM_TRANSFER_KINDS) as [Hk|Hk].
  2:{ unfold canardRxUnsubscribe.
      destruct (N.ltb_spec kind CANARD_NUM_TRANSFER_KINDS); [lia|eauto 10]. }
  pose proof (instance_wf_length i kind Hwf Hk) as Hlen.
  pose proof (canardRxUnsubscribe_cases h i kind port Hk) as Hcase.
  destruct (acceptFrame_search _ _ _) as [pos|] eqn:Hs; [|rewrite Hcase; eauto 10].
  destruct Hcase as (sub & Hl & Hp & ->).
  destruct (instance_wf_kind i kind Hwf) as (Hnd & Hss).
  destruct (canardRxUnsubscribe_for_effect (sub_sessions sub) h)
    as (Hlive & Hf & Ha & _ & Hn & _).
  eexists _, _, _. split; [reflexivity|]. split.
  - apply instance_wf_replaced; [exact Hwf| |apply Forall_delete, Hss].
    rewrite list_fmap_delete. eapply sublist_NoDup; [exact Hnd|apply sublist_delete].
  - apply (memory_owned_freed h i _ _ (subscription_blocks sub) Hown);
      [exact Hlive|exact Hn|exact Hf|exact Ha|].
    apply (owned_blocks_kind_shrink i kind (subscriptions_of i kind));
      [apply subscriptions_of_Some, Hlen|].
    apply (concat_fmap_delete subscription_blocks _ _ _ Hl).
Qed.

(** [canardRxSubscribe] keeps the invariant and the shape. *)
Lemma canardRxSubscribe_owned h i kind port max timeout :
  instance_wf i ->
  memory_owned h i ->
  exists r h' i',
    canardRxSubscribe h (Some i) kind port max timeout true = (r, h', Some i') /\
    instance_wf i' /\ memory_owned h' i'.
Proof.
  intros Hwf Hown.
  destruct (N.lt_ge_cases kind CANARD_NUM_TRANSFER_KINDS) as [Hk|Hk].
  2:{ unfold canardRxSubscribe.
      destruct (N.ltb_spec kind CANARD_NUM_TRANSFER_KINDS); [lia|eauto 10]. }
  pose proof (instance_wf_length i kind Hwf Hk) as Hlen.
  pose proof (canardRxSubscribe_cases h i kind port max timeout Hk Hlen) as Hcase.
  cbv zeta in Hcase.
  destruct (instance_wf_kind i kind Hwf) as (Hnd & Hss).
  set (s := {| sub_port_id := port |}) in *.
  assert (Hempty : subscription_blocks s = [])
    by apply subscription_blocks_empty.
  assert (Hwf' : forall subs,
    filter (fun x => sub_port_id x = port) subs = [] ->
    NoDup (sub_port_id <$> subs) ->
    Forall (fun s => length (sub_sessions s) = SESSIONS_PER_SUBSCRIPTION) subs ->
    instance_wf (set_rx_subscriptions i (<[N.to_nat kind := s :: subs]>
                                           (rx_subscriptions i)))).
  { intros subs Hnone Hnd' Hss'. apply instance_wf_replaced; [exact Hwf| |].
    - cbn [fmap list_fmap]. apply NoDup_cons. split; [|exact Hnd'].
      intros Hin. apply list_elem_of_fmap in Hin as (y & Hy & Hiny).
      eapply (filter_nil_not_elem_of _ _ y Hnone); [symmetry; exact Hy|exact Hiny].
    - constructor; [apply length_replicate|exact Hss']. }
  destruct (acceptFrame_search _ _ _) as [pos|] eqn:Hs.
  - destruct Hcase as (sub & Hl & Hp & ->).
    destruct (canardRxUnsubscribe_for_effect (sub_sessions sub) h)
      as (Hlive & Hf & Ha & _ & Hn & _).
    eexists _, _, _. split; [reflexivity|]. split.
    + apply Hwf'; [apply filter_delete_found; assumption| |apply Forall_delete, Hss].
      rewrite list_fmap_delete.
      eapply sublist_NoDup; [exact Hnd|apply sublist_delete].
    + apply (memory_owned_freed h i _ _ (subscription_blocks sub) Hown);
        [exact Hlive|exact Hn|exact Hf|exact Ha|].
      apply (owned_blocks_kind_shrink i kind (subscriptions_of i kind));
        [apply subscriptions_of_Some, Hlen|].
      unfold kind_blocks at 2. cbn [fmap list_fmap concat]. rewrite Hempty.
      apply (concat_fmap_delete subscription_blocks _ _ _ Hl).
  - rewrite Hcase. eexists _, _, _. split; [reflexivity|].
    destruct (subscription_of_none_filter i kind port Hs) as (Hnone & _).
    split; [apply Hwf'; assumption|].
    destruct Hown as (Hhw & Hhn & Hhp & Hhc).
    split; [exact Hhw|]. split; [exact Hhn|]. split; [|exact Hhc].
    rewrite Hhp. symmetry.
    apply (owned_blocks_kind_grow i kind (subscriptions_of i kind) _ []);
      [apply subscriptions_of_Some, Hlen|].
    unfold kind_blocks at 1. cbn [fmap list_fmap concat]. rewrite Hempty.
    reflexivity.
Qed.

End OwnedByReception.

Section OwnedByRun.

(** Every sequence of API calls runs to the end and keeps the shape of the
    instance and the ownership of the memory. *)
Lemma run_api_owned calls : forall h i,
  instance_wf i ->
  memory_owned h i ->
  exists h' i',
    run_api calls h i = Some (h', i') /\ instance_wf i' /\ memory_owned h' i'.
Proof.
  induction calls as [|[t| |f iface|kind port max timeout|kind port|mtu node]
                       calls IH];
    intros h i Hwf Hown; cbn [run_api].
  - eauto.
  - destruct (canardTxPush_outcomes h i t) as (r & h' & i' & Heq & _).
    rewrite Heq.
    destruct (canardTxPush_owned h i t r h' i' Heq Hown) as (Hown' & Hrx).
    apply IH; [eapply instance_wf_rx; eauto|exact Hown'].
  - destruct (canardTxPop_owned h i Hown) as (h' & i' & -> & Hown' & Hrx).
    apply IH; [eapply instance_wf_rx; eauto|exact Hown'].
  - destruct (canardRxAccept_owned h i f iface blank_transfer Hwf Hown)
      as (r & h' & i' & t' & -> & Hwf' & Hown').
    apply IH; assumption.
  - destruct (canardRxSubscribe_owned h i kind port max timeout Hwf Hown)
      as (r & h' & i' & -> & Hwf' & Hown').
    apply IH; assumption.
  - destruct (canardRxUnsubscribe_owned h i kind port Hwf Hown)
      as (r & h' & i' & -> & Hwf' & Hown').
    apply IH; assumption.
  - apply IH; [exact Hwf|exact Hown].
Qed.

End OwnedByRun.

(** X18: The library leaks no memory and frees nothing twice: whatever the
    application calls, every call returns, every live block of the
    allocator is the block of one queued frame or of one session, no block
    is held twice, and the allocations granted are the blocks freed plus
    the frames queued and the sessions open. *)
Theorem api_memory_owned (calls : list ApiCall) (h : Heap) (i : CanardInstance) :
  instance_wf i ->
  memory_owned h i ->
  exists h' i',
    run_api calls h i = Some (h', i') /\
    instance_wf i' /\
    memory_owned h' i' /\
    n_allocated h'
    = (n_freed h' + length (tx_queue i')
       + length (concat (kind_blocks <$> rx_subscriptions i')))%nat.
Proof.
  intros Hwf Hown.
  destruct (run_api_owned calls h i Hwf Hown) as (h' & i' & Hrun & Hwf' & Hown').
  exists h', i'. split; [exact Hrun|]. split; [exact Hwf'|]. split; [exact Hown'|].
  destruct Hown' as (_ & _ & Hp & ->). rewrite Hp. unfold owned_blocks.
  rewrite length_app, length_fmap. lia.
Qed.

Lemma api_memory_owned_witness :
  exists h' i',
    run_api sample_api_calls (heap_of [true; true]) (instance_of 8 42)
    = Some (h', i') /\
    instance_wf i' /\
    memory_owned h' i' /\
    n_allocated h'
    = (n_freed h' + length (tx_queue i')
       + length (concat (kind_blocks <$> rx_subscriptions i')))%nat.
Proof.
  apply (api_memory_owned sample_api_calls (heap_of [true; true]) (instance_of 8 42)).
  - split; [reflexivity|]. apply (bool_decide_unpack _). vm_compute. exact I.
  - split; [constructor|]. split; [constructor|]. split; reflexivity.
Defined.

(** X19: The payload pointer that [canardTxPeek] hands out points into a live
    block, whatever was called before, and [canardTxPop] frees that
    block. *)
Theorem canardTxPeek_pointer (calls : list ApiCall) (h0 : Heap)
    (i0 : CanardInstance) (f0 : CanardFrame) :
  instance_wf i0 ->
  memory_owned h0 i0 ->
  exists h i,
    run_api calls h0 i0 = Some (h, i) /\
    forall f,
      canardTxPeek (Some i) (Some f0) = (1%Z, Some f) ->
      exists buf,
        fr_payload f = Some buf /\
        buf_base buf ∈ live h /\
        buf_base buf ∉ live (canardTxPop h (Some i)).1.
Proof.
  intros Hwf Hown.
  destruct (run_api_owned calls h0 i0 Hwf Hown) as (h & i & Hrun & _ & Hown').
  exists h, i. split; [exact Hrun|].
  intros f. unfold canardTxPeek, canardTxPop.
  destruct (tx_queue i) as [|it q] eqn:Hq; [discriminate|].
  intros [= <-]. eexists. split; [reflexivity|]. cbn [buf_base fst].
  destruct Hown' as (_ & _ & Hp & _). split.
  - rewrite Hp. unfold owned_blocks. rewrite Hq. cbn. apply list_elem_of_here.
  - cbn. intros Hin. apply list_elem_of_filter in Hin as [Hne _].
    apply Hne. reflexivity.
Qed.

Lemma canardTxPeek_pointer_witness :
  exists h i,
    run_api [ApiTxPush three_frame_transfer; ApiTxPop]
            (heap_of [true; true; true]) (instance_of 8 42) = Some (h, i) /\
    forall f,
      canardTxPeek (Some i) (Some blank_frame) = (1%Z, Some f) ->
      exists buf,
        fr_payload f = Some buf /\
        buf_base buf ∈ live h /\
        buf_base buf ∉ live (canardTxPop h (Some i)).1.
Proof.
  apply (canardTxPeek_pointer [ApiTxPush three_frame_transfer; ApiTxPop]
           (heap_of [true; true; true]) (instance_of 8 42) blank_frame).
  - split; [reflexivity|]. apply (bool_decide_unpack _). vm_compute. exact I.
  - split; [constructor|]. split; [constructor|]. split; reflexivity.
Defined.

(** ** From the sender to the receiver *)



(** ** The place of a transfer in the queue *)

Section Supremum.

Lemma findTxQueueSupremum_while_range rest can_id : forall out,
  (findTxQueueSupremum_while rest can_id out <= out + length rest)%nat.
Proof.
  induction rest as [|x rest IH]; intros out; cbn [findTxQueueSupremum_while length];
    [lia|].
  destruct (tqi_id x <=? can_id); [|lia].
  specialize (IH (S out)). lia.
Qed.

End Supremum.

(** X21: On a queue sorted by CAN-ID, [findTxQueueSupremum] finds the last item
    whose CAN-ID is at most the given one: every item up to it has such a
    CAN-ID and every item behind it a greater one; it finds no item exactly
    when every CAN-ID in the queue is greater. *)
Theorem findTxQueueSupremum_spec (i : CanardInstance) (can_id : N) :
  StronglySorted (fun a b => tqi_id a <= tqi_id b) (tx_queue i) ->
  match findTxQueueSupremum i can_id with
  | None => Forall (fun it => can_id < tqi_id it) (tx_queue i)
  | Some p =>
      (p < length (tx_queue i))%nat /\
      Forall (fun it => tqi_id it <= can_id) (take (S p) (tx_queue i)) /\
      Forall (fun it => can_id < tqi_id it) (drop (S p) (tx_queue i))
  end.
Proof.
  intros Hsorted. unfold findTxQueueSupremum.
  destruct (tx_queue i) as [|first rest]; [constructor|].
  apply StronglySorted_cons in Hsorted as (Hfirst & Hsorted).
  destruct (N.ltb_spec can_id (tqi_id first)) as [Hlt|Hge].
  - constructor; [exact Hlt|].
    eapply Forall_impl; [exact Hfirst|]. cbn. intros; lia.
  - pose proof (findTxQueueSupremum_while_range rest can_id 0) as Hrange.
    destruct (findTxQueueSupremum_while_spec rest can_id 0)
      as (n & Hn & Hall & Hnext).
    rewrite Hn in *. cbn [Nat.add] in *.
    split; [cbn [length]; lia|]. split.
    + cbn [take]. constructor; assumption.
    + cbn [drop].
      assert (Hrest : StronglySorted (fun a b => tqi_id a <= tqi_id b) (drop n rest)).
      { rewrite <- (take_drop n rest) in Hsorted.
        apply StronglySorted_app in Hsorted as (_ & _ & H). exact H. }
      destruct (drop n rest) as [|x after]; [constructor|].
      apply StronglySorted_cons in Hrest as (Hx & _).
      constructor; [exact Hnext|].
      eapply Forall_impl; [exact Hx|]. cbn. intros; lia.
Qed.

Lemma findTxQueueSupremum_spec_witness :
  match findTxQueueSupremum sample_sender 0x180 with
  | None => Forall (fun it => 0x180 < tqi_id it) (tx_queue sample_sender)
  | Some p =>
      (p < length (tx_queue sample_sender))%nat /\
      Forall (fun it => tqi_id it <= 0x180) (take (S p) (tx_queue sample_sender)) /\
      Forall (fun it => 0x180 < tqi_id it) (drop (S p) (tx_queue sample_sender))
  end.
Proof.
  apply (findTxQueueSupremum_spec sample_sender 0x180).
  repeat constructor; cbn; lia.
Defined.

(** ** The most urgent frame first *)

Section Urgent.

Lemma id_priority_mono a b :
  a <= b -> b <= CAN_EXT_ID_MASK -> id_priority a <= id_priority b.
Proof.
  unfold CAN_EXT_ID_MASK, id_priority.
  change (N.shiftl 1 29 - 1) with 536870911. intros Hab Hb.
  assert (Hq : forall x, x <= 536870911 -> (x / 2 ^ 26) mod 8 = x / 2 ^ 26).
  { intros x Hx. apply N.mod_small.
    apply N.Div0.div_lt_upper_bound. change (2 ^ 26 * 8) with 536870912. lia. }
  rewrite !Hq by lia. apply N.Div0.div_le_mono. exact Hab.
Qed.

End Urgent.

(** X22: Whatever was pushed, popped and reconfigured, the frame that
    [canardTxPeek] shows has the most urgent priority of the queue: no
    queued frame has a numerically smaller priority field. *)
Theorem canardTxPeek_most_urgent (calls : list TxCall) (h : Heap)
    (i : CanardInstance) (f0 : CanardFrame) :
  tx_queue_ordered h (tx_queue i) ->
  Forall frame_sendable (tx_queue i) ->
  exists h' i',
    run_tx calls h i = Some (h', i') /\
    forall f it,
      canardTxPeek (Some i') (Some f0) = (1%Z, Some f) ->
      it ∈ tx_queue i' ->
      id_priority (fr_extended_can_id f) <= id_priority (tqi_id it).
Proof.
  intros Hord Hsend.
  destruct (run_tx_ordered calls h i Hord) as (h' & i' & Hrun & (Hsorted & _)).
  destruct (run_tx_sendable calls h i Hsend) as (h2 & i2 & Hrun2 & Hsend').
  rewrite Hrun in Hrun2. injection Hrun2 as <- <-.
  exists h', i'. split; [exact Hrun|].
  intros f it. unfold canardTxPeek.
  destruct (tx_queue i') as [|x q]; [discriminate|].
  intros [= <-] Hin. cbn [fr_extended_can_id].
  apply StronglySorted_cons in Hsorted as (Hx & _).
  rewrite Forall_forall in Hsend', Hx.
  apply id_priority_mono; [|apply (Hsend' it Hin)].
  apply elem_of_cons in Hin as [->|Hin]; [lia|].
  apply tx_before_le, Hx, Hin.
Qed.

Lemma canardTxPeek_most_urgent_witness :
  exists h' i',
    run_tx sample_calls (heap_of [true; true; true; true; true]) (instance_of 64 1)
    = Some (h', i') /\
    forall f it,
      canardTxPeek (Some i') (Some blank_frame) = (1%Z, Some f) ->
      it ∈ tx_queue i' ->
      id_priority (fr_extended_can_id f) <= id_priority (tqi_id it).
Proof.
  apply (canardTxPeek_most_urgent sample_calls
           (heap_of [true; true; true; true; true]) (instance_of 64 1) blank_frame).
  - split; constructor.
  - constructor.
Defined.

(** ** A fresh instance *)

(** X23: The instance that [canardInit] returns has the shape and, with an
    allocator that holds no block, the memory ownership that the API keeps;
    its queue is empty and in order; it has nothing to send; and it ignores
    every frame, answering 0 without touching anything, because it has no
    subscription. *)
Theorem canardInit_clean (h : Heap) (f0 : CanardFrame) :
  live h = [] ->
  n_allocated h = n_freed h ->
  instance_wf canardInit /\
  memory_owned h canardInit /\
  tx_queue_ordered h (tx_queue canardInit) /\
  canardTxPeek (Some canardInit) (Some f0) = (0%Z, Some f0) /\
  canardTxPop h (Some canardInit) = (h, Some canardInit) /\
  forall f iface_index t,
    rx_arguments_valid f ->
    canardRxAccept h (Some canardInit) (Some f) iface_index (Some t)
    = (0%Z, h, Some canardInit, Some t).
Proof.
  intros Hlive Hcount.
  split; [split; [reflexivity|repeat constructor]|].
  split.
  { unfold memory_owned, heap_wf. rewrite Hlive. cbn.
    split; [constructor|]. split; [constructor|]. split; [reflexivity|lia]. }
  split; [split; constructor|].
  split; [reflexivity|]. split; [reflexivity|].
  intros f iface_index t Hargs.
  destruct (unparseable f || misaddressed canardInit f) eqn:Hskip;
    [apply canardRxAccept_skipped; assumption|].
  apply orb_false_iff in Hskip as [Hparse Hdst].
  rewrite canardRxAccept_parsed by assumption.
  rewrite acceptFrame_unsubscribed; [reflexivity|].
  unfold subscription_of, subscriptions_of. cbn [rx_subscriptions canardInit].
  destruct (replicate _ _ !! _) as [subs|] eqn:Hl; [|reflexivity].
  apply lookup_replicate in Hl as [-> _]. reflexivity.
Qed.

Lemma canardInit_clean_witness :
  instance_wf canardInit /\
  memory_owned (heap_of [true]) canardInit /\
  tx_queue_ordered (heap_of [true]) (tx_queue canardInit) /\
  canardTxPeek (Some canardInit) (Some blank_frame) = (0%Z, Some blank_frame) /\
  canardTxPop (heap_of [true]) (Some canardInit) = (heap_of [true], Some canardInit) /\
  forall f iface_index t,
    rx_arguments_valid f ->
    canardRxAccept (heap_of [true]) (Some canardInit) (Some f) iface_index (Some t)
    = (0%Z, heap_of [true], Some canardInit, Some t).
Proof.
  apply (canardInit_clean (heap_of [true]) blank_frame); reflexivity.
Defined.

(** ** What the calls may touch *)

(** X24: The CAN-ID of an anonymous transfer: [makeCANID] takes a transfer from
    a node without node-ID only if it is a message that fits one frame, sets
    the anonymous flag, and puts the low seven bits of the payload CRC where
    the source node-ID goes. *)
Theorem makeCANID_pseudo_node_id (t : CanardTransfer) (local : N) (mtu : nat) :
  (0 <= makeCANID t local mtu)%Z ->
  CANARD_NODE_ID_MAX < local ->
  tr_transfer_kind t = CanardTransferKindMessage /\
  (tr_payload_size t <= mtu)%nat /\
  id_is_anonymous (Z.to_N (makeCANID t local mtu)) = true /\
  id_source (Z.to_N (makeCANID t local mtu))
  = N.land (crcAdd CRC_INITIAL (tr_payload_size t) (bytes_of (tr_payload t)))
           CANARD_NODE_ID_MAX.
Proof.
  intros Hok Hanon.
  destruct (makeCANID_fields t local mtu Hok)
    as (_ & _ & _ & _ & Ha & Hs & _).
  destruct (makeCANID_value t local mtu Hok) as (_ & Hcase).
  cbv zeta in *.
  destruct (N.leb_spec local CANARD_NODE_ID_MAX) as [|_]; [lia|].
  unfold CANARD_NODE_ID_MAX in Hanon.
  destruct Hcase as [(Hk & _ & _ & [(? & _)|(_ & Hfit & _)])|(_ & _ & _ & ? & _)];
    [lia| |lia].
  split; [exact Hk|]. split; [exact Hfit|]. split; [exact Ha|].
  rewrite Hs. symmetry. exact (N.land_ones _ 7).
Qed.

Lemma makeCANID_pseudo_node_id_witness :
  tr_transfer_kind sample_anonymous_transfer = CanardTransferKindMessage /\
  (tr_payload_size sample_anonymous_transfer <= 63)%nat /\
  id_is_anonymous (Z.to_N (makeCANID sample_anonymous_transfer
                                     CANARD_NODE_ID_UNSET 63)) = true /\
  id_source (Z.to_N (makeCANID sample_anonymous_transfer CANARD_NODE_ID_UNSET 63))
  = N.land (crcAdd CRC_INITIAL (tr_payload_size sample_anonymous_transfer)
                   (bytes_of (tr_payload sample_anonymous_transfer)))
           CANARD_NODE_ID_MAX.
Proof.
  apply (makeCANID_pseudo_node_id sample_anonymous_transfer CANARD_NODE_ID_UNSET 63);
    [vm_compute; discriminate|reflexivity].
Defined.

(** X25: [canardTxPush] always returns, and what it returns is INVALID_ARGUMENT,
    OUT_OF_MEMORY or the number of frames by which the queue has grown; the
    frames that were queued before are still there, in their order; an
    error leaves the instance as it was; and no call touches the
    subscriptions, the node-ID or the MTU. *)
Theorem canardTxPush_result (h : Heap) (i : CanardInstance) (t : CanardTransfer) :
  exists r h' i',
    canardTxPush h (Some i) (Some t) = Some (r, h', Some i') /\
    (r = (- CANARD_ERROR_INVALID_ARGUMENT)%Z \/
     r = (- CANARD_ERROR_OUT_OF_MEMORY)%Z \/ (0 < r)%Z) /\
    length (tx_queue i') = (length (tx_queue i) + Z.to_nat r)%nat /\
    tx_queue i `sublist_of` tx_queue i' /\
    ((r < 0)%Z -> i' = i) /\
    (r = (- CANARD_ERROR_INVALID_ARGUMENT)%Z -> h' = h) /\
    rx_subscriptions i' = rx_subscriptions i /\
    node_id i' = node_id i /\ mtu_bytes i' = mtu_bytes i /\
    user_reference i' = user_reference i.
Proof.
  destruct (canardTxPush_outcomes h i t) as (r & h' & i' & Heq & Hcase).
  exists r, h', i'. split; [exact Heq|].
  destruct Hcase as
      [(-> & -> & -> & _)|(_ & _ & [(-> & -> & _)|(frames & -> & Henq & _)])].
  - split; [auto|].
    split; [unfold CANARD_ERROR_INVALID_ARGUMENT; lia|].
    split; [reflexivity|]. auto 10.
  - split; [auto|].
    split; [unfold CANARD_ERROR_OUT_OF_MEMORY; lia|]. split; [reflexivity|].
    split; [reflexivity|].
    split; [unfold CANARD_ERROR_INVALID_ARGUMENT, CANARD_ERROR_OUT_OF_MEMORY;
            intros H; lia|].
    auto.
  - destruct Henq as (Hne & Hi' & (before & after & Hq & Hq' & _) & _).
    assert (Hpos : (0 < length frames)%nat)
      by (destruct frames; [contradiction|cbn; lia]).
    split; [right; right; lia|].
    split; [rewrite Hq', Hq, !length_app, Nat2Z.id; lia|].
    split; [rewrite Hq', Hq; apply sublist_app; [reflexivity|];
            apply sublist_inserts_l; reflexivity|].
    split; [intros; lia|].
    split; [unfold CANARD_ERROR_INVALID_ARGUMENT; intros; lia|].
    rewrite Hi'. auto.
Qed.

Section AcceptFootprint.

Lemma ports_of_store i kind pos sub ss k :
  subscriptions_of i kind !! pos = Some sub ->
  sub_port_id <$> subscriptions_of (store_subscription i kind pos
                                      (set_sub_sessions sub ss)) k
  = sub_port_id <$> subscriptions_of i k.
Proof.
  intros Hl. destruct (decide (N.to_nat k = N.to_nat kind)) as [He|Hne].
  - apply N2Nat.inj in He. subst k.
    rewrite (subscriptions_of_store i kind pos sub _ Hl), list_fmap_insert.
    cbn [sub_port_id set_sub_sessions]. apply list_insert_id.
    rewrite list_lookup_fmap, Hl. reflexivity.
  - rewrite subscriptions_of_store_ne by exact Hne. reflexivity.
Qed.

End AcceptFootprint.

(** X26: What [canardRxAccept] may touch: it never changes the transmission
    side, the subscriptions or their port-IDs; it frees nothing and asks
    for at most one block, for a new session; it answers OUT_OF_MEMORY
    exactly when that block is refused; and it writes the transfer of the
    caller only when it answers 1. *)
Theorem canardRxAccept_footprint (h : Heap) (i : CanardInstance)
    (f : CanardFrame) (iface_index : N) (t : CanardTransfer) :
  instance_wf i ->
  exists r h' i' t',
    canardRxAccept h (Some i) (Some f) iface_index (Some t)
    = (r, h', Some i', Some t') /\
    accept_footprint h i t r h' i' t'.
Proof.
  intros Hwf.
  assert (Hsame : forall r,
    (r = 1 \/ r = 0 \/ r = - CANARD_ERROR_INVALID_ARGUMENT)%Z ->
    forall t', (r <> 1%Z -> t' = t) -> accept_footprint h i t r h i t').
  { intros r Hr t' Ht. unfold accept_footprint, same_tx_side. auto 15. }
  pose proof (rx_arguments_checked f) as [Hchk _].
  destruct ((fr_extended_can_id f <=? CAN_EXT_ID_MASK)
            && (bool_decide (is_Some (fr_payload f))
                || (0 =? fr_payload_size f)%nat)) eqn:Hargs.
  2:{ rewrite canardRxAccept_refused.
      - eexists _, _, _, _. split; [reflexivity|]. apply Hsame; auto.
      - intros Hv. apply rx_arguments_checked in Hv. congruence. }
  specialize (Hchk eq_refl).
  destruct (unparseable f || misaddressed i f) eqn:Hskip.
  { rewrite canardRxAccept_skipped by assumption.
    eexists _, _, _, _. split; [reflexivity|]. apply Hsame; auto. }
  apply orb_false_iff in Hskip as [Hparse Hdst].
  rewrite canardRxAccept_parsed by assumption.
  set (m := frame_model f).
  destruct (subscription_of i (fm_transfer_kind m) (fm_port_id m)) as [sub|] eqn:Hsub.
  2:{ rewrite acceptFrame_unsubscribed by exact Hsub.
      eexists _, _, _, _. split; [reflexivity|]. apply Hsame; auto. }
  destruct (N.leb_spec (fm_source_node_id m) CANARD_NODE_ID_MAX) as [Hsrc|Hsrc].
  2:{ rewrite (acceptFrame_stateless h i m iface_index t sub Hsub Hsrc).
      eexists _, _, _, _. split; [reflexivity|]. apply Hsame; [auto|].
      intros H; contradiction H; reflexivity. }
  destruct (subscription_of_search i m sub Hsub) as (pos & Hs & Hl & _).
  destruct (instance_wf_kind i (fm_transfer_kind m) Hwf) as (_ & Hss).
  assert (Hlen : length (sub_sessions sub) = SESSIONS_PER_SUBSCRIPTION).
  { rewrite Forall_forall in Hss. apply Hss. eapply list_elem_of_lookup_2, Hl. }
  assert (Hlt : (N.to_nat (fm_source_node_id m) < length (sub_sessions sub))%nat).
  { rewrite Hlen. unfold SESSIONS_PER_SUBSCRIPTION, CANARD_NODE_ID_MAX in *. lia. }
  destruct (lookup_lt_is_Some_2 _ _ Hlt) as ([rxs|] & Hslot).
  { rewrite (acceptFrame_idle h i m iface_index t sub Hsub Hsrc);
      [|left; rewrite Hslot; discriminate].
    eexists _, _, _, _. split; [reflexivity|]. apply Hsame; auto. }
  destruct (fm_start_of_transfer m) eqn:Hsot.
  2:{ rewrite (acceptFrame_idle h i m iface_index t sub Hsub Hsrc) by auto.
      eexists _, _, _, _. split; [reflexivity|]. apply Hsame; auto. }
  destruct (acceptFrame_new_session h i m iface_index t sub Hsub Hsrc Hslot Hsot)
    as (pos' & Hs' & Hl' & ->).
  destruct (memory_allocate h _) as [[b|] h1] eqn:Halloc.
  - apply memory_allocate_granted in Halloc as (-> & Hn & Hlive & Ha & Hr & Hf & _).
    eexists _, _, _, _. split; [reflexivity|].
    split; [unfold same_tx_side; auto|].
    split; [apply (instance_wf_store i _ pos' sub Hl'); [exact Hwf|];
            rewrite length_insert; exact Hlen|].
    split; [intros k; apply (ports_of_store i _ pos' sub _ k Hl')|].
    split; [exact Hf|]. split; [right; left; auto|reflexivity].
  - apply memory_allocate_refused in Halloc as (Hn & Hlive & Ha & Hr & Hf & _).
    eexists _, _, _, _. split; [reflexivity|].
    split; [unfold same_tx_side; auto|]. split; [exact Hwf|].
    split; [reflexivity|]. split; [exact Hf|].
    split; [right; right; auto|reflexivity].
Qed.

Lemma canardRxAccept_footprint_witness :
  exists r h' i' t',
    canardRxAccept (heap_of [true]) (Some (subscriber 9 7168 64))
                   (Some scenario1_frame) 0 (Some blank_transfer)
    = (r, h', Some i', Some t') /\
    accept_footprint (heap_of [true]) (subscriber 9 7168 64) blank_transfer
                     r h' i' t'.
Proof.
  apply (canardRxAccept_footprint (heap_of [true]) (subscriber 9 7168 64)
           scenario1_frame 0 blank_transfer).
  split; [reflexivity|]. apply (bool_decide_unpack _). vm_compute. exact I.
Defined.
